(** * The archive multiplexer and the metadata writer of mongo-tools

    A shallow embedding of [common/archive/multiplexer.go], of
    [MongoDump.dumpMetadata] from [mongodump/metadata_dump.go], and of the
    functions of [mongodump] that create the intents of a dump.

    The multiplexer goroutine and the producers talk over unbuffered
    channels.  Every exchange is a rendezvous, so the embedding runs the
    loop body of [Multiplexer.Run] at the very moment a producer sends: a
    world holds the shared [MuxIn] objects (by address), the channels, the
    multiplexer and the value it has published on [Completed].  Integers
    are [Z] (Go's [int] is taken to be 64 bits wide), byte slices are lists
    of [Byte.byte], Go strings are [string]. *)

From Stdlib Require Import ZArith String List Lia Bool Ascii.
From Stdlib Require Import Strings.Byte.
From stdpp Require Import base list.
Import ListNotations.
Local Open Scope Z_scope.

Abbreviation bytes := (list Byte.byte) (only parsing).

Definition len {A : Type} (l : list A) : Z := Z.of_nat (length l).

Definition byteZ (b : Byte.byte) : Z := Z.of_N (Byte.to_N b).

(** [s[i]] for a Go [int] index; [None] is the run-time panic. *)
Definition index {A : Type} (l : list A) (i : Z) : option A :=
  if i <? 0 then None else l !! Z.to_nat i.

(** ** hash/crc64 (Go standard library)

    [MuxIn.Open] takes [crc64.New(crc64.MakeTable(crc64.ECMA))]; the
    multiplexer calls [Write] and [Sum64] on it.  The table entry is
    computed on demand, the update loop is the one of [crc64.update]. *)
Module crc64.

Definition ECMA : Z := 0xC96C5795D7870F42.

Definition mask64 : Z := 0xFFFFFFFFFFFFFFFF.

(** [^crc] on a [uint64]. *)
Definition not64 (crc : Z) : Z := Z.lxor crc mask64.

Fixpoint tableLoop (poly : Z) (j : nat) (crc : Z) : Z :=
  match j with
  | O => crc
  | S j' =>
      tableLoop poly j'
        (if Z.testbit crc 0
         then Z.lxor (Z.shiftr crc 1) poly
         else Z.shiftr crc 1)
  end.

(** [MakeTable(poly)[i]]. *)
Definition MakeTable (poly : Z) (i : Z) : Z := tableLoop poly 8 i.

Definition updateByte (tab : Z -> Z) (crc : Z) (v : Byte.byte) : Z :=
  Z.lxor (tab (Z.lxor (Z.land crc 255) (byteZ v))) (Z.shiftr crc 8).

Definition update (crc : Z) (tab : Z -> Z) (p : bytes) : Z :=
  not64 (fold_left (updateByte tab) p (not64 crc)).

(** A digest is its running [crc]; [New] starts at zero. *)
Definition New : Z := 0.

Definition Write (d : Z) (p : bytes) : Z := update d (MakeTable ECMA) p.

Definition Sum64 (d : Z) : Z := d.

(** [crc64.Checksum(data, MakeTable(ECMA))]. *)
Definition Checksum (data : bytes) : Z := update 0 (MakeTable ECMA) data.

End crc64.

(** [int64(u)] for a [uint64] value [u]. *)
Definition int64 (u : Z) : Z :=
  let r := u mod 2 ^ 64 in
  if r <? 2 ^ 63 then r else r - 2 ^ 64.

(** ** Errors, intents and headers *)

Inductive Error : Type :=
| ErrShortWrite
    (* io.ErrShortWrite *)
| ErrMuxEnding (n : Z)
    (* fmt.Errorf("Mux ending but selectCases still open %v\n", n) *)
| ErrNonMuxIn
    (* fmt.Errorf("non MuxIn received on Control chan") *)
| ErrNonBytes
    (* fmt.Errorf("multiplexer received a value that wasn't a []byte") *)
| ErrExternal (what : string).
    (* an error value of the sink or of the codec *)

Module intents.

Record Intent : Type := { DB : string; C : string }.

(** Modelled from the spec: [Intent.Namespace] is declared in
    [common/intents], outside the sources at hand; the spec writes the
    namespace of database [d] and collection [c] as [d.c]. *)
Definition Namespace (it : Intent) : string :=
  (DB it ++ "." ++ C it)%string.

End intents.

(** The value handed to [bson.Marshal] by [formatBody] and [formatEOF]. *)
Record NamespaceHeader : Type := {
  Database : string;
  Collection : string;
  EOF : bool;
  CRC : Z
}.

(** What the file takes from outside the two sources: the size constant
    [db.MaxBSONSize], the codec [bson.Marshal] on headers, and the capacity
    the Go runtime picks when [append] has to reallocate (given the old
    capacity and the length needed). *)
Class Externals : Type := {
  MaxBSONSize : Z;
  Marshal : NamespaceHeader -> Error + bytes;
  growslice : Z -> Z -> Z
}.

(** [io.WriteCloser]: [Write] returns the new sink, the count and the
    error; [Close] the new sink and the error. *)
Class WriteCloser (W : Type) : Type := {
  wcWrite : W -> bytes -> W * (Z * option Error);
  wcClose : W -> W * option Error
}.

(** Modelled from the spec: [terminatorBytes] is declared in
    [common/archive], outside the sources at hand; the spec gives the
    terminator as four zero bytes. *)
Definition terminatorBytes : bytes := [x00; x00; x00; x00]%byte.

(** ** Shared objects, channels and the world *)

(** Channels and the addresses of handles are numbered from zero. *)
Abbreviation chan := nat (only parsing).
Abbreviation ptr := nat (only parsing).

(** [MuxIn]; [bufCap] is [cap(muxIn.buf)], a nil slice being the empty one
    of capacity zero; [None] is a nil channel or a nil [hash.Hash64].  The
    [Mux] field is left out: a world has one multiplexer. *)
Record MuxIn : Type := {
  writeChan : option chan;
  writeLenChan : option chan;
  buf : bytes;
  bufCap : Z;
  hash : option Z;
  Intent : intents.Intent
}.

(** [&MuxIn{Intent: it, Mux: mux}], as the callers build it. *)
Definition zeroMuxIn (it : intents.Intent) : MuxIn :=
  {| writeChan := None; writeLenChan := None; buf := []; bufCap := 0;
     hash := None; Intent := it |}.

(** A value delivered by [reflect.Select]. *)
Inductive Value : Type :=
| VMuxIn (p : ptr)
| VBytes (b : bytes)
| VZero.

(** Ghost record of what happened to each handle, oldest first; no
    function of the program reads it. *)
Inductive Event : Type :=
| EvOpen (p : ptr)
| EvData (p : ptr) (b : bytes)
| EvEOF (p : ptr) (h : NamespaceHeader).

(** Where the goroutine of [Run] stands. *)
Inductive RunState : Type :=
| Running
| Returned (completed : option Error)
| Crashed.

Inductive PanicKind : Type :=
| IndexOutOfRange
| CorruptBSON
| NilDereference
| ClosedChannel.

Inductive Outcome (A : Type) : Type :=
| Ret (a : A)
| Throw (e : Error)
| Panic (k : PanicKind)
| Blocked.
Arguments Ret {A} a.
Arguments Throw {A} e.
Arguments Panic {A} k.
Arguments Blocked {A}.

Section Archive.

Context {Ext : Externals} {W : Type} {WC : WriteCloser W}.

Record Multiplexer : Type := {
  Out : W;
  Control : chan;
  Completed : chan;
  ins : list (option ptr);
  selectCases : list (option chan);
  currentNamespace : string
}.

(** [chans !! c] tells whether channel [c] has been closed; [ack] is the
    length the multiplexer is blocked sending, with its channel. *)
Record World : Type := {
  heap : list MuxIn;
  chans : list bool;
  mux : Multiplexer;
  running : RunState;
  ack : option (option chan * Z);
  history : list Event
}.

Definition setHeap (w : World) (h : list MuxIn) : World :=
  {| heap := h; chans := chans w; mux := mux w; running := running w;
     ack := ack w; history := history w |}.
Definition setChans (w : World) (c : list bool) : World :=
  {| heap := heap w; chans := c; mux := mux w; running := running w;
     ack := ack w; history := history w |}.
Definition setMux (w : World) (m : Multiplexer) : World :=
  {| heap := heap w; chans := chans w; mux := m; running := running w;
     ack := ack w; history := history w |}.
Definition setRunning (w : World) (r : RunState) : World :=
  {| heap := heap w; chans := chans w; mux := mux w; running := r;
     ack := ack w; history := history w |}.
Definition setAck (w : World) (a : option (option chan * Z)) : World :=
  {| heap := heap w; chans := chans w; mux := mux w; running := running w;
     ack := a; history := history w |}.
Definition record (w : World) (e : Event) : World :=
  {| heap := heap w; chans := chans w; mux := mux w; running := running w;
     ack := ack w; history := history w ++ [e] |}.

Definition setOut (m : Multiplexer) (o : W) : Multiplexer :=
  {| Out := o; Control := Control m; Completed := Completed m;
     ins := ins m; selectCases := selectCases m;
     currentNamespace := currentNamespace m |}.
Definition setCurrentNamespace (m : Multiplexer) (ns : string) : Multiplexer :=
  {| Out := Out m; Control := Control m; Completed := Completed m;
     ins := ins m; selectCases := selectCases m; currentNamespace := ns |}.
Definition setCases (m : Multiplexer) (i : list (option ptr))
    (s : list (option chan)) : Multiplexer :=
  {| Out := Out m; Control := Control m; Completed := Completed m;
     ins := i; selectCases := s; currentNamespace := currentNamespace m |}.

Definition setWriteChans (m : MuxIn) (c l : option chan) : MuxIn :=
  {| writeChan := c; writeLenChan := l; buf := buf m; bufCap := bufCap m;
     hash := hash m; Intent := Intent m |}.
Definition setBuf (m : MuxIn) (b : bytes) (c : Z) : MuxIn :=
  {| writeChan := writeChan m; writeLenChan := writeLenChan m; buf := b;
     bufCap := c; hash := hash m; Intent := Intent m |}.
Definition setHash (m : MuxIn) (h : option Z) : MuxIn :=
  {| writeChan := writeChan m; writeLenChan := writeLenChan m;
     buf := buf m; bufCap := bufCap m; hash := h; Intent := Intent m |}.

Definition isClosed (w : World) (c : chan) : bool :=
  match chans w !! c with Some b => b | None => false end.

(** *** A state monad with the ways a goroutine can stop *)

Definition M (A : Type) : Type := World -> World * Outcome A.

Definition ret {A : Type} (a : A) : M A := fun w => (w, Ret a).

Definition bind {A B : Type} (m : M A) (k : A -> M B) : M B :=
  fun w =>
    match m w with
    | (w', Ret a) => k a w'
    | (w', Throw e) => (w', Throw e)
    | (w', Panic p) => (w', Panic p)
    | (w', Blocked) => (w', Blocked)
    end.

Definition throw {A : Type} (e : Error) : M A := fun w => (w, Throw e).
Definition panic {A : Type} (k : PanicKind) : M A := fun w => (w, Panic k).
Definition block {A : Type} : M A := fun w => (w, Blocked).
Definition get : M World := fun w => (w, Ret w).
Definition modify (f : World -> World) : M unit := fun w => (f w, Ret tt).

Notation "'let*' x ':=' m 'in' k" := (bind m (fun x => k))
  (at level 10, x pattern, m at level 100, k at level 200).
Notation "m ';;;' k" := (bind m (fun _ => k))
  (at level 100, k at level 200, right associativity).

(** *** Channel operations *)

(** [make(chan T)]. *)
Definition makeChan : M (option chan) :=
  fun w => (setChans w (chans w ++ [false]), Ret (Some (length (chans w)))).

(** [close(c)]. *)
Definition closeChan (c : option chan) : M unit :=
  fun w =>
    match c with
    | None => (w, Panic NilDereference)
    | Some c' =>
        if isClosed w c' then (w, Panic ClosedChannel)
        else (setChans w (<[c' := true]> (chans w)), Ret tt)
    end.

(** [c <- n] by the multiplexer on a [writeLenChan]: it stays blocked
    with the value in hand until the producer receives. *)
Definition sendLen (c : option chan) (n : Z) : M unit :=
  fun w =>
    match c with
    | Some c' =>
        if isClosed w c' then (w, Panic ClosedChannel)
        else (setAck w (Some (c, n)), Ret tt)
    | None => (setAck w (Some (c, n)), Ret tt)
    end.

(** [<-c] by a producer on its [writeLenChan]. *)
Definition recvLen (c : option chan) : M Z :=
  fun w =>
    match c with
    | None => (w, Blocked)
    | Some c' =>
        match ack w with
        | Some (Some c'', n) =>
            if Nat.eqb c' c'' then (setAck w None, Ret n)
            else if isClosed w c' then (w, Ret 0) else (w, Blocked)
        | _ => if isClosed w c' then (w, Ret 0) else (w, Blocked)
        end
    end.

(** *** The multiplexer *)

(** [NewMultiplexer(out)]: channel 0 is [Control], channel 1 is
    [Completed]. *)
Definition NewMultiplexer (out : W) : Multiplexer :=
  {| Out := out; Control := 0%nat; Completed := 1%nat;
     ins := [None]; selectCases := [Some 0%nat]; currentNamespace := EmptyString |}.

(** [mux.Out.Write(p)] with its two results. *)
Definition outWrite (p : bytes) : M (Z * option Error) :=
  fun w =>
    let '(o, r) := wcWrite (Out (mux w)) p in
    (setMux w (setOut (mux w) o), Ret r).

(** The three lines the source repeats after each framing write:
    [l, err := mux.Out.Write(p)], return [err] if it is not nil, return
    [io.ErrShortWrite] if [l != len(p)]. *)
Definition writeFraming (p : bytes) : M unit :=
  let* (l, err) := outWrite p in
  match err with
  | Some e => throw e
  | None => if negb (l =? len p) then throw ErrShortWrite else ret tt
  end.

(** [bson.Marshal(h)] followed by [if err != nil { return err }]. *)
Definition marshal (h : NamespaceHeader) : M bytes :=
  match Marshal h with
  | inl e => throw e
  | inr b => ret b
  end.

(** [*p] for a pointer to a [MuxIn]. *)
Definition deref (p : ptr) : M MuxIn :=
  fun w =>
    match heap w !! p with
    | Some m => (w, Ret m)
    | None => (w, Panic NilDereference)
    end.

(** The header [formatBody] marshals for a handle. *)
Definition openHeaderOf (in_ : MuxIn) : NamespaceHeader :=
  {| Database := intents.DB (Intent in_);
     Collection := intents.C (Intent in_);
     EOF := false; CRC := 0 |}.

(** The first half of [formatBody]: the change of namespace, down to
    [mux.currentNamespace = in.Intent.Namespace()]. *)
Definition formatBody_header (in_ : MuxIn) : M unit :=
  let* w := get in
  let ns := intents.Namespace (Intent in_) in
  (if negb (ns =? currentNamespace (mux w))%string then
     (if negb (currentNamespace (mux w) =? EmptyString)%string
      then writeFraming terminatorBytes
      else ret tt);;;
     let* header := marshal (openHeaderOf in_) in
     writeFraming header
   else ret tt);;;
  modify (fun w => setMux w (setCurrentNamespace (mux w) ns)).

(** The second half: the record is written and the count the sink
    returns is sent to the producer. *)
Definition formatBody_record (in_ : MuxIn) (bsonBytes : bytes) : M unit :=
  let* (length, err) := outWrite bsonBytes in
  match err with
  | Some e => throw e
  | None => sendLen (writeLenChan in_) length
  end.

Definition formatBody (p : ptr) (bsonBytes : bytes) : M unit :=
  let* in_ := deref p in
  formatBody_header in_;;;
  formatBody_record in_ bsonBytes.

(** The header [formatEOF] marshals for a handle whose digest is [d]. *)
Definition eofHeaderOf (in_ : MuxIn) (d : Z) : NamespaceHeader :=
  {| Database := intents.DB (Intent in_);
     Collection := intents.C (Intent in_);
     EOF := true;
     CRC := int64 (crc64.Sum64 d) |}.

(** Building the header of [formatEOF] reads the handle; the ghost
    record notes the header with the handle it is for. *)
Definition headerForEOF (p : ptr) : M NamespaceHeader :=
  fun w =>
    match heap w !! p with
    | Some in_ =>
        match hash in_ with
        | Some d =>
            (record w (EvEOF p (eofHeaderOf in_ d)), Ret (eofHeaderOf in_ d))
        | None => (w, Panic NilDereference)
        end
    | None => (w, Panic NilDereference)
    end.

Definition formatEOF (index : nat) (p : ptr) : M unit :=
  let* w := get in
  (if negb (currentNamespace (mux w) =? EmptyString)%string
   then writeFraming terminatorBytes
   else ret tt);;;
  let* hdr := headerForEOF p in
  let* eofHeader := marshal hdr in
  writeFraming eofHeader;;;
  writeFraming terminatorBytes.

(** [mux.ins[index].hash.Write(bsonBytes)], with its ghost record. *)
Definition hashWrite (p : ptr) (bsonBytes : bytes) : M unit :=
  fun w =>
    match heap w !! p with
    | Some in_ =>
        match hash in_ with
        | Some d =>
            (record
               (setHeap w
                  (<[p := setHash in_ (Some (crc64.Write d bsonBytes))]>
                     (heap w)))
               (EvData p bsonBytes), Ret tt)
        | None => (w, Panic NilDereference)
        end
    | None => (w, Panic NilDereference)
    end.

(** [mux.Completed <- err; return]. *)
Definition complete (err : option Error) (w : World) : World :=
  setRunning w (Returned err).

(** How one turn of the loop ends after a call that returns an error:
    go on, publish the error, or die on a panic. *)
Definition afterCall (r : World * Outcome unit) (k : World -> World) : World :=
  match r with
  | (w, Ret _) => k w
  | (w, Throw e) => complete (Some e) w
  | (w, Panic _) => setRunning w Crashed
  | (w, Blocked) => w
  end.

(** [mux.ins[index]]; a nil entry or an index out of range ends in a
    panic at its first use. *)
Definition insAt (index : nat) : M ptr :=
  fun w =>
    match ins (mux w) !! index with
    | Some (Some p) => (w, Ret p)
    | Some None => (w, Panic NilDereference)
    | None => (w, Panic IndexOutOfRange)
    end.

(** [append(s[:index], s[index+1:]...)]. *)
Definition remove {A : Type} (index : nat) (s : list A) : list A :=
  take index s ++ drop (S index) s.

(** One turn of the loop of [Run], for the result
    [index, value, notEOF] of [reflect.Select]. *)
Definition Run_turn (index : nat) (value : Value) (notEOF : bool)
    (w : World) : World :=
  let EOF := negb notEOF in
  if Nat.eqb index 0 then
    if EOF then
      let w1 := setMux w (setOut (mux w) (fst (wcClose (Out (mux w))))) in
      if negb (len (selectCases (mux w1)) =? 1)
      then complete (Some (ErrMuxEnding (len (selectCases (mux w1))))) w1
      else complete None w1
    else
      match value with
      | VMuxIn p =>
          match heap w !! p with
          | None => setRunning w Crashed
          | Some muxIn =>
              setMux w (setCases (mux w)
                          (ins (mux w) ++ [Some p])
                          (selectCases (mux w) ++ [writeChan muxIn]))
          end
      | _ => complete (Some ErrNonMuxIn) w
      end
  else if EOF then
    afterCall ((let* p := insAt index in formatEOF index p) w)
      (fun w =>
         setMux w
           (setCases (setCurrentNamespace (mux w) EmptyString)
              (remove index (ins (mux w)))
              (remove index (selectCases (mux w)))))
  else
    match value with
    | VBytes bsonBytes =>
        afterCall
          ((let* p := insAt index in
            hashWrite p bsonBytes;;;
            formatBody p bsonBytes) w)
          (fun w => w)
    | _ => complete (Some ErrNonBytes) w
    end.

(** The multiplexer can take a turn when it is in its loop and not
    blocked on an acknowledgement. *)
Definition selecting (w : World) : bool :=
  match running w, ack w with
  | Running, None => true
  | _, _ => false
  end.

(** [Run] over the successive results of [reflect.Select]; it stops at
    the first turn that returns. *)
Fixpoint Run (sel : list (nat * Value * bool)) (w : World) : World :=
  match sel with
  | [] => w
  | (index, value, notEOF) :: rest =>
      if selecting w then Run rest (Run_turn index value notEOF w) else w
  end.


(** *** The producer handle *)

Definition bufferWrites : bool := true.
Definition bufferSize : Z := MaxBSONSize.

(** An assignment to fields of [*muxIn]. *)
Definition assign (p : ptr) (f : MuxIn -> MuxIn) : M unit :=
  let* m := deref p in
  modify (fun w => setHeap w (<[p := f m]> (heap w))).

(** [muxIn.hash = crc64.New(crc64.MakeTable(crc64.ECMA))], with its
    ghost record. *)
Definition newHash (p : ptr) : M unit :=
  let* m := deref p in
  modify (fun w =>
            record (setHeap w (<[p := setHash m (Some crc64.New)]> (heap w)))
              (EvOpen p)).

(** [b[i]] with its bounds check. *)
Definition at_ (b : bytes) (i : Z) : M Byte.byte :=
  match index b i with
  | Some x => ret x
  | None => panic IndexOutOfRange
  end.

Fixpoint findCase (c : chan) (cases : list (option chan)) : option nat :=
  match cases with
  | [] => None
  | Some c' :: rest =>
      if Nat.eqb c c' then Some 0%nat else S <$> findCase c rest
  | None :: rest => S <$> findCase c rest
  end.

(** [mux.Control <- muxIn]: the multiplexer takes it in its next turn. *)
Definition sendControl (p : ptr) : M unit :=
  fun w =>
    if isClosed w (Control (mux w)) then (w, Panic ClosedChannel)
    else if selecting w then (Run_turn 0 (VMuxIn p) true w, Ret tt)
    else (w, Blocked).

(** [c <- b] on a [writeChan]: the multiplexer takes it in the turn in
    which [reflect.Select] picks the case of [c]. *)
Definition sendBytes (c : option chan) (b : bytes) : M unit :=
  fun w =>
    match c with
    | None => (w, Blocked)
    | Some c' =>
        if isClosed w c' then (w, Panic ClosedChannel)
        else if selecting w then
          match findCase c' (selectCases (mux w)) with
          | Some i => (Run_turn i (VBytes b) true w, Ret tt)
          | None => (w, Blocked)
          end
        else (w, Blocked)
    end.

(** [append(s, b...)] on the buffer of a handle. *)
Definition append_ (m : MuxIn) (b : bytes) : MuxIn :=
  let n := len (buf m ++ b) in
  setBuf m (buf m ++ b)
    (if n <=? bufCap m then bufCap m else growslice (bufCap m) n).

Definition MuxIn_Read (p : ptr) (b : bytes) : M (Z * option Error) :=
  ret (0, None).

Definition MuxIn_Open (p : ptr) : M (option Error) :=
  deref p;;;
  let* c := makeChan in
  let* l := makeChan in
  assign p (fun m => setWriteChans m c l);;;
  assign p (fun m => setBuf m [] bufferSize);;;
  newHash p;;;
  (if bufferWrites
   then assign p (fun m => setBuf m [] MaxBSONSize)
   else ret tt);;;
  sendControl p;;;
  ret None.

Definition MuxIn_Close (p : ptr) : M (option Error) :=
  deref p;;;
  let* short :=
    (if bufferWrites then
       let* muxIn := deref p in
       sendBytes (writeChan muxIn) (buf muxIn);;;
       let* muxIn := deref p in
       let* length := recvLen (writeLenChan muxIn) in
       let* muxIn := deref p in
       if negb (length =? len (buf muxIn)) then ret true
       else assign p (fun m => setBuf m [] 0);;; ret false
     else ret false) in
  if (short : bool) then ret (Some ErrShortWrite)
  else
    let* muxIn := deref p in
    closeChan (writeChan muxIn);;;
    let* muxIn := deref p in
    closeChan (writeLenChan muxIn);;;
    ret None.

(** The little-endian [uint32] at the head of [b], as an [int]. *)
Definition declaredSize (b0 b1 b2 b3 : Byte.byte) : Z :=
  Z.lor (Z.lor (Z.lor (Z.shiftl (byteZ b0) 0) (Z.shiftl (byteZ b1) 8))
           (Z.shiftl (byteZ b2) 16))
    (Z.shiftl (byteZ b3) 24).

Definition MuxIn_Write (p : ptr) (buf_ : bytes) : M (Z * option Error) :=
  let* b0 := at_ buf_ 0 in
  let* b1 := at_ buf_ 1 in
  let* b2 := at_ buf_ 2 in
  let* b3 := at_ buf_ 3 in
  let size := declaredSize b0 b1 b2 b3 in
  if len buf_ <? size then panic CorruptBSON
  else
    let* last := at_ buf_ (size - 1) in
    if negb (byteZ last =? 0) then panic CorruptBSON
    else if bufferWrites then
      let* muxIn := deref p in
      let* short :=
        (if len (buf muxIn) + len buf_ >? bufCap muxIn then
           sendBytes (writeChan muxIn) (buf muxIn);;;
           let* muxIn := deref p in
           let* length := recvLen (writeLenChan muxIn) in
           let* muxIn := deref p in
           if negb (length =? len (buf muxIn)) then ret true
           else assign p (fun m => setBuf m [] (bufCap m));;; ret false
         else ret false) in
      if (short : bool) then ret (0, Some ErrShortWrite)
      else assign p (fun m => append_ m buf_);;; ret (len buf_, None)
    else
      let* muxIn := deref p in
      sendBytes (writeChan muxIn) buf_;;;
      let* muxIn := deref p in
      let* length := recvLen (writeLenChan muxIn) in
      if negb (length =? len buf_) then ret (0, Some ErrShortWrite)
      else ret (len buf_, None).

(** *** Whole executions *)

(** What the goroutines around the multiplexer do, one step at a time:
    the three calls of a producer, the owner's [close(mux.Control)], and
    [reflect.Select] picking a case whose channel has been closed. *)
Inductive Op : Type :=
| OpOpen (p : ptr)
| OpWrite (p : ptr) (b : bytes)
| OpClose (p : ptr)
| OpCloseControl
| OpSelectEOF (index : nat).

Definition selectEOF (index : nat) (w : World) : World :=
  match selectCases (mux w) !! index with
  | Some (Some c) =>
      if isClosed w c && selecting w then Run_turn index VZero false w
      else w
  | _ => w
  end.

Definition step (op : Op) (w : World) : World :=
  match op with
  | OpOpen p => fst (MuxIn_Open p w)
  | OpWrite p b => fst (MuxIn_Write p b w)
  | OpClose p => fst (MuxIn_Close p w)
  | OpCloseControl => fst (closeChan (Some (Control (mux w))) w)
  | OpSelectEOF index => selectEOF index w
  end.

Definition exec (ops : list Op) (w : World) : World :=
  fold_left (fun w op => step op w) ops w.

(** The world once [go mux.Run()] has been started on a new multiplexer,
    with one unopened handle per intent. *)
Definition NewWorld (out : W) (its : list intents.Intent) : World :=
  {| heap := zeroMuxIn <$> its; chans := [false; false];
     mux := NewMultiplexer out; running := Running; ack := None;
     history := [] |}.


(** *** What the statements below speak about *)

(** The handshake of one flush: send the buffer, receive the length. *)
Definition handshake (p : ptr) : M Z :=
  let* muxIn := deref p in
  sendBytes (writeChan muxIn) (buf muxIn);;;
  let* muxIn := deref p in
  recvLen (writeLenChan muxIn).

(** The structural preconditions of [Write]: four bytes of size, a
    declared size of at least one and at most [len(b)], and a null byte
    at [b[size-1]]. *)
Definition framed (b : bytes) : bool :=
  match b with
  | b0 :: b1 :: b2 :: b3 :: _ =>
      let size := declaredSize b0 b1 b2 b3 in
      (1 <=? size) && (size <=? len b)
      && match index b (size - 1) with
         | Some x => byteZ x =? 0
         | None => false
         end
  | _ => false
  end.

(** The payloads a handle has had received since it was last opened. *)
Definition deliveredStep (p : ptr) (acc : list bytes) (e : Event)
    : list bytes :=
  match e with
  | EvOpen q => if Nat.eqb p q then [] else acc
  | EvData q b => if Nat.eqb p q then acc ++ [b] else acc
  | EvEOF _ _ => acc
  end.

Definition delivered (p : ptr) (hist : list Event) : list bytes :=
  fold_left (deliveredStep p) hist [].

(** All the payloads received from a handle in a stretch of history. *)
Definition payloadsOf (p : ptr) (hist : list Event) : list bytes :=
  flat_map (fun e => match e with
                     | EvData q b => if Nat.eqb p q then [b] else []
                     | _ => []
                     end) hist.

(** Every digest is the checksum of what its handle has delivered, and
    every eof header recorded so far carries the checksum of what its
    handle had delivered by then. *)
Definition digestsAgree (w : World) : Prop :=
  forall p in_ d,
    heap w !! p = Some in_ -> hash in_ = Some d ->
    d = crc64.Checksum (concat (delivered p (history w))).

Definition eofHeadersAgree (hist : list Event) : Prop :=
  forall pre p hdr post,
    hist = pre ++ EvEOF p hdr :: post ->
    CRC hdr = int64 (crc64.Checksum (concat (delivered p pre))).

Definition Inv (w : World) : Prop :=
  digestsAgree w /\ eofHeadersAgree (history w).

(** The atomic changes the multiplexer makes to a world, closed under
    sequencing. *)
Inductive muxStep : World -> World -> Prop :=
| ms_refl w : muxStep w w
| ms_trans w1 w2 w3 : muxStep w1 w2 -> muxStep w2 w3 -> muxStep w1 w3
| ms_mux w m : muxStep w (setMux w m)
| ms_ack w a : muxStep w (setAck w a)
| ms_running w r : muxStep w (setRunning w r)
| ms_data w p in_ d b :
    heap w !! p = Some in_ -> hash in_ = Some d ->
    muxStep w
      (record
         (setHeap w (<[p := setHash in_ (Some (crc64.Write d b))]> (heap w)))
         (EvData p b))
| ms_eof w p in_ d :
    heap w !! p = Some in_ -> hash in_ = Some d ->
    muxStep w (record w (EvEOF p (eofHeaderOf in_ d))).

(** The same for the whole system: producers also make and close
    channels, assign to the fields of their handle, and renew its
    digest. *)
Inductive sysStep : World -> World -> Prop :=
| ss_refl w : sysStep w w
| ss_trans w1 w2 w3 : sysStep w1 w2 -> sysStep w2 w3 -> sysStep w1 w3
| ss_mux w w' : muxStep w w' -> sysStep w w'
| ss_chans w c : sysStep w (setChans w c)
| ss_assign w p m m' :
    heap w !! p = Some m -> hash m' = hash m ->
    sysStep w (setHeap w (<[p := m']> (heap w)))
| ss_open w p m :
    heap w !! p = Some m ->
    sysStep w
      (record (setHeap w (<[p := setHash m (Some crc64.New)]> (heap w)))
         (EvOpen p)).

(** What a turn for a received buffer does before it writes the record:
    the digest is fed and the namespace is changed if need be. *)
Definition uptoRecord (p : ptr) (b : bytes) : M unit :=
  hashWrite p b;;;
  let* in_ := deref p in
  formatBody_header in_.

(** A step that leaves [running] as it is. *)
Definition sameRunning (w w' : World) : Prop := running w' = running w.

(** A step that leaves every channel as it is. *)
Definition sameChans (w w' : World) : Prop := chans w' = chans w.

(** A computation that never ends up waiting for ever. *)
Definition neverBlocks {A : Type} (m : M A) : Prop :=
  forall w, snd (m w) <> Blocked.

(** A computation whose every run is related to its start by [R]. *)
Definition keeps (R : World -> World -> Prop) {A : Type} (m : M A) : Prop :=
  forall w, R w (fst (m w)).

(** What body framing writes before the record, for the namespace [ns]
    of the handle, the current namespace [cur] and the marshalled open
    header [oh]. *)
Definition openingOf (cur ns : string) (oh : bytes) : bytes :=
  if (ns =? cur)%string then []
  else (if (cur =? EmptyString)%string then [] else terminatorBytes) ++ oh.

(** The world after [Open] on the handle at [p], whose intent is [it]:
    two new channels, an empty buffer of capacity [MaxBSONSize], a new
    digest, and the handle entered in both slices of the multiplexer. *)
Definition opened (w : World) (p : ptr) (it : intents.Intent) : World :=
  {| heap :=
       <[p := {| writeChan := Some (length (chans w));
                 writeLenChan := Some (S (length (chans w)));
                 buf := []; bufCap := MaxBSONSize;
                 hash := Some crc64.New; Intent := it |}]> (heap w);
     chans := chans w ++ [false; false];
     mux := setCases (mux w) (ins (mux w) ++ [Some p])
              (selectCases (mux w) ++ [Some (length (chans w))]);
     running := running w;
     ack := ack w;
     history := history w ++ [EvOpen p] |}.

(** Channel identifiers in use are below the next one to be made, and
    the two slices of the multiplexer go in step. *)
Definition wellFormed (w : World) : Prop :=
  Forall (fun c => match c with
                   | Some c' => (c' < length (chans w))%nat
                   | None => True
                   end) (selectCases (mux w))
  /\ length (ins (mux w)) = length (selectCases (mux w))
  /\ (0 < length (selectCases (mux w)))%nat.

End Archive.

(** ** Concrete collaborators for the closed examples *)

(** A sink that keeps every call of [Write] with its answer.  The answers
    come from [script], one per call; once the script is used up every
    write is taken whole. *)
Record Recorder : Type := {
  calls : list (bytes * (Z * option Error));
  script : list (Z * option Error);
  closed : bool
}.

#[global] Instance Recorder_WriteCloser : WriteCloser Recorder := {
  wcWrite s p :=
    let r := match script s with [] => (len p, None) | r :: _ => r end in
    ({| calls := calls s ++ [(p, r)]; script := tail (script s);
        closed := closed s |}, r);
  wcClose s :=
    ({| calls := calls s; script := script s; closed := true |}, None)
}.

(** The bytes the sink has taken so far. *)
Definition written (s : Recorder) : bytes :=
  concat (map (fun c => take (Z.to_nat (fst (snd c))) (fst c)) (calls s)).

Definition emptyRecorder : Recorder :=
  {| calls := []; script := []; closed := false |}.

(** A recorder with no script left after it has taken [p] whole. *)
Definition took (s : Recorder) (p : bytes) : Recorder :=
  {| calls := calls s ++ [(p, (len p, None))]; script := [];
     closed := closed s |}.

(** The same after the writes of body framing. *)
Definition tookOpening (s : Recorder) (cur ns : string) (oh : bytes)
    : Recorder :=
  if (ns =? cur)%string then s
  else took (if (cur =? EmptyString)%string then s else took s terminatorBytes) oh.

(** The same after the writes of eof framing. *)
Definition tookClosing (s : Recorder) (cur : string) (eh : bytes) : Recorder :=
  took (took (if (cur =? EmptyString)%string then s else took s terminatorBytes) eh)
    terminatorBytes.

(** The world after a turn for a buffer [b] received from the handle at
    [p], all writes taken whole. *)
Definition afterData (w : World (W := Recorder)) (p : ptr) (in_ : MuxIn)
    (d : Z) (c : chan) (b oh : bytes) : World (W := Recorder) :=
  {| heap := <[p := setHash in_ (Some (crc64.Write d b))]> (heap w);
     chans := chans w;
     mux :=
       setCurrentNamespace
         (setOut (mux w)
            (took (tookOpening (Out (mux w)) (currentNamespace (mux w))
                     (intents.Namespace (Intent in_)) oh) b))
         (intents.Namespace (Intent in_));
     running := running w;
     ack := Some (Some c, len b);
     history := history w ++ [EvData p b] |}.

(** The world after [Close] on the handle at [p], whose channels are [c]
    and [l]: the buffer has gone through a turn for a received buffer, the
    handle has an empty buffer, both channels are closed. *)
Definition afterClose (w : World (W := Recorder)) (p : ptr) (in_ : MuxIn)
    (d : Z) (c l : chan) (oh : bytes) : World (W := Recorder) :=
  {| heap :=
       <[p := setBuf (setHash in_ (Some (crc64.Write d (buf in_)))) [] 0]>
         (heap w);
     chans := <[l := true]> (<[c := true]> (chans w));
     mux := mux (afterData w p in_ d l (buf in_) oh);
     running := running w;
     ack := None;
     history := history w ++ [EvData p (buf in_)] |}.

(** The world after the turn in which the multiplexer finds the channel
    of case [i], of the handle at [p], closed. *)
Definition afterEOF (w : World (W := Recorder)) (i : nat) (p : ptr)
    (in_ : MuxIn) (d : Z) (eh : bytes) : World (W := Recorder) :=
  {| heap := heap w;
     chans := chans w;
     mux :=
       setCases
         (setCurrentNamespace
            (setOut (mux w)
               (tookClosing (Out (mux w)) (currentNamespace (mux w)) eh))
            EmptyString)
         (remove i (ins (mux w))) (remove i (selectCases (mux w)));
     running := running w;
     ack := ack w;
     history := history w ++ [EvEOF p (eofHeaderOf in_ d)] |}.

Module bson.

Definition byteOfZ (z : Z) : Byte.byte :=
  match Byte.of_N (Z.to_N (z mod 256)) with
  | Some b => b
  | None => x00%byte
  end.

Fixpoint littleEndian (n : nat) (z : Z) : bytes :=
  match n with
  | O => []
  | S n' => byteOfZ z :: littleEndian n' (Z.shiftr z 8)
  end.

Definition cstring (s : string) : bytes :=
  list_byte_of_string s ++ [x00%byte].

Definition elemString (key val : string) : bytes :=
  [x02%byte] ++ cstring key
    ++ littleEndian 4 (len (cstring val)) ++ cstring val.

Definition elemBool (key : string) (b : bool) : bytes :=
  [x08%byte] ++ cstring key ++ [if b then x01%byte else x00%byte].

Definition elemInt64 (key : string) (z : Z) : bytes :=
  [x12%byte] ++ cstring key ++ littleEndian 8 z.

Definition document (elems : bytes) : bytes :=
  littleEndian 4 (len elems + 5) ++ elems ++ [x00%byte].

(** Modelled from the spec: the framing codec [bson.Marshal] and the
    field tags of [NamespaceHeader] lie outside the sources at hand.  A
    document is its little-endian size, its typed key/value pairs and a
    null byte; the open header is [{db, c}], the eof header
    [{db, c, eof: true, crc}], absent fields are omitted. *)
Definition Marshal (h : NamespaceHeader) : Error + bytes :=
  inr (document
         (elemString "db" (Database h) ++ elemString "c" (Collection h)
          ++ (if EOF h
              then elemBool "eof" true ++ elemInt64 "crc" (CRC h)
              else []))).

End bson.

(** The collaborators of the examples: the codec above, a buffer of
    [maxSize] bytes, and a runtime that reallocates to the exact length. *)
Definition exampleExternals (maxSize : Z) : Externals :=
  {| MaxBSONSize := maxSize; Marshal := bson.Marshal;
     growslice := fun _ n => n |}.

Definition intent_d_c : intents.Intent :=
  {| intents.DB := "d"; intents.C := "c" |}.

Definition intent_e_f : intents.Intent :=
  {| intents.DB := "e"; intents.C := "f" |}.

(** An empty BSON document, the shortest record there is. *)
Definition rec5 : bytes := [x05; x00; x00; x00; x00]%byte.

(** A buffer of eight bytes, so that the second record forces a flush. *)
Definition ext8 : Externals := exampleExternals 8.

(** The world of a new multiplexer on an empty recorder. *)
Definition world0 : World (W := Recorder) :=
  NewWorld emptyRecorder [intent_d_c; intent_e_f].

(** The same on a sink that takes the open header whole and then, with no
    error, only four bytes of the first record. *)
Definition shortSink : Recorder :=
  {| calls := []; script := [(24, None); (4, None)]; closed := false |}.

Definition worldShort : World (W := Recorder) :=
  NewWorld shortSink [intent_d_c; intent_e_f].

(** The bytes of a header under the codec of the examples. *)
Definition headerBytes (h : NamespaceHeader) : bytes :=
  match bson.Marshal h with
  | inr b => b
  | inl _ => []
  end.

Definition openHeader_d_c : NamespaceHeader :=
  {| Database := "d"; Collection := "c"; EOF := false; CRC := 0 |}.

Definition eofHeader_d_c (crc : Z) : NamespaceHeader :=
  {| Database := "d"; Collection := "c"; EOF := true; CRC := crc |}.

Definition openHeader_e_f : NamespaceHeader :=
  {| Database := "e"; Collection := "f"; EOF := false; CRC := 0 |}.

(** The first handle has been opened. *)
Definition worldOpened : World (W := Recorder) :=
  exec (Ext := ext8) [OpOpen 0%nat] world0.

Definition handleOpened : MuxIn :=
  {| writeChan := Some 2%nat; writeLenChan := Some 3%nat; buf := [];
     bufCap := 8; hash := Some 0; Intent := intent_d_c |}.

(** It has one record in its buffer. *)
Definition worldBuffered : World (W := Recorder) :=
  exec (Ext := ext8) [OpOpen 0%nat; OpWrite 0%nat rec5] world0.

Definition handleBuffered : MuxIn :=
  {| writeChan := Some 2%nat; writeLenChan := Some 3%nat; buf := rec5;
     bufCap := 8; hash := Some 0; Intent := intent_d_c |}.

(** The same on the sink that cuts the first record short. *)
Definition worldShortBuffered : World (W := Recorder) :=
  exec (Ext := ext8) [OpOpen 0%nat; OpWrite 0%nat rec5] worldShort.

(** Both handles are open, the first has had a record written to the
    sink, so that its namespace is the current one. *)
Definition worldTwo : World (W := Recorder) :=
  exec (Ext := ext8)
    [OpOpen 0%nat; OpOpen 1%nat; OpWrite 0%nat rec5; OpWrite 0%nat rec5]
    world0.

(** A handle is opened and closed, and the multiplexer finds its channel
    closed. *)
Definition worldOpenClose : World (W := Recorder) :=
  exec (Ext := ext8) [OpOpen 0%nat; OpClose 0%nat; OpSelectEOF 1%nat] world0.

(** The control channel is closed while the first handle is open. *)
Definition worldDangling : World (W := Recorder) :=
  exec (Ext := ext8) [OpOpen 0%nat; OpCloseControl; OpSelectEOF 0%nat] world0.

(** ** The metadata writer *)

Module mongodump.

(** A JSON text, as a tree. *)
Inductive JSON : Type :=
| JNull
| JString (s : string)
| JNumber (z : Z)
| JArray (items : list JSON)
| JObject (fields : list (string * JSON)).

(** A Go [interface{}] that holds a value ready for [json.Marshal];
    [None] is the nil interface. *)
Abbreviation iface := (option JSON) (only parsing).

(** A Go slice: nil, or a list that may be empty. *)
Inductive slice (A : Type) : Type :=
| nilSlice
| Slice (l : list A).
Arguments nilSlice {A}.
Arguments Slice {A} l.

(** [append(s, x)]. *)
Definition append {A : Type} (s : slice A) (x : A) : slice A :=
  match s with
  | nilSlice => Slice [x]
  | Slice l => Slice (l ++ [x])
  end.

(** A BSON value; [bson.D] is [BDoc]. *)
Inductive bval : Type :=
| BDoc (d : list (string * bval))
| BString (s : string)
| BInt (z : Z).

Record Metadata : Type := {
  Options : iface;   (* `json:"options,omitempty"` *)
  Indexes : slice iface   (* `json:"indexes"` *)
}.

Inductive DumpError : Type :=
| ErrOpenMetadata
| ErrGetSession
| ErrGetCollectionOptions
| ErrConvertOptions
| ErrInvalidOptions
| ErrGetIndexes
| ErrConvertIndex
| ErrIterator
| ErrWrite
| ErrFlush.

(** The two functions of [common/bsonutil] that [dumpMetadata] calls,
    declared outside the sources at hand. *)
Class BsonUtil : Type := {
  FindValueByKey : string -> list (string * bval) -> option bval;
  ConvertBSONValueToJSON : bval -> iface * bool
    (* the value and whether [err != nil] *)
}.

(** [bsonutil.MarshalD{}] in an [interface{}]: not nil, and rendered by
    its [MarshalJSON] as the empty object. *)
Definition emptyMarshalD : iface := Some (JObject []).

(** What the collaborators of one call answer: [OpenMetadata],
    [GetSession], [db.GetCollectionOptions] (an error, or the collection
    info, nil when the collection is not there), [db.GetIndexes] (an
    error, or the documents the iterator yields and its final [Err()]),
    the buffered writer. *)
Record Env : Type := {
  openMetadataFails : bool;
  getSessionFails : bool;
  collectionInfo : option (option (list (string * bval)));
  indexDocs : option (list (list (string * bval)) * bool);
  writeFails : bool;
  flushFails : bool
}.

(** [json.Marshal] of an [interface{}]: [null] for nil. *)
Definition marshalValue (v : iface) : JSON :=
  match v with
  | None => JNull
  | Some j => j
  end.

(** [json.Marshal(meta)] of [encoding/json] (Go standard library) on the
    struct with its tags: a field tagged [omitempty] is left out when it
    has an empty value, which for an interface means nil; a nil slice is
    [null], any other slice an array. *)
Definition json_Marshal (meta : Metadata) : JSON :=
  JObject
    (match Options meta with
     | None => []
     | Some j => [("options"%string, j)]
     end
     ++ [("indexes"%string,
          match Indexes meta with
          | nilSlice => JNull
          | Slice l => JArray (map marshalValue l)
          end)]).

(** The value of the field [k] of an object. *)
Fixpoint field (k : string) (fields : list (string * JSON)) : option JSON :=
  match fields with
  | [] => None
  | (k', v) :: rest => if (k =? k')%string then Some v else field k rest
  end.

Section Dump.

Context {BU : BsonUtil}.

(** The loop over the index iterator. *)
Fixpoint appendIndexes (meta : Metadata)
    (docs : list (list (string * bval))) : Metadata + DumpError :=
  match docs with
  | [] => inl meta
  | indexOpts :: rest =>
      match ConvertBSONValueToJSON (BDoc indexOpts) with
      | (_, true) => inr ErrConvertIndex
      | (convertedIndex, false) =>
          appendIndexes
            {| Options := Options meta;
               Indexes := append (Indexes meta) convertedIndex |}
            rest
      end
  end.

(** [dumpMetadata]: the text handed to the buffered writer of the
    metadata file, if the call gets that far, and the error returned.
    With a nil error the whole text has reached the file; when [Write]
    or [Flush] fails the file may hold any part of it. *)
Definition dumpMetadata (env : Env) : option JSON * option DumpError :=
  if openMetadataFails env then (None, Some ErrOpenMetadata)
  else
    let meta := {| Options := None; Indexes := Slice [] |} in
    if getSessionFails env then (None, Some ErrGetSession)
    else
      match collectionInfo env with
      | None => (None, Some ErrGetCollectionOptions)
      | Some None => (None, None)
      | Some (Some info) =>
          let meta := {| Options := emptyMarshalD;
                         Indexes := Indexes meta |} in
          let withOptions : Metadata + DumpError :=
            match FindValueByKey "options" info with
            | Some (BDoc optsD) =>
                match ConvertBSONValueToJSON (BDoc optsD) with
                | (_, true) => inr ErrConvertOptions
                | (v, false) =>
                    inl {| Options := v; Indexes := Indexes meta |}
                end
            | Some _ => inr ErrInvalidOptions
            | None => inl meta
            end in
          match withOptions with
          | inr e => (None, Some e)
          | inl meta =>
              match indexDocs env with
              | None => (None, Some ErrGetIndexes)
              | Some (docs, iterFails) =>
                  match appendIndexes meta docs with
                  | inr e => (None, Some e)
                  | inl meta =>
                      if (iterFails : bool) then (None, Some ErrIterator)
                      else
                        let jsonBytes := json_Marshal meta in
                        if writeFails env
                        then (Some jsonBytes, Some ErrWrite)
                        else if flushFails env
                             then (Some jsonBytes, Some ErrFlush)
                             else (Some jsonBytes, None)
                  end
              end
          end
      end.

End Dump.

(** Collaborators for the closed examples: the first pair with the key,
    and a conversion that keeps strings and numbers and turns documents
    into objects one level deep. *)
Fixpoint findValueByKey (k : string) (d : list (string * bval))
    : option bval :=
  match d with
  | [] => None
  | (k', v) :: rest =>
      if (k =? k')%string then Some v else findValueByKey k rest
  end.

Definition convertLeaf (v : bval) : JSON :=
  match v with
  | BDoc _ => JObject []
  | BString s => JString s
  | BInt z => JNumber z
  end.

Definition convert (v : bval) : iface * bool :=
  match v with
  | BDoc d => (Some (JObject (map (fun kv => (fst kv, convertLeaf (snd kv))) d)),
               false)
  | other => (Some (convertLeaf other), false)
  end.

Definition exampleBsonUtil : BsonUtil :=
  {| FindValueByKey := findValueByKey; ConvertBSONValueToJSON := convert |}.

(** A collection that is there, with no options and no indexes. *)
Definition plainCollection : Env :=
  {| openMetadataFails := false; getSessionFails := false;
     collectionInfo := Some (Some [("name"%string, BString "c")]);
     indexDocs := Some ([], false);
     writeFails := false; flushFails := false |}.

End mongodump.

(** ** More to state about the multiplexer *)

Section ArchiveMore.

Context {Ext : Externals} {W : Type} {WC : WriteCloser W}.

(** A step that leaves the two slices of the multiplexer as they are. *)
Definition sameCases (w w' : World (W := W)) : Prop :=
  ins (mux w') = ins (mux w)
  /\ selectCases (mux w') = selectCases (mux w)
  /\ Control (mux w') = Control (mux w).

(** A step that leaves the pending acknowledgement as it is. *)
Definition sameAck (w w' : World (W := W)) : Prop := ack w' = ack w.

(** The two slices have one length, and their first entries are the nil
    handle and the control channel. *)
Definition inStep (w : World (W := W)) : Prop :=
  length (ins (mux w)) = length (selectCases (mux w))
  /\ ins (mux w) !! 0%nat = Some None
  /\ selectCases (mux w) !! 0%nat = Some (Some (Control (mux w))).

(** A step that keeps the slices in step. *)
Definition keepsInStep (w w' : World (W := W)) : Prop :=
  Control (mux w') = Control (mux w) /\ (inStep w -> inStep w').

(** A step that cannot move a multiplexer whose [Run] is over. *)
Definition inert (w w' : World (W := W)) : Prop :=
  running w <> Running -> mux w' = mux w /\ running w' = running w.

(** A computation that cannot return once [Run] has ended. *)
Definition neverReturns {A : Type} (m : M (W := W) A) : Prop :=
  forall w, running w <> Running -> forall r, snd (m w) <> Ret r.

(** A computation that leaves the acknowledgement alone unless it
    returns. *)
Definition ackOnlyOnRet {A : Type} (m : M (W := W) A) : Prop :=
  forall w,
    match snd (m w) with
    | Ret _ => True
    | _ => ack (fst (m w)) = ack w
    end.

(** A step that keeps every handle, with its intent. *)
Definition handlesKept (w w' : World (W := W)) : Prop :=
  forall q m,
    heap w !! q = Some m ->
    exists m', heap w' !! q = Some m' /\ Intent m' = Intent m.

(** A step that keeps every handle with its channels, adds none, and
    leaves a digest that is there in place. *)
Definition sameHandles (w w' : World (W := W)) : Prop :=
  (forall q y,
     heap w !! q = Some y ->
     exists y',
       heap w' !! q = Some y'
       /\ writeChan y' = writeChan y /\ writeLenChan y' = writeLenChan y
       /\ (hash y <> None -> hash y' <> None))
  /\ (forall q y',
        heap w' !! q = Some y' ->
        exists y,
          heap w !! q = Some y
          /\ writeChan y = writeChan y' /\ writeLenChan y = writeLenChan y').

(** What [Run] relies on so as not to panic.  The control channel is
    channel 0 and heads the select cases; the two slices go in step; every
    data case holds a handle that is there, with a digest, and whose
    channel is one of the world and can only be held by that handle; a
    handle that has channels holds an even one of at least 2 and the next
    one, both of the world; its length channel is closed only if its
    write channel is; channels are made in pairs; and [Run] has not
    panicked. *)
Record Safe (w : World (W := W)) : Prop := {
  safe_control : Control (mux w) = 0%nat;
  safe_len : length (ins (mux w)) = length (selectCases (mux w));
  safe_head : selectCases (mux w) !! 0%nat = Some (Some 0%nat);
  safe_cases :
    forall i e sc,
      i <> 0%nat ->
      ins (mux w) !! i = Some e -> selectCases (mux w) !! i = Some sc ->
      exists p c m,
        e = Some p /\ sc = Some c
        /\ heap w !! p = Some m /\ hash m <> None
        /\ (c < length (chans w))%nat
        /\ (forall q mq,
              heap w !! q = Some mq -> writeChan mq = Some c -> q = p);
  safe_handles :
    forall q mq c,
      heap w !! q = Some mq -> writeChan mq = Some c ->
      Nat.even c = true /\ (2 <= c)%nat /\ (S c < length (chans w))%nat
      /\ writeLenChan mq = Some (S c);
  safe_acks :
    forall q mq c,
      heap w !! q = Some mq -> writeChan mq = Some c ->
      isClosed w (S c) = true -> isClosed w c = true;
  safe_chans :
    Nat.even (length (chans w)) = true /\ (2 <= length (chans w))%nat;
  safe_running : running w <> Crashed
}.

Definition keepsSafe (w w' : World (W := W)) : Prop := Safe w -> Safe w'.

(** The world in which [Open] on the handle at [p], of intent [it], sends
    the handle on the control channel: two new channels, an empty buffer,
    a new digest. *)
Definition prepared (w : World (W := W)) (p : ptr) (it : intents.Intent)
    : World (W := W) :=
  {| heap :=
       <[p := {| writeChan := Some (length (chans w));
                 writeLenChan := Some (S (length (chans w)));
                 buf := []; bufCap := MaxBSONSize;
                 hash := Some crc64.New; Intent := it |}]> (heap w);
     chans := chans w ++ [false; false];
     mux := mux w;
     running := running w;
     ack := ack w;
     history := history w ++ [EvOpen p] |}.

(** A data case that nobody can close any more: its channel is open and
    no handle holds it.  With such a case among the select cases [Run]
    cannot have ended with nil. *)
Definition Orphan (c : chan) (w : World (W := W)) : Prop :=
  (exists i, i <> 0%nat /\ selectCases (mux w) !! i = Some (Some c))
  /\ Nat.even c = true /\ (2 <= c)%nat /\ (c < length (chans w))%nat
  /\ isClosed w c = false
  /\ (forall q mq, heap w !! q = Some mq -> writeChan mq <> Some c)
  /\ running w <> Returned None.

Definition keepsOrphan (c : chan) (w w' : World (W := W)) : Prop :=
  Orphan c w -> Orphan c w'.

(** A step that adds no select case. *)
Definition notMore (w w' : World (W := W)) : Prop :=
  (length (selectCases (mux w')) <= length (selectCases (mux w)))%nat.

(** [reflect.Select] (Go standard library) takes at most 65536 cases and
    panics when it is given more; [Run_turn] stands for the selects that
    return. *)
Definition maxSelectCases : Z := 65536.

Definition selectPanics (w : World (W := W)) : bool :=
  maxSelectCases <? len (selectCases (mux w)).

(** The calls of [Open] among the steps of an execution. *)
Definition opens (ops : list Op) : nat :=
  length (List.filter (fun op => match op with
                                 | OpOpen _ => true
                                 | _ => false
                                 end) ops).

(** A computation that never panics. *)
Definition neverPanics {A : Type} (m : M (W := W) A) : Prop :=
  forall w k, snd (m w) <> Panic k.

(** A computation all of whose returns satisfy [Q]. *)
Definition returnsOnly {A : Type} (Q : A -> Prop) (m : M (W := W) A) : Prop :=
  forall w w' a, m w = (w', Ret a) -> Q a.

End ArchiveMore.


(** ** A stream in progress on the recording sink *)

Section Streams.

Context {Ext : Externals}.

(** The handle at [p], opened in the world [w0] with the intent of [m],
    has been given [sent] so far: part of it, [flushed], has gone through
    the multiplexer, the rest waits in the buffer.  The handle holds the
    two channels made for it, the last two of the world and both open,
    and the digest of what was flushed; the multiplexer is selecting, holds the handle in the case
    added for it, and its sink has taken, after what it held in [w0],
    the opening of the namespace (if it has been written yet) and what was
    flushed. *)
Definition streaming (w0 : World (W := Recorder)) (p : ptr) (m : MuxIn)
    (oh : bytes) (sent : bytes) (w : World (W := Recorder)) : Prop :=
  let c := length (chans w0) in
  let i := length (selectCases (mux w0)) in
  let ns := intents.Namespace (Intent m) in
  exists m' flushed,
    heap w !! p = Some m'
    /\ writeChan m' = Some c /\ writeLenChan m' = Some (S c)
    /\ Intent m' = Intent m
    /\ hash m' = Some (crc64.Checksum flushed)
    /\ flushed ++ buf m' = sent
    /\ chans w = chans w0 ++ [false; false]
    /\ Control (mux w) = Control (mux w0)
    /\ selecting w = true
    /\ findCase c (selectCases (mux w)) = Some i
    /\ ins (mux w) = ins (mux w0) ++ [Some p]
    /\ selectCases (mux w) = selectCases (mux w0) ++ [Some c]
    /\ script (Out (mux w)) = []
    /\ closed (Out (mux w)) = closed (Out (mux w0))
    /\ written (Out (mux w)) ++ openingOf (currentNamespace (mux w)) ns oh
       = written (Out (mux w0))
           ++ openingOf (currentNamespace (mux w0)) ns oh ++ flushed.

(** What one producer does for a whole stream: it opens the handle at
    [fst s], writes the records [snd s] and closes it; then the
    multiplexer finds the channel of case [i] closed. *)
Definition streamOps (i : nat) (s : ptr * list bytes) : list Op :=
  OpOpen (fst s) :: map (OpWrite (fst s)) (snd s)
  ++ [OpClose (fst s); OpSelectEOF i].

Definition bytesOf (r : Error + bytes) : bytes :=
  match r with
  | inr b => b
  | inl _ => []
  end.

Definition marshals (h : NamespaceHeader) : bool :=
  match Marshal h with
  | inr _ => true
  | inl _ => false
  end.

(** The bytes of a stream in the archive: the open header, the records,
    a terminator, the eof header with the checksum of the records, a
    terminator. *)
Definition streamBytes (its : list intents.Intent) (s : ptr * list bytes)
    : bytes :=
  match its !! fst s with
  | Some it =>
      bytesOf (Marshal (openHeaderOf (zeroMuxIn it)))
      ++ concat (snd s) ++ terminatorBytes
      ++ bytesOf (Marshal (eofHeaderOf (zeroMuxIn it)
                             (crc64.Checksum (concat (snd s)))))
      ++ terminatorBytes
  | None => []
  end.

(** A stream that can be written: its handle is there, its records are
    well framed, and the codec takes its two headers. *)
Definition streamable (its : list intents.Intent) (s : ptr * list bytes)
    : bool :=
  match its !! fst s with
  | Some it =>
      forallb framed (snd s)
      && marshals (openHeaderOf (zeroMuxIn it))
      && marshals (eofHeaderOf (zeroMuxIn it)
                     (crc64.Checksum (concat (snd s))))
  | None => false
  end.

(** The multiplexer between two streams: selecting, with the control
    case alone, no current namespace, a sink that takes every write
    whole, and every handle in its place. *)
Definition idle (its : list intents.Intent) (w : World (W := Recorder))
    : Prop :=
  selecting w = true
  /\ Control (mux w) = 0%nat
  /\ selectCases (mux w) = [Some 0%nat]
  /\ ins (mux w) = [None]
  /\ chans w !! 0%nat = Some false
  /\ script (Out (mux w)) = []
  /\ currentNamespace (mux w) = EmptyString
  /\ forall p it,
       its !! p = Some it -> exists m, heap w !! p = Some m /\ Intent m = it.

(** The sink is open, or [Run] has closed it and returned at the end of
    the control channel. *)
Definition sinkInOrder (w : World (W := Recorder)) : Prop :=
  closed (Out (mux w)) = false
  \/ (closed (Out (mux w)) = true
      /\ (running w = Returned None
          \/ exists n, running w = Returned (Some (ErrMuxEnding n)))).

Definition keepsSinkInOrder (w w' : World (W := Recorder)) : Prop :=
  sinkInOrder w -> sinkInOrder w'.

Definition sameClosed (w w' : World (W := Recorder)) : Prop :=
  closed (Out (mux w')) = closed (Out (mux w)).

(** The byte strings handed to [Write], oldest first, whatever the sink
    took of each. *)
Definition passed (s : Recorder) : list bytes := map fst (calls s).

(** What eof framing and body framing hand to the sink before the
    header, when [cur] is the current namespace. *)
Definition closingCalls (cur : string) : list bytes :=
  if (cur =? EmptyString)%string then [] else [terminatorBytes].

(** What body framing hands to the sink before a record of the handle
    of intent [it]. *)
Definition openingCalls (cur : string) (it : intents.Intent) : list bytes :=
  if (intents.Namespace it =? cur)%string then []
  else closingCalls cur ++ [bytesOf (Marshal (openHeaderOf (zeroMuxIn it)))].

(** The archive as it follows from the turns taken: the turns so far,
    the current namespace, and the byte strings handed to the sink. *)
Record Layout : Type := {
  seen : list Event;
  current : string;
  handed : list bytes
}.

(** One more turn.  A buffer received from the handle at [p] is handed
    on after the opening of its namespace, if that is not the current
    one.  A closed channel of the handle at [p] gives a terminator if a
    namespace is current, the eof header of the intent of [p] whose crc
    is the checksum of all the buffers received from [p] since it was
    last opened, and a terminator. *)
Definition layoutStep (its : list intents.Intent) (l : Layout) (e : Event)
    : Layout :=
  match e with
  | EvOpen _ =>
      {| seen := seen l ++ [e]; current := current l; handed := handed l |}
  | EvData p b =>
      match its !! p with
      | Some it =>
          {| seen := seen l ++ [e];
             current := intents.Namespace it;
             handed := handed l ++ openingCalls (current l) it ++ [b] |}
      | None =>
          {| seen := seen l ++ [e]; current := current l;
             handed := handed l |}
      end
  | EvEOF p _ =>
      match its !! p with
      | Some it =>
          {| seen := seen l ++ [e];
             current := EmptyString;
             handed :=
               handed l ++ closingCalls (current l)
               ++ [bytesOf
                     (Marshal
                        {| Database := intents.DB it;
                           Collection := intents.C it;
                           EOF := true;
                           CRC := int64
                                    (crc64.Checksum
                                       (concat (delivered p (seen l)))) |});
                   terminatorBytes] |}
      | None =>
          {| seen := seen l ++ [e]; current := current l;
             handed := handed l |}
      end
  end.

Definition layoutOf (its : list intents.Intent) (hist : list Event)
    : Layout :=
  fold_left (layoutStep its) hist
    {| seen := []; current := EmptyString; handed := [] |}.

(** [Run] is in its loop or has returned nil: no turn has failed. *)
Definition unfailed (w : World (W := Recorder)) : Prop :=
  running w = Running \/ running w = Returned None.

(** What holds of every world reached from a new multiplexer on the
    sink [out] with the handles of [its]: the digests and the eof headers
    agree with what was received, every handle keeps its intent, and
    as long as no turn has failed the sink has been handed the layout of
    the turns taken, the current namespace being that of the layout. *)
Definition Logged (its : list intents.Intent) (out : Recorder)
    (w : World (W := Recorder)) : Prop :=
  Inv w
  /\ (forall p m, heap w !! p = Some m -> its !! p = Some (Intent m))
  /\ (unfailed w ->
      passed (Out (mux w)) = passed out ++ handed (layoutOf its (history w))
      /\ currentNamespace (mux w) = current (layoutOf its (history w))).

Definition keepsLogged (its : list intents.Intent) (out : Recorder)
    (w w' : World (W := Recorder)) : Prop :=
  Logged its out w -> Logged its out w'.

(** A step of the multiplexer inside a turn that hands [X] to the sink
    and leaves the rest of what the layout depends on as it is. *)
Definition adds (X : list bytes) (w w' : World (W := Recorder)) : Prop :=
  passed (Out (mux w')) = passed (Out (mux w)) ++ X
  /\ currentNamespace (mux w') = currentNamespace (mux w)
  /\ history w' = history w
  /\ running w' = running w
  /\ heap w' = heap w.

End Streams.

(** ** The intents of a dump

    The functions of [mongodump] that decide which collections are dumped
    and where: [shouldSkipCollection], [outputPath],
    [CreateIntentForCollection], [CreateIntentsForDatabase] and
    [CreateAllIntents].  They talk to the file system, to the server and
    to the intent manager; the embedding keeps the calls they make, in
    order and with the answers, and takes the answers from outside. *)

Module prepare.

(** The implementations of [intents.file] made here.  In the source each
    holds a pointer back to the intent it is made for; an intent holds at
    most one of each, so the kind is all there is to keep. *)
Inductive fileKind : Type :=
| bsonFileFile
| metadataFileFile
| stdoutFile.

(** The fields of [intents.Intent] that these functions set; [None] is a
    nil [intents.file]. *)
Record Intent : Type := {
  DB : string;
  C : string;
  BSONPath : string;
  MetadataPath : string;
  Size : Z;
  BSONFile : option fileKind;
  MetadataFile : option fileKind
}.

Inductive Err : Type :=
| ErrOutside (what : string)
    (* an error value returned by a collaborator *)
| ErrCounting (ns : string) (e : Err)
    (* fmt.Errorf("error counting %v: %v", intent.Namespace(), err) *)
| ErrCreatingDirectory (dir : string) (e : Err)
    (* fmt.Errorf("error creating directory `%v`: %v", dbFolder, err) *)
| ErrCollectionNames (db : string) (e : Err)
    (* fmt.Errorf("error getting collection names for database `%v`: %v", ...) *)
| ErrDatabaseNames (e : Err).
    (* fmt.Errorf("error getting database names: %v", err) *)

(** A call made to the outside, with its answer. *)
Inductive Call : Type :=
| DidMkdirAll (path : string) (err : option Err)
| DidGetSession (err : option Err)
| DidSessionClose
| DidCount (db c : string) (r : Err + Z)
| DidCollectionNames (db : string) (r : Err + list string)
| DidDatabaseNames (r : Err + list string)
| DidPut (it : Intent).

(** What lies outside the source: [filepath.Join], the method
    [Intent.IsSystemIndexes], and the answers of [os.MkdirAll], of the
    session provider and of the server, each of which may depend on all
    the calls made before. *)
Class Outside : Type := {
  Join : list string -> string;
  IsSystemIndexes : Intent -> bool;
  MkdirAll : list Call -> string -> option Err;
  GetSession : list Call -> option Err;
  Count : list Call -> string -> string -> Err + Z;
  CollectionNames : list Call -> string -> Err + list string;
  DatabaseNames : list Call -> Err + list string
}.

Record OutputOptions : Type := {
  Out : string;
  ExcludedCollections : list string;
  ExcludedCollectionPrefixes : list string
}.

(** The fields of [MongoDump] that these functions read.  The intent
    manager and the session provider are reached through the calls. *)
Record MongoDump : Type := {
  outputOptions : OutputOptions;
  useStdout : bool
}.

(** [strings.HasPrefix(s, prefix)] (Go standard library). *)
Definition HasPrefix (s pre : string) : bool := String.prefix pre s.

(** [for _, x := range l { if f(x) { return true } }]: whether the loop
    returns. *)
Fixpoint rangeReturns {A : Type} (f : A -> bool) (l : list A) : bool :=
  match l with
  | [] => false
  | x :: rest => if f x then true else rangeReturns f rest
  end.

(** [intent.Namespace()]. *)
Definition Namespace (it : Intent) : string :=
  intents.Namespace {| intents.DB := DB it; intents.C := C it |}.

(** The net number of sessions a stretch of calls has left open: one up
    for each [GetSession] that succeeded, one down for each [Close]. *)
Definition sessionWeight (c : Call) : Z :=
  match c with
  | DidGetSession None => 1
  | DidSessionClose => -1
  | _ => 0
  end.

Definition openSessions (tr : list Call) : Z :=
  fold_right (fun c n => sessionWeight c + n) 0 tr.

(** The intents handed to [manager.Put], oldest first. *)
Definition putsOf (tr : list Call) : list Intent :=
  flat_map (fun c => match c with DidPut it => [it] | _ => [] end) tr.

Section Prepare.

Context {O : Outside}.
Variable dump : MongoDump.

(** A computation over the calls made so far. *)
Definition D (A : Type) : Type := list Call -> list Call * A.

Definition ret {A : Type} (a : A) : D A := fun tr => (tr, a).

Definition bind {A B : Type} (m : D A) (k : A -> D B) : D B :=
  fun tr => let (tr', a) := m tr in k a tr'.

Notation "'let*' x ':=' m 'in' k" := (bind m (fun x => k))
  (at level 10, x pattern, m at level 100, k at level 200).
Notation "m ';;;' k" := (bind m (fun _ => k))
  (at level 100, k at level 200, right associativity).

Definition os_MkdirAll (path : string) : D (option Err) :=
  fun tr => let r := MkdirAll tr path in (tr ++ [DidMkdirAll path r], r).

Definition sessionProvider_GetSession : D (option Err) :=
  fun tr => let r := GetSession tr in (tr ++ [DidGetSession r], r).

Definition session_Close : D unit :=
  fun tr => (tr ++ [DidSessionClose], tt).

Definition session_Count (db c : string) : D (Err + Z) :=
  fun tr => let r := Count tr db c in (tr ++ [DidCount db c r], r).

Definition sessionProvider_CollectionNames (db : string)
    : D (Err + list string) :=
  fun tr =>
    let r := CollectionNames tr db in (tr ++ [DidCollectionNames db r], r).

Definition sessionProvider_DatabaseNames : D (Err + list string) :=
  fun tr => let r := DatabaseNames tr in (tr ++ [DidDatabaseNames r], r).

Definition manager_Put (it : Intent) : D unit :=
  fun tr => (tr ++ [DidPut it], tt).

Definition shouldSkipCollection (colName : string) : bool :=
  if rangeReturns (fun excludedCollection => (colName =? excludedCollection)%string)
       (ExcludedCollections (outputOptions dump))
  then true
  else if rangeReturns (fun excludedCollectionPrefix =>
                          HasPrefix colName excludedCollectionPrefix)
            (ExcludedCollectionPrefixes (outputOptions dump))
  then true
  else false.

Definition outputPath (dbName colName : string) : string :=
  Join [Out (outputOptions dump); dbName; colName].

(** The intent as it stands at [dump.manager.Put], but for its size. *)
Definition intentFor (dbName colName : string) : Intent :=
  let intent :=
    {| DB := dbName; C := colName;
       BSONPath := outputPath dbName (colName ++ ".bson");
       MetadataPath := EmptyString; Size := 0;
       BSONFile := Some bsonFileFile; MetadataFile := None |} in
  let intent :=
    if negb (IsSystemIndexes intent) then
      {| DB := DB intent; C := C intent; BSONPath := BSONPath intent;
         MetadataPath := outputPath dbName (colName ++ ".metadata.json");
         Size := Size intent; BSONFile := BSONFile intent;
         MetadataFile := Some metadataFileFile |}
    else intent in
  if useStdout dump then
    {| DB := DB intent; C := C intent; BSONPath := BSONPath intent;
       MetadataPath := MetadataPath intent; Size := Size intent;
       BSONFile := Some stdoutFile; MetadataFile := Some stdoutFile |}
  else intent.

Definition setSize (intent : Intent) (n : Z) : Intent :=
  {| DB := DB intent; C := C intent; BSONPath := BSONPath intent;
     MetadataPath := MetadataPath intent; Size := n;
     BSONFile := BSONFile intent; MetadataFile := MetadataFile intent |}.

Definition CreateIntentForCollection (dbName colName : string)
    : D (option Err) :=
  if shouldSkipCollection colName then ret None
  else
    let outDir := Join [Out (outputOptions dump); dbName] in
    let* err := os_MkdirAll outDir in
    match err with
    | Some e => ret (Some e)
    | None =>
        let intent := intentFor dbName colName in
        let* err := sessionProvider_GetSession in
        match err with
        | Some e => ret (Some e)
        | None =>
            (* defer session.Close() *)
            let* r := session_Count dbName colName in
            match r with
            | inl e =>
                session_Close;;;
                ret (Some (ErrCounting (Namespace intent) e))
            | inr count =>
                manager_Put (setSize intent count);;;
                session_Close;;;
                ret None
            end
        end
    end.

(** [for _, x := range l { if err := body(x); err != nil { return err } }
    return nil]. *)
Fixpoint rangeErr {A : Type} (body : A -> D (option Err)) (l : list A)
    : D (option Err) :=
  match l with
  | [] => ret None
  | x :: rest =>
      let* err := body x in
      match err with
      | Some e => ret (Some e)
      | None => rangeErr body rest
      end
  end.

Definition CreateIntentsForDatabase (dbName : string) : D (option Err) :=
  let dbFolder := Join [Out (outputOptions dump); dbName] in
  let* err := os_MkdirAll dbFolder in
  match err with
  | Some e => ret (Some (ErrCreatingDirectory dbFolder e))
  | None =>
      let* r := sessionProvider_CollectionNames dbName in
      match r with
      | inl e => ret (Some (ErrCollectionNames dbName e))
      | inr cols =>
          rangeErr (fun colName => CreateIntentForCollection dbName colName)
            cols
      end
  end.

Definition CreateAllIntents : D (option Err) :=
  let* r := sessionProvider_DatabaseNames in
  match r with
  | inl e => ret (Some (ErrDatabaseNames e))
  | inr dbs =>
      rangeErr (fun dbName =>
                  if (dbName =? "local")%string then ret None (* continue *)
                  else CreateIntentsForDatabase dbName)
        dbs
  end.

(** What holds of every intent these functions enqueue. *)
Definition kept (it : Intent) : Prop :=
  DB it <> "local"%string
  /\ shouldSkipCollection (C it) = false
  /\ BSONPath it
     = Join [Out (outputOptions dump); DB it; (C it ++ ".bson")%string]
  /\ BSONFile it = Some (if useStdout dump then stdoutFile else bsonFileFile).

(** What holds of every stretch of calls they make: every intent
    enqueued is a kept one, no session is left open, and the directory of
    the database of an intent has been made before the intent is
    enqueued. *)
Definition tidy (delta : list Call) : Prop :=
  (forall it, In (DidPut it) delta -> kept it)
  /\ openSessions delta = 0
  /\ (forall k it,
        delta !! k = Some (DidPut it) ->
        exists j, (j < k)%nat
                  /\ delta !! j
                     = Some (DidMkdirAll
                               (Join [Out (outputOptions dump); DB it]) None)).

End Prepare.

(** Collaborators for the closed examples: paths joined with slashes, a
    server with the databases [local] and [shop], the latter with three
    collections, each of as many documents as its name has letters, and
    nothing that fails. *)
Definition exampleOutside : Outside :=
  {| Join := fun parts => String.concat "/" parts;
     IsSystemIndexes := fun it => (C it =? "system.indexes")%string;
     MkdirAll := fun _ _ => None;
     GetSession := fun _ => None;
     Count := fun _ _ c => inr (Z.of_nat (String.length c));
     CollectionNames := fun _ db =>
       if (db =? "shop")%string
       then inr ["orders"; "tmp_a"; "system.indexes"]%string
       else inr [];
     DatabaseNames := fun _ => inr ["local"; "shop"]%string |}.

Definition exampleDump : MongoDump :=
  {| outputOptions :=
       {| Out := "dump"; ExcludedCollections := ["audit"%string];
          ExcludedCollectionPrefixes := ["tmp_"%string] |};
     useStdout := false |}.

End prepare.



(** A sink that takes the open header whole and answers the write of the
    first record with an error, and the world in which the first handle
    has one record in its buffer on that sink. *)
Definition failingSink : Recorder :=
  {| calls := []; script := [(24, None); (0, Some (ErrExternal "disk full"))];
     closed := false |}.

Definition worldFailing : World (W := Recorder) :=
  exec (Ext := ext8) [OpOpen 0%nat; OpWrite 0%nat rec5]
    (NewWorld failingSink [intent_d_c; intent_e_f]).

(** The second handle as it is in [worldTwo], open with nothing written
    to it. *)
Definition handleSecond : MuxIn :=
  {| writeChan := Some 4%nat; writeLenChan := Some 5%nat; buf := [];
     bufCap := 8; hash := Some 0; Intent := intent_e_f |}.

(** The first handle after [Open] and [Close], and the world it is in. *)
Definition handleClosed : MuxIn :=
  {| writeChan := Some 2%nat; writeLenChan := Some 3%nat; buf := [];
     bufCap := 0; hash := Some 0; Intent := intent_d_c |}.

Definition worldClosed : World (W := Recorder) :=
  exec (Ext := ext8) [OpOpen 0%nat; OpClose 0%nat] world0.

(** The first handle opened, given two records, the first of which has
    gone to the multiplexer when the second came, and closed; then its
    channel found closed. *)
Definition worldStreamed : World (W := Recorder) :=
  exec (Ext := ext8)
    [OpOpen 0%nat; OpWrite 0%nat rec5; OpWrite 0%nat rec5; OpClose 0%nat;
     OpSelectEOF 1%nat] world0.

(** The same with a second [Open] on the handle before it is closed:
    the record in its buffer is dropped, and the channel found closed is
    the one of the second [Open]. *)
Definition worldReopened : World (W := Recorder) :=
  exec (Ext := ext8)
    [OpOpen 0%nat; OpWrite 0%nat rec5; OpWrite 0%nat rec5; OpOpen 0%nat;
     OpClose 0%nat; OpSelectEOF 2%nat] world0.

(** ** Facts about the checksum *)

(** The check value of CRC-64/XZ, the parameters of Go's [crc64.ECMA]
    table, on the digits 1 to 9. *)
Example crc64_check_value :
  crc64.Checksum [x31; x32; x33; x34; x35; x36; x37; x38; x39]%byte
  = 0x995DC9BBDF1939FA.
Proof. vm_compute. reflexivity. Qed.

Lemma not64_involutive (x : Z) : crc64.not64 (crc64.not64 x) = x.
Proof.
  unfold crc64.not64.
  rewrite Z.lxor_assoc, Z.lxor_nilpotent. apply Z.lxor_0_r.
Qed.

Lemma update_app (c : Z) (tab : Z -> Z) (a b : bytes) :
  crc64.update (crc64.update c tab a) tab b = crc64.update c tab (a ++ b).
Proof.
  unfold crc64.update.
  rewrite not64_involutive, fold_left_app. reflexivity.
Qed.

Lemma Checksum_nil : crc64.Checksum [] = 0.
Proof. reflexivity. Qed.

Lemma Write_Checksum (a b : bytes) :
  crc64.Write (crc64.Checksum a) b = crc64.Checksum (a ++ b).
Proof. apply update_app. Qed.

Section ArchiveFacts.

Context {Ext : Externals} {W : Type} {WC : WriteCloser W}.
Implicit Types w : World (W := W).

Notation "'let*' x ':=' m 'in' k" := (bind m (fun x => k))
  (at level 10, x pattern, m at level 100, k at level 200).
Notation "m ';;;' k" := (bind m (fun _ => k))
  (at level 100, k at level 200, right associativity).

(** *** Sequencing *)

Section Keeps.
Variable R : World (W := W) -> World (W := W) -> Prop.
Hypothesis R_refl : forall w, R w w.
Hypothesis R_trans : forall w1 w2 w3, R w1 w2 -> R w2 w3 -> R w1 w3.

Lemma keeps_bind {A B : Type} (m : M A) (k : A -> M B) :
  keeps R m -> (forall a, keeps R (k a)) -> keeps R (bind m k).
Proof.
  intros Hm Hk w. unfold bind.
  specialize (Hm w). destruct (m w) as [w1 [a|e|pk|]]; simpl in *; auto.
  eapply R_trans; [exact Hm | apply Hk].
Qed.

Lemma keeps_ret {A : Type} (a : A) : keeps R (ret a).
Proof. intros w. apply R_refl. Qed.

Lemma keeps_throw {A : Type} (e : Error) : keeps R (throw (A := A) e).
Proof. intros w. apply R_refl. Qed.

Lemma keeps_panic {A : Type} (k : PanicKind) : keeps R (panic (A := A) k).
Proof. intros w. apply R_refl. Qed.

Lemma keeps_get : keeps R get.
Proof. intros w. apply R_refl. Qed.

Lemma keeps_deref (p : ptr) : keeps R (deref p).
Proof. intros w. unfold deref. destruct (heap w !! p); apply R_refl. Qed.

Lemma keeps_insAt (i : nat) : keeps R (insAt i).
Proof.
  intros w. unfold insAt.
  destruct (ins (mux w) !! i) as [[?|]|]; apply R_refl.
Qed.

Lemma keeps_marshal (h : NamespaceHeader) : keeps R (marshal h).
Proof. intros w. unfold marshal. destruct (Marshal h); apply R_refl. Qed.

Lemma keeps_at (b : bytes) (i : Z) : keeps R (at_ b i).
Proof. intros w. unfold at_. destruct (index b i); apply R_refl. Qed.
End Keeps.

(** Chains of binds, branches and the plain primitives, for a relation
    with its reflexivity [rf] and transitivity [tr]. *)
Ltac keeps_go rf tr :=
  repeat first
    [ solve [ auto ]
    | match goal with
      | |- keeps _ (match ?x with _ => _ end) => destruct x
      | |- keeps _ (let (_, _) := ?x in _) => destruct x
      end
    | apply (keeps_ret _ rf) | apply (keeps_throw _ rf)
    | apply (keeps_panic _ rf) | apply (keeps_get _ rf)
    | apply (keeps_deref _ rf) | apply (keeps_insAt _ rf)
    | apply (keeps_marshal _ rf) | apply (keeps_at _ rf)
    | apply (keeps_bind _ tr); [ | intros ] ].

Ltac mux_go := keeps_go (@ms_refl W) (@ms_trans W).
Ltac sys_go := keeps_go (@ss_refl W) (@ss_trans W).

(** *** The multiplexer only takes multiplexer steps *)

Lemma outWrite_mux (p : bytes) : keeps muxStep (outWrite p).
Proof.
  intros w. unfold outWrite.
  destruct (wcWrite (Out (mux w)) p) as [o r]. apply ms_mux.
Qed.

Lemma writeFraming_mux (p : bytes) : keeps muxStep (writeFraming p).
Proof.
  pose proof outWrite_mux.
  unfold writeFraming. mux_go.
Qed.

Lemma sendLen_mux (c : option chan) (n : Z) :
  keeps (W := W) muxStep (sendLen c n).
Proof.
  intros w. unfold sendLen.
  destruct c as [c'|]; [destruct (isClosed w c')|]; simpl;
    auto using ms_refl, ms_ack.
Qed.

Lemma modify_mux (f : Multiplexer -> Multiplexer) :
  keeps muxStep (modify (fun w => setMux w (f (mux w)))).
Proof. intros w. apply ms_mux. Qed.

Lemma hashWrite_mux (p : ptr) (b : bytes) :
  keeps (W := W) muxStep (hashWrite p b).
Proof.
  intros w. unfold hashWrite.
  destruct (heap w !! p) as [in_|] eqn:Hp; [|apply ms_refl].
  destruct (hash in_) as [d|] eqn:Hd; [|apply ms_refl].
  simpl. eapply ms_data; eauto.
Qed.

Lemma headerForEOF_mux (p : ptr) :
  keeps (W := W) muxStep (headerForEOF p).
Proof.
  intros w. unfold headerForEOF.
  destruct (heap w !! p) as [in_|] eqn:Hp; [|apply ms_refl].
  destruct (hash in_) as [d|] eqn:Hd; [|apply ms_refl].
  simpl. eapply ms_eof; eauto.
Qed.

Lemma formatBody_header_mux (in_ : MuxIn) :
  keeps muxStep (formatBody_header in_).
Proof.
  pose proof writeFraming_mux.
  unfold formatBody_header. mux_go.
  apply (modify_mux (fun m => setCurrentNamespace m _)).
Qed.

Lemma formatBody_record_mux (in_ : MuxIn) (b : bytes) :
  keeps muxStep (formatBody_record in_ b).
Proof.
  pose proof outWrite_mux. pose proof sendLen_mux.
  unfold formatBody_record. mux_go.
Qed.

Lemma formatBody_mux (p : ptr) (b : bytes) : keeps muxStep (formatBody p b).
Proof.
  pose proof formatBody_header_mux. pose proof formatBody_record_mux.
  unfold formatBody. mux_go.
Qed.

Lemma formatEOF_mux (i : nat) (p : ptr) : keeps muxStep (formatEOF i p).
Proof.
  pose proof writeFraming_mux. pose proof headerForEOF_mux.
  unfold formatEOF. mux_go.
Qed.

Lemma afterCall_mux w (m : M unit) (k : World -> World) :
  keeps muxStep m -> (forall w', muxStep w' (k w')) ->
  muxStep w (afterCall (m w) k).
Proof.
  intros Hm Hk. specialize (Hm w). unfold afterCall, complete.
  destruct (m w) as [w1 [a|e|pk|]]; simpl in *;
    eauto using ms_trans, ms_running.
Qed.

Lemma Run_turn_mux (index : nat) (value : Value) (notEOF : bool) w :
  muxStep w (Run_turn index value notEOF w).
Proof.
  pose proof formatEOF_mux. pose proof formatBody_mux.
  pose proof hashWrite_mux.
  unfold Run_turn, complete.
  destruct (Nat.eqb index 0).
  - destruct (negb notEOF).
    + destruct (negb _); eauto using ms_trans, ms_running, ms_mux.
    + destruct value; try apply ms_running.
      destruct (heap w !! p); auto using ms_running, ms_mux.
  - destruct (negb notEOF).
    + apply afterCall_mux; [mux_go | intros; apply ms_mux].
    + destruct value; try apply ms_running.
      apply afterCall_mux; [mux_go | intros; apply ms_refl].
Qed.

(** *** What a multiplexer step leaves alone *)

Lemma setHash_same (m : MuxIn) : setHash m (hash m) = m.
Proof. destruct m; reflexivity. Qed.

Lemma lookup_insert_heap (h : list MuxIn) (p q : ptr) (m x y : MuxIn) :
  h !! p = Some m -> <[p := x]> h !! q = Some y ->
  (q = p /\ y = x) \/ (q <> p /\ h !! q = Some y).
Proof.
  intros Hp Hq. destruct (decide (p = q)) as [->|Hne].
  - rewrite list_lookup_insert_eq in Hq by (eapply lookup_lt_Some; eauto).
    left. split; congruence.
  - rewrite list_lookup_insert_ne in Hq by assumption. right. auto.
Qed.

Lemma muxStep_chans w w' : muxStep w w' -> chans w' = chans w.
Proof. induction 1; simpl; congruence. Qed.

Lemma muxStep_heap w w' :
  muxStep w w' ->
  forall q y, heap w !! q = Some y ->
              exists h, heap w' !! q = Some (setHash y h).
Proof.
  induction 1; intros q y Hq; simpl;
    try (exists (hash y); rewrite setHash_same; exact Hq).
  - destruct (IHmuxStep1 q y Hq) as [h1 H1].
    destruct (IHmuxStep2 q _ H1) as [h2 H2].
    exists h2. exact H2.
  - destruct (decide (p = q)) as [->|Hne].
    + rewrite list_lookup_insert_eq by (eapply lookup_lt_Some; eauto).
      assert (in_ = y) as -> by congruence. eexists. reflexivity.
    + rewrite list_lookup_insert_ne by assumption.
      exists (hash y). rewrite setHash_same. exact Hq.
Qed.

(** *** The invariant of the digests *)

Lemma delivered_snoc (p : ptr) (hist : list Event) (e : Event) :
  delivered p (hist ++ [e]) = deliveredStep p (delivered p hist) e.
Proof. unfold delivered. rewrite fold_left_app. reflexivity. Qed.

Lemma fold_deliveredStep (p : ptr) (hist : list Event) (acc : list bytes) :
  Forall (fun e => e <> EvOpen p) hist ->
  fold_left (deliveredStep p) hist acc = acc ++ payloadsOf p hist.
Proof.
  intros H. revert acc.
  induction H as [|e hist He _ IH]; intros acc; cbn.
  - rewrite app_nil_r. reflexivity.
  - rewrite IH. destruct e as [q|q b|q h]; cbn.
    + destruct (Nat.eqb p q) eqn:E; [|reflexivity].
      apply Nat.eqb_eq in E. subst q. contradiction.
    + destruct (Nat.eqb p q); cbn; rewrite <- ?app_assoc; reflexivity.
    + reflexivity.
Qed.

(** For a handle that is not opened again, what it has delivered is all
    it has had received since its [Open]. *)
Lemma delivered_since_open (p : ptr) (before after : list Event) :
  Forall (fun e => e <> EvOpen p) after ->
  delivered p (before ++ EvOpen p :: after) = payloadsOf p after.
Proof.
  intros H. unfold delivered. rewrite fold_left_app. cbn.
  rewrite Nat.eqb_refl. apply (fold_deliveredStep p after [] H).
Qed.

Lemma eofHeadersAgree_snoc (hist : list Event) (e : Event) :
  eofHeadersAgree hist ->
  (forall p hdr, e = EvEOF p hdr ->
     CRC hdr = int64 (crc64.Checksum (concat (delivered p hist)))) ->
  eofHeadersAgree (hist ++ [e]).
Proof.
  intros Hh He pre p hdr post Heq.
  destruct post as [|x post _] using rev_ind.
  - apply app_inj_tail in Heq as [-> ->]. apply He. reflexivity.
  - change (pre ++ EvEOF p hdr :: post ++ [x])
      with (pre ++ (EvEOF p hdr :: post) ++ [x]) in Heq.
    rewrite app_assoc in Heq.
    apply app_inj_tail in Heq as [-> _].
    eapply Hh. reflexivity.
Qed.

Lemma Inv_data w p in_ d b :
  heap w !! p = Some in_ -> hash in_ = Some d -> Inv w ->
  Inv (record
         (setHeap w (<[p := setHash in_ (Some (crc64.Write d b))]> (heap w)))
         (EvData p b)).
Proof.
  intros Hp Hd [Hdig Heof]. split.
  - intros q m d' Hq Hd'. simpl in *. rewrite delivered_snoc. simpl.
    destruct (lookup_insert_heap _ _ _ _ _ _ Hp Hq) as [[-> ->]|[Hne Hq']].
    + simpl in Hd'. injection Hd' as <-.
      rewrite Nat.eqb_refl, concat_app. simpl. rewrite app_nil_r.
      rewrite (Hdig _ _ _ Hp Hd). apply Write_Checksum.
    + apply Nat.eqb_neq in Hne. rewrite Hne. eauto.
  - simpl. apply eofHeadersAgree_snoc; [assumption | discriminate].
Qed.

Lemma Inv_eof w p in_ d :
  heap w !! p = Some in_ -> hash in_ = Some d -> Inv w ->
  Inv (record w (EvEOF p (eofHeaderOf in_ d))).
Proof.
  intros Hp Hd [Hdig Heof]. split.
  - intros q m d' Hq Hd'. simpl in *. rewrite delivered_snoc. simpl. eauto.
  - simpl. apply eofHeadersAgree_snoc; [assumption|].
    intros p' hdr [= <- <-]. simpl. unfold crc64.Sum64.
    f_equal. eauto.
Qed.

Lemma Inv_open w p m :
  heap w !! p = Some m -> Inv w ->
  Inv (record (setHeap w (<[p := setHash m (Some crc64.New)]> (heap w)))
         (EvOpen p)).
Proof.
  intros Hp [Hdig Heof]. split.
  - intros q m' d' Hq Hd'. simpl in *. rewrite delivered_snoc. simpl.
    destruct (lookup_insert_heap _ _ _ _ _ _ Hp Hq) as [[-> ->]|[Hne Hq']].
    + simpl in Hd'. injection Hd' as <-. rewrite Nat.eqb_refl. reflexivity.
    + apply Nat.eqb_neq in Hne. rewrite Hne. eauto.
  - simpl. apply eofHeadersAgree_snoc; [assumption | discriminate].
Qed.

Lemma Inv_assign w p m m' :
  heap w !! p = Some m -> hash m' = hash m -> Inv w ->
  Inv (setHeap w (<[p := m']> (heap w))).
Proof.
  intros Hp Hh [Hdig Heof]. split; [|exact Heof].
  intros q x d' Hq Hd'. simpl in *.
  destruct (lookup_insert_heap _ _ _ _ _ _ Hp Hq) as [[-> ->]|[Hne Hq']].
  - rewrite Hh in Hd'. eauto.
  - eauto.
Qed.

Lemma muxStep_Inv w w' : muxStep w w' -> Inv w -> Inv w'.
Proof.
  induction 1; auto using Inv_data, Inv_eof.
Qed.

Lemma sysStep_Inv w w' : sysStep w w' -> Inv w -> Inv w'.
Proof.
  induction 1; eauto using muxStep_Inv, Inv_open, Inv_assign.
Qed.

(** *** Producers and whole executions only take system steps *)

Lemma keeps_mux_sys {A : Type} (m : M A) :
  keeps (W := W) muxStep m -> keeps sysStep m.
Proof. intros H w. apply ss_mux, H. Qed.

Lemma makeChan_sys : keeps (W := W) sysStep makeChan.
Proof. intros w. apply ss_chans. Qed.

Lemma closeChan_sys (c : option chan) : keeps (W := W) sysStep (closeChan c).
Proof.
  intros w. unfold closeChan.
  destruct c as [c'|]; [destruct (isClosed w c')|]; simpl;
    auto using ss_refl, ss_chans.
Qed.

Lemma recvLen_mux (c : option chan) : keeps (W := W) muxStep (recvLen c).
Proof.
  intros w. unfold recvLen.
  destruct c as [c'|]; [|apply ms_refl].
  destruct (ack w) as [[[c''|] n]|]; try destruct (Nat.eqb c' c'');
    try destruct (isClosed w c'); simpl;
    auto using ms_refl, ms_ack.
Qed.

Lemma recvLen_sys (c : option chan) : keeps (W := W) sysStep (recvLen c).
Proof. apply keeps_mux_sys, recvLen_mux. Qed.

Lemma assign_sys (p : ptr) (f : MuxIn -> MuxIn) :
  (forall m, hash (f m) = hash m) -> keeps (W := W) sysStep (assign p f).
Proof.
  intros Hf w. unfold assign, bind, deref, modify.
  destruct (heap w !! p) as [m|] eqn:Hp; simpl; [|apply ss_refl].
  eapply ss_assign; eauto.
Qed.

Lemma newHash_sys (p : ptr) : keeps (W := W) sysStep (newHash p).
Proof.
  intros w. unfold newHash, bind, deref, modify.
  destruct (heap w !! p) as [m|] eqn:Hp; simpl; [|apply ss_refl].
  eapply ss_open; eauto.
Qed.

Lemma sendControl_mux (p : ptr) : keeps muxStep (sendControl p).
Proof.
  intros w. unfold sendControl.
  destruct (isClosed w _); [apply ms_refl|].
  destruct (selecting w); simpl; [|apply ms_refl].
  apply Run_turn_mux.
Qed.

Lemma sendControl_sys (p : ptr) : keeps sysStep (sendControl p).
Proof. apply keeps_mux_sys, sendControl_mux. Qed.

Lemma sendBytes_mux (c : option chan) (b : bytes) :
  keeps muxStep (sendBytes c b).
Proof.
  intros w. unfold sendBytes.
  destruct c as [c'|]; [|apply ms_refl].
  destruct (isClosed w c'); [apply ms_refl|].
  destruct (selecting w); [|apply ms_refl].
  destruct (findCase c' _); simpl; [|apply ms_refl].
  apply Run_turn_mux.
Qed.

Lemma sendBytes_sys (c : option chan) (b : bytes) :
  keeps sysStep (sendBytes c b).
Proof. apply keeps_mux_sys, sendBytes_mux. Qed.

Lemma MuxIn_Open_sys (p : ptr) : keeps sysStep (MuxIn_Open p).
Proof.
  pose proof makeChan_sys. pose proof newHash_sys.
  pose proof sendControl_sys.
  pose proof (fun c l => assign_sys p (fun m => setWriteChans m c l)
                           (fun m => eq_refl)).
  pose proof (fun b c => assign_sys p (fun m => setBuf m b c)
                           (fun m => eq_refl)).
  unfold MuxIn_Open. sys_go.
Qed.

Lemma MuxIn_Close_sys (p : ptr) : keeps sysStep (MuxIn_Close p).
Proof.
  pose proof closeChan_sys. pose proof recvLen_sys.
  pose proof sendBytes_sys.
  pose proof (fun b c => assign_sys p (fun m => setBuf m b c)
                           (fun m => eq_refl)).
  unfold MuxIn_Close. sys_go.
Qed.

Lemma MuxIn_Write_sys (p : ptr) (b : bytes) : keeps sysStep (MuxIn_Write p b).
Proof.
  pose proof recvLen_sys. pose proof sendBytes_sys.
  pose proof (assign_sys p (fun m => setBuf m [] (bufCap m))
                (fun m => eq_refl)).
  pose proof (assign_sys p (fun m => append_ m b) (fun m => eq_refl)).
  unfold MuxIn_Write. sys_go.
Qed.

Lemma step_sys (op : Op) w : sysStep w (step op w).
Proof.
  destruct op as [p|p b|p| |i]; simpl.
  - apply MuxIn_Open_sys.
  - apply MuxIn_Write_sys.
  - apply MuxIn_Close_sys.
  - apply (closeChan_sys (Some (Control (mux w)))).
  - unfold selectEOF.
    destruct (selectCases (mux w) !! i) as [[c|]|]; try apply ss_refl.
    destruct (isClosed w c && selecting w); [|apply ss_refl].
    apply ss_mux, Run_turn_mux.
Qed.

Lemma exec_sys (ops : list Op) w : sysStep w (exec ops w).
Proof.
  revert w. induction ops as [|op ops IH]; intros w; simpl.
  - apply ss_refl.
  - eapply ss_trans; [apply step_sys | apply IH].
Qed.

Lemma Inv_NewWorld (out : W) (its : list intents.Intent) :
  Inv (NewWorld out its).
Proof.
  split.
  - intros p in_ d Hp Hd. simpl in Hp.
    rewrite list_lookup_fmap in Hp.
    destruct (its !! p); simpl in Hp; [|discriminate].
    injection Hp as <-. discriminate.
  - intros pre p hdr post Heq. simpl in Heq.
    apply app_cons_not_nil in Heq. contradiction.
Qed.

(** *** Opening a handle *)

Lemma isClosed_setChans_app w (c : chan) (more : list bool) :
  Forall (fun b => b = false) more ->
  isClosed w c = false ->
  isClosed (setChans w (chans w ++ more)) c = false.
Proof.
  unfold isClosed. simpl. intros Hmore Hc.
  destruct (decide (c < length (chans w))%nat) as [Hlt|Hge].
  - rewrite lookup_app_l by assumption. exact Hc.
  - destruct ((chans w ++ more) !! c) as [b|] eqn:E; [|reflexivity].
    rewrite lookup_app_r in E by lia.
    eapply Forall_lookup_1 in Hmore; eauto.
Qed.

(** Equations to run a computation one call at a time. *)

Lemma run_bind {A B : Type} (m : M A) (k : A -> M B) w w1 (a : A) :
  m w = (w1, Ret a) -> bind m k w = k a w1.
Proof. intros H. unfold bind. rewrite H. reflexivity. Qed.

Lemma bind_assoc {A B C : Type} (m : M A) (f : A -> M B) (g : B -> M C) w :
  bind (bind m f) g w = bind m (fun x => bind (f x) g) w.
Proof. unfold bind. destruct (m w) as [w1 [a|e|k|]]; reflexivity. Qed.

Lemma deref_eq w (p : ptr) (m : MuxIn) :
  heap w !! p = Some m -> deref p w = (w, Ret m).
Proof. intros H. unfold deref. rewrite H. reflexivity. Qed.

Lemma assign_eq w (p : ptr) (m : MuxIn) (f : MuxIn -> MuxIn) :
  heap w !! p = Some m ->
  assign p f w = (setHeap w (<[p := f m]> (heap w)), Ret tt).
Proof.
  intros H. unfold assign. rewrite (run_bind _ _ _ _ _ (deref_eq _ _ _ H)).
  reflexivity.
Qed.

Lemma newHash_eq w (p : ptr) (m : MuxIn) :
  heap w !! p = Some m ->
  newHash p w
  = (record (setHeap w (<[p := setHash m (Some crc64.New)]> (heap w)))
       (EvOpen p), Ret tt).
Proof.
  intros H. unfold newHash. rewrite (run_bind _ _ _ _ _ (deref_eq _ _ _ H)).
  reflexivity.
Qed.

Lemma sendControl_eq w (p : ptr) :
  isClosed w (Control (mux w)) = false -> selecting w = true ->
  sendControl p w = (Run_turn 0 (VMuxIn p) true w, Ret tt).
Proof. intros Hc Hs. unfold sendControl. rewrite Hc, Hs. reflexivity. Qed.

Ltac heap_lookup :=
  cbn;
  first [ eassumption
        | apply list_lookup_insert_eq; rewrite ?length_insert; assumption ].

Ltac tidy :=
  cbn [heap chans mux running ack history setHeap setChans setMux
       setRunning setAck record];
  rewrite ?list_insert_insert_eq.

Ltac run1 :=
  first
    [ erewrite run_bind by (apply deref_eq; heap_lookup)
    | erewrite run_bind by (apply assign_eq; heap_lookup)
    | erewrite run_bind by (apply newHash_eq; heap_lookup)
    | erewrite run_bind by reflexivity ];
  tidy.

(** [Open] run to its end on a multiplexer that is selecting. *)
Lemma MuxIn_Open_eq w (p : ptr) (m : MuxIn) :
  heap w !! p = Some m ->
  selecting w = true ->
  isClosed w (Control (mux w)) = false ->
  MuxIn_Open p w = (opened w p (Intent m), Ret None).
Proof.
  intros Hp Hsel Hctl.
  assert (Hlt : (p < length (heap w))%nat) by (eapply lookup_lt_Some; eauto).
  unfold MuxIn_Open, bufferWrites.
  do 7 run1.
  erewrite run_bind.
  2:{ apply sendControl_eq; [|exact Hsel].
      cbn [mux setHeap record setChans].
      apply (isClosed_setChans_app (setChans w (chans w ++ [false])) _ [false]);
        [repeat constructor|].
      apply (isClosed_setChans_app w _ [false]); [repeat constructor|].
      exact Hctl. }
  unfold Run_turn, ret. cbn.
  rewrite list_lookup_insert_eq by assumption. cbn.
  unfold opened, setMux, setCases. cbn.
  rewrite length_app, <- app_assoc. cbn.
  rewrite Nat.add_1_r. reflexivity.
Qed.

(** C5, as the code has it.  [Open] has no notion of a handle being open
    already.  On a multiplexer that is selecting it returns nil; it gives
    the handle two new channels, an empty buffer and a new digest, and
    the multiplexer enters the handle in its slices.  A second [Open] on
    the handle so opened does all of this once more and returns nil as
    well. *)
Theorem Open_returns_nil w (p : ptr) (m : MuxIn) :
  heap w !! p = Some m ->
  selecting w = true ->
  isClosed w (Control (mux w)) = false ->
  MuxIn_Open p w = (opened w p (Intent m), Ret None)
  /\ MuxIn_Open p (opened w p (Intent m))
     = (opened (opened w p (Intent m)) p (Intent m), Ret None).
Proof.
  intros Hp Hsel Hctl.
  assert (Hlt : (p < length (heap w))%nat) by (eapply lookup_lt_Some; eauto).
  split; [apply MuxIn_Open_eq; assumption|].
  set (m1 := {| writeChan := Some (length (chans w));
                writeLenChan := Some (S (length (chans w)));
                buf := []; bufCap := MaxBSONSize;
                hash := Some crc64.New; Intent := Intent m |}).
  apply (MuxIn_Open_eq (opened w p (Intent m)) p m1).
  - apply list_lookup_insert_eq. exact Hlt.
  - exact Hsel.
  - apply (isClosed_setChans_app w _ [false; false]);
      [repeat constructor | exact Hctl].
Qed.

(** *** Writing to a handle *)

Lemma run_bind_throw {A B : Type} (m : M A) (k : A -> M B) w w1 e :
  m w = (w1, Throw e) -> bind m k w = (w1, Throw e).
Proof. intros H. unfold bind. rewrite H. reflexivity. Qed.

Lemma run_bind_panic {A B : Type} (m : M A) (k : A -> M B) w w1 pk :
  m w = (w1, Panic pk) -> bind m k w = (w1, Panic pk).
Proof. intros H. unfold bind. rewrite H. reflexivity. Qed.

Lemma run_bind_blocked {A B : Type} (m : M A) (k : A -> M B) w w1 :
  m w = (w1, Blocked) -> bind m k w = (w1, Blocked).
Proof. intros H. unfold bind. rewrite H. reflexivity. Qed.

Lemma at_eq w (b : bytes) (i : Z) (x : Byte.byte) :
  index b i = Some x -> at_ b i w = (w, Ret x).
Proof. intros H. unfold at_. rewrite H. reflexivity. Qed.

Lemma len_nonneg {A : Type} (l : list A) : 0 <= len l.
Proof. unfold len. lia. Qed.

(** C8.  [Write] ends in an index-out-of-range panic, and touches
    nothing, on every input of fewer than four bytes and on every input
    whose first four bytes declare the size zero: the first is stopped
    while the size is read, the second at [buf[size-1]], so neither
    reaches one of the two corrupt-record panics. *)
Theorem Write_index_out_of_range w (p : ptr) (b : bytes) :
  (len b < 4
   \/ exists b0 b1 b2 b3 rest,
        b = b0 :: b1 :: b2 :: b3 :: rest /\ declaredSize b0 b1 b2 b3 = 0) ->
  MuxIn_Write p b w = (w, Panic IndexOutOfRange).
Proof.
  intros [Hshort | (b0 & b1 & b2 & b3 & rest & -> & Hsize)].
  - destruct b as [|b0 [|b1 [|b2 [|b3 rest]]]]; try reflexivity.
    exfalso. unfold len in Hshort. simpl in Hshort. lia.
  - unfold MuxIn_Write.
    do 4 (erewrite run_bind by reflexivity).
    rewrite Hsize.
    pose proof (len_nonneg (b0 :: b1 :: b2 :: b3 :: rest)) as Hlen.
    destruct (len (b0 :: b1 :: b2 :: b3 :: rest) <? 0) eqn:E.
    + apply Z.ltb_lt in E. lia.
    + reflexivity.
Qed.

Lemma framed_inv (b : bytes) :
  framed b = true ->
  exists b0 b1 b2 b3 rest x,
    b = b0 :: b1 :: b2 :: b3 :: rest
    /\ 1 <= declaredSize b0 b1 b2 b3 <= len b
    /\ index b (declaredSize b0 b1 b2 b3 - 1) = Some x
    /\ byteZ x = 0.
Proof.
  unfold framed. intros H.
  destruct b as [|b0 [|b1 [|b2 [|b3 rest]]]]; try discriminate.
  apply andb_prop in H as [H Hx]. apply andb_prop in H as [H1 H2].
  apply Z.leb_le in H1, H2.
  destruct (index _ _) as [x|] eqn:Hi; [|discriminate].
  apply Z.eqb_eq in Hx.
  exists b0, b1, b2, b3, rest, x. auto.
Qed.

(** Past its checks, [Write] on a well-framed input is the buffering
    code alone. *)
Lemma Write_framed w (p : ptr) (m : MuxIn) (b : bytes) :
  heap w !! p = Some m -> framed b = true ->
  MuxIn_Write p b w
  = (let* short :=
       (if len (buf m) + len b >? bufCap m then
          sendBytes (writeChan m) (buf m);;;
          let* muxIn := deref p in
          let* length := recvLen (writeLenChan muxIn) in
          let* muxIn := deref p in
          if negb (length =? len (buf muxIn)) then ret true
          else assign p (fun m => setBuf m [] (bufCap m));;; ret false
        else ret false) in
     if (short : bool) then ret (0, Some ErrShortWrite)
     else assign p (fun m => append_ m b);;; ret (len b, None)) w.
Proof.
  intros Hp Hb.
  destruct (framed_inv b Hb)
    as (b0 & b1 & b2 & b3 & rest & x & -> & [Hlo Hhi] & Hi & Hx).
  unfold MuxIn_Write.
  do 4 (erewrite run_bind by reflexivity).
  destruct (len _ <? declaredSize b0 b1 b2 b3) eqn:E;
    [apply Z.ltb_lt in E; lia|].
  erewrite run_bind by (apply at_eq; exact Hi).
  rewrite Hx. cbn [Z.eqb negb]. unfold bufferWrites.
  erewrite run_bind by (apply deref_eq; exact Hp).
  reflexivity.
Qed.

Lemma handshake_mux (p : ptr) : keeps muxStep (handshake p).
Proof.
  pose proof sendBytes_mux. pose proof recvLen_mux.
  unfold handshake. mux_go.
Qed.

(** C7.  On a well-framed input [Write] ships the buffer through the
    handshake exactly when the input does not fit in what is left of the
    capacity.  Without a shipment it appends and returns [len(b)], and
    nothing but the buffer changes.  With one, a matching length makes
    it restart the buffer at the input and return [len(b)]; any other
    length makes it return [0] and [io.ErrShortWrite], the buffer
    untouched; if the handshake never completes, neither does [Write]. *)
Theorem Write_buffers_or_ships w (p : ptr) (m : MuxIn) (b : bytes) :
  heap w !! p = Some m -> framed b = true ->
  if len (buf m) + len b >? bufCap m then
    match handshake p w with
    | (w1, Ret length) =>
        if length =? len (buf m) then
          exists m1,
            heap w1 !! p = Some m1
            /\ MuxIn_Write p b w
               = (setHeap w1
                    (<[p := append_ (setBuf m1 [] (bufCap m1)) b]> (heap w1)),
                  Ret (len b, None))
            /\ buf (append_ (setBuf m1 [] (bufCap m1)) b) = b
        else MuxIn_Write p b w = (w1, Ret (0, Some ErrShortWrite))
    | (w1, Throw e) => MuxIn_Write p b w = (w1, Throw e)
    | (w1, Panic k) => MuxIn_Write p b w = (w1, Panic k)
    | (w1, Blocked) => MuxIn_Write p b w = (w1, Blocked)
    end
  else
    MuxIn_Write p b w
    = (setHeap w (<[p := append_ m b]> (heap w)), Ret (len b, None))
    /\ buf (append_ m b) = buf m ++ b.
Proof.
  intros Hp Hb. rewrite (Write_framed w p m b Hp Hb).
  destruct (len (buf m) + len b >? bufCap m) eqn:Hc.
  - destruct (handshake p w) as [wh oh] eqn:HH.
    unfold handshake in HH.
    rewrite (run_bind _ _ _ _ _ (deref_eq _ _ _ Hp)) in HH.
    rewrite ?bind_assoc.
    pose proof (sendBytes_mux (writeChan m) (buf m) w) as H1.
    destruct (sendBytes (writeChan m) (buf m) w) as [w1 [[]|e|k|]] eqn:HS.
    2:{ rewrite (run_bind_throw _ _ _ _ _ HS) in HH. injection HH as <- <-.
        rewrite (run_bind_throw _ _ _ _ _ HS). reflexivity. }
    2:{ rewrite (run_bind_panic _ _ _ _ _ HS) in HH. injection HH as <- <-.
        rewrite (run_bind_panic _ _ _ _ _ HS). reflexivity. }
    2:{ rewrite (run_bind_blocked _ _ _ _ HS) in HH. injection HH as <- <-.
        rewrite (run_bind_blocked _ _ _ _ HS). reflexivity. }
    simpl in H1.
    destruct (muxStep_heap _ _ H1 _ _ Hp) as [h1 Hp1].
    rewrite (run_bind _ _ _ _ _ HS) in HH.
    rewrite (run_bind _ _ _ _ _ (deref_eq _ _ _ Hp1)) in HH.
    rewrite (run_bind _ _ _ _ _ HS).
    rewrite ?bind_assoc.
    rewrite (run_bind _ _ _ _ _ (deref_eq _ _ _ Hp1)).
    rewrite ?bind_assoc.
    cbn [writeLenChan setHash] in HH |- *.
    pose proof (recvLen_mux (writeLenChan m) w1) as H2.
    rewrite HH in H2. simpl in H2.
    destruct oh as [n|e|k|].
    2:{ rewrite (run_bind_throw _ _ _ _ _ HH). reflexivity. }
    2:{ rewrite (run_bind_panic _ _ _ _ _ HH). reflexivity. }
    2:{ rewrite (run_bind_blocked _ _ _ _ HH). reflexivity. }
    destruct (muxStep_heap _ _ H2 _ _ Hp1) as [h2 Hp2].
    cbn [setHash] in Hp2.
    rewrite (run_bind _ _ _ _ _ HH).
    rewrite ?bind_assoc.
    rewrite (run_bind _ _ _ _ _ (deref_eq _ _ _ Hp2)).
    cbn [buf setHash].
    destruct (n =? len (buf m)); cbn [negb].
    + eexists. split; [exact Hp2|]. split; [|reflexivity].
      assert (Hlt : (p < length (heap wh))%nat)
        by (eapply lookup_lt_Some; eauto).
      rewrite ?bind_assoc.
      erewrite run_bind by (apply assign_eq; exact Hp2).
      erewrite run_bind by reflexivity. cbv iota.
      erewrite run_bind by (apply assign_eq; heap_lookup).
      tidy. reflexivity.
    + erewrite run_bind by reflexivity. reflexivity.
  - split; [|reflexivity].
    erewrite run_bind by reflexivity. cbv iota.
    erewrite run_bind by (apply assign_eq; exact Hp).
    reflexivity.
Qed.

(** *** A turn of the multiplexer for a received buffer *)

Lemma sameRunning_refl w : sameRunning w w.
Proof. reflexivity. Qed.

Lemma sameRunning_trans w1 w2 w3 :
  sameRunning w1 w2 -> sameRunning w2 w3 -> sameRunning w1 w3.
Proof. unfold sameRunning. congruence. Qed.

Ltac run_go := keeps_go (@sameRunning_refl) (@sameRunning_trans).

Ltac by_cases :=
  repeat match goal with
         | |- context [match ?x with _ => _ end] => destruct x
         end.

Lemma outWrite_running (p : bytes) : keeps sameRunning (outWrite p).
Proof. intros w. unfold outWrite. by_cases. reflexivity. Qed.

Lemma writeFraming_running (p : bytes) : keeps sameRunning (writeFraming p).
Proof. pose proof outWrite_running. unfold writeFraming. run_go. Qed.

Lemma hashWrite_running (p : ptr) (b : bytes) :
  keeps (W := W) sameRunning (hashWrite p b).
Proof. intros w. unfold hashWrite. by_cases; reflexivity. Qed.

Lemma formatBody_header_running (in_ : MuxIn) :
  keeps sameRunning (formatBody_header in_).
Proof.
  pose proof writeFraming_running.
  unfold formatBody_header. run_go.
Qed.

Lemma uptoRecord_running (p : ptr) (b : bytes) :
  keeps sameRunning (uptoRecord p b).
Proof.
  pose proof hashWrite_running. pose proof formatBody_header_running.
  unfold uptoRecord. run_go.
Qed.

Lemma uptoRecord_mux (p : ptr) (b : bytes) : keeps muxStep (uptoRecord p b).
Proof.
  pose proof hashWrite_mux. pose proof formatBody_header_mux.
  unfold uptoRecord. mux_go.
Qed.

Lemma insAt_eq w (i : nat) (p : ptr) :
  ins (mux w) !! i = Some (Some p) -> insAt i w = (w, Ret p).
Proof. intros H. unfold insAt. rewrite H. reflexivity. Qed.

Lemma data_turn_eq w (i : nat) (p : ptr) (b : bytes) :
  i <> 0%nat -> ins (mux w) !! i = Some (Some p) ->
  Run_turn i (VBytes b) true w
  = afterCall ((uptoRecord p b;;;
                let* in_ := deref p in formatBody_record in_ b) w)
      (fun w => w).
Proof.
  intros Hi Hp. unfold Run_turn.
  apply Nat.eqb_neq in Hi. rewrite Hi. cbn [negb].
  rewrite (run_bind _ _ _ _ _ (insAt_eq _ _ _ Hp)).
  f_equal. unfold uptoRecord, formatBody.
  rewrite bind_assoc.
  destruct (hashWrite p b w) as [w1 [[]|e|k|]] eqn:HW.
  2:{ rewrite !(run_bind_throw _ _ _ _ _ HW). reflexivity. }
  2:{ rewrite !(run_bind_panic _ _ _ _ _ HW). reflexivity. }
  2:{ rewrite !(run_bind_blocked _ _ _ _ HW). reflexivity. }
  do 2 rewrite (run_bind _ _ _ _ _ HW).
  rewrite bind_assoc.
  destruct (deref p w1) as [w1' [in_|e|k|]] eqn:HD.
  2:{ rewrite !(run_bind_throw _ _ _ _ _ HD). reflexivity. }
  2:{ rewrite !(run_bind_panic _ _ _ _ _ HD). reflexivity. }
  2:{ rewrite !(run_bind_blocked _ _ _ _ HD). reflexivity. }
  do 2 rewrite (run_bind _ _ _ _ _ HD).
  assert (w1' = w1 /\ heap w1 !! p = Some in_) as [-> Hq].
  { unfold deref in HD. destruct (heap w1 !! p); inversion HD; auto. }
  pose proof (formatBody_header_mux in_ w1) as Hm.
  destruct (formatBody_header in_ w1) as [w2 [[]|e|k|]] eqn:Hh.
  2:{ rewrite !(run_bind_throw _ _ _ _ _ Hh). reflexivity. }
  2:{ rewrite !(run_bind_panic _ _ _ _ _ Hh). reflexivity. }
  2:{ rewrite !(run_bind_blocked _ _ _ _ Hh). reflexivity. }
  do 2 rewrite (run_bind _ _ _ _ _ Hh).
  simpl in Hm.
  destruct (muxStep_heap _ _ Hm _ _ Hq) as [h Hq2].
  rewrite (run_bind _ _ _ _ _ (deref_eq _ _ _ Hq2)).
  reflexivity.
Qed.

Lemma neverBlocks_bind {A B : Type} (m : M A) (k : A -> M B) :
  neverBlocks (W := W) m -> (forall a, neverBlocks (k a)) ->
  neverBlocks (bind m k).
Proof.
  intros Hm Hk w. unfold bind. specialize (Hm w).
  destruct (m w) as [w1 [a|e|pk|]]; simpl in *; try discriminate.
  - apply Hk.
  - contradiction.
Qed.

Ltac nb_prim := intros w; by_cases; simpl; discriminate.

Lemma hashWrite_neverBlocks (p : ptr) (b : bytes) :
  neverBlocks (W := W) (hashWrite p b).
Proof. unfold hashWrite. nb_prim. Qed.

Lemma deref_neverBlocks (p : ptr) : neverBlocks (W := W) (deref p).
Proof. unfold deref. nb_prim. Qed.

Lemma outWrite_neverBlocks (p : bytes) : neverBlocks (outWrite p).
Proof. unfold outWrite. nb_prim. Qed.

Lemma marshal_neverBlocks (h : NamespaceHeader) :
  neverBlocks (W := W) (marshal h).
Proof. unfold marshal. intros w. destruct (Marshal h); discriminate. Qed.

Lemma writeFraming_neverBlocks (p : bytes) : neverBlocks (writeFraming p).
Proof.
  unfold writeFraming. apply neverBlocks_bind.
  - apply outWrite_neverBlocks.
  - intros [l [e|]]; [|destruct (negb _)]; intros w; discriminate.
Qed.

Lemma formatBody_header_neverBlocks (in_ : MuxIn) :
  neverBlocks (formatBody_header in_).
Proof.
  unfold formatBody_header.
  apply neverBlocks_bind; [intros w; discriminate|]. intros w0.
  apply neverBlocks_bind; [|intros _ w; discriminate].
  destruct (negb _); [|intros w; discriminate].
  apply neverBlocks_bind.
  - destruct (negb _); [apply writeFraming_neverBlocks|intros w; discriminate].
  - intros _. apply neverBlocks_bind;
      [apply marshal_neverBlocks | intros; apply writeFraming_neverBlocks].
Qed.

Lemma uptoRecord_neverBlocks (p : ptr) (b : bytes) :
  neverBlocks (uptoRecord p b).
Proof.
  unfold uptoRecord.
  apply neverBlocks_bind; [apply hashWrite_neverBlocks|]. intros _.
  apply neverBlocks_bind; [apply deref_neverBlocks|].
  apply formatBody_header_neverBlocks.
Qed.

(** The second half of [formatBody], by what the sink answers to the write
    of the record. *)
Lemma formatBody_record_eq w1 (in_ : MuxIn) (b : bytes) (c : chan) :
  writeLenChan in_ = Some c ->
  isClosed w1 c = false ->
  formatBody_record in_ b w1
  = match wcWrite (Out (mux w1)) b with
    | (o, (n, None)) =>
        (setAck (setMux w1 (setOut (mux w1) o)) (Some (Some c, n)), Ret tt)
    | (o, (_, Some e)) => (setMux w1 (setOut (mux w1) o), Throw e)
    end.
Proof.
  intros Hc Hopen. unfold formatBody_record, bind, outWrite.
  destruct (wcWrite (Out (mux w1)) b) as [o [n [e|]]]; [reflexivity|].
  unfold sendLen. rewrite Hc.
  change (isClosed (setMux w1 (setOut (mux w1) o)) c) with (isClosed w1 c).
  rewrite Hopen. reflexivity.
Qed.

(** C3, as the code has it.  In a turn for a received buffer the count
    the sink returns for the record is not compared with the length
    offered.  With a nil error the multiplexer sends the count, short or
    not, to the producer and stays in its loop, nothing being published;
    it is the producer that turns a short count into
    [io.ErrShortWrite].  With an error from the sink the multiplexer
    publishes that error and returns. *)
Theorem record_count_goes_to_producer w (i : nat) (p : ptr) (in_ : MuxIn)
    (b : bytes) w1 (c : chan) :
  i <> 0%nat ->
  ins (mux w) !! i = Some (Some p) ->
  uptoRecord p b w = (w1, Ret tt) ->
  heap w1 !! p = Some in_ ->
  writeLenChan in_ = Some c ->
  isClosed w1 c = false ->
  match wcWrite (Out (mux w1)) b with
  | (o, (n, None)) =>
      Run_turn i (VBytes b) true w
      = setAck (setMux w1 (setOut (mux w1) o)) (Some (Some c, n))
      /\ running (Run_turn i (VBytes b) true w) = running w
  | (o, (_, Some e)) =>
      Run_turn i (VBytes b) true w
      = complete (Some e) (setMux w1 (setOut (mux w1) o))
  end.
Proof.
  intros Hi Hp HU Hq Hc Hopen.
  rewrite (data_turn_eq w i p b Hi Hp).
  rewrite (run_bind _ _ _ _ _ HU).
  rewrite (run_bind _ _ _ _ _ (deref_eq _ _ _ Hq)).
  rewrite (formatBody_record_eq w1 in_ b c Hc Hopen).
  destruct (wcWrite (Out (mux w1)) b) as [o [n [e|]]]; [reflexivity|].
  split; [reflexivity|].
  pose proof (uptoRecord_running p b w) as Hr. rewrite HU in Hr.
  exact Hr.
Qed.

(** C9.  Whenever a turn for a received buffer leaves the multiplexer in
    its loop, the value it sends on the ack channel is the count the sink
    returned for the write of the record itself, the write that comes
    after the digest and the framing; whatever the framing wrote is not
    in it.  So a record the sink takes whole is acknowledged with its own
    length, namespace change or not. *)
Theorem ack_is_count_of_record_write w (i : nat) (b : bytes) :
  i <> 0%nat ->
  running (Run_turn i (VBytes b) true w) = Running ->
  exists p in_ w1 o n,
    ins (mux w) !! i = Some (Some p)
    /\ uptoRecord p b w = (w1, Ret tt)
    /\ heap w1 !! p = Some in_
    /\ wcWrite (Out (mux w1)) b = (o, (n, None))
    /\ Run_turn i (VBytes b) true w
       = setAck (setMux w1 (setOut (mux w1) o))
           (Some (writeLenChan in_, n)).
Proof.
  intros Hi Hafter.
  destruct (ins (mux w) !! i) as [[p|]|] eqn:Hp.
  2,3: exfalso; unfold Run_turn, bind, insAt in Hafter;
       apply Nat.eqb_neq in Hi; rewrite Hi, Hp in Hafter;
       discriminate.
  rewrite (data_turn_eq w i p b Hi Hp) in *.
  pose proof (uptoRecord_running p b w) as Hr.
  pose proof (uptoRecord_neverBlocks p b w) as Hnb.
  destruct (uptoRecord p b w) as [w1 [[]|e|k|]] eqn:HU; simpl in Hr, Hnb.
  2:{ rewrite (run_bind_throw _ _ _ _ _ HU) in Hafter. discriminate. }
  2:{ rewrite (run_bind_panic _ _ _ _ _ HU) in Hafter. discriminate. }
  2:{ contradiction. }
  rewrite (run_bind _ _ _ _ _ HU) in *.
  destruct (heap w1 !! p) as [in_|] eqn:Hq.
  2:{ unfold bind, deref in Hafter. rewrite Hq in Hafter. discriminate. }
  rewrite (run_bind _ _ _ _ _ (deref_eq _ _ _ Hq)) in *.
  unfold formatBody_record, bind, outWrite in *.
  destruct (wcWrite (Out (mux w1)) b) as [o [n [e|]]] eqn:HW;
    [discriminate|].
  exists p, in_, w1, o, n.
  repeat (split; [first [reflexivity | assumption]|]).
  unfold sendLen in *.
  destruct (writeLenChan in_) as [c|]; [|reflexivity].
  destruct (isClosed _ c); [discriminate|reflexivity].
Qed.

(** *** The end of the control channel *)

(** C2, as the code has it.  When [reflect.Select] reports the end of the
    control channel while data cases are left, the multiplexer has
    closed the sink before it looks at them; it then publishes an error
    that carries [len(mux.selectCases)], one more than the number of
    data cases, and returns. *)
Theorem control_eof_with_open_streams w (v : Value)
    (c0 : option chan) (data : list (option chan)) :
  selectCases (mux w) = c0 :: data -> data <> [] ->
  Run_turn 0 v false w
  = complete (Some (ErrMuxEnding (1 + len data)))
      (setMux w (setOut (mux w) (fst (wcClose (Out (mux w)))))).
Proof.
  intros Hs Hd. unfold Run_turn. cbn.
  rewrite Hs.
  assert (len (c0 :: data) = 1 + len data) as ->
      by (unfold len; cbn [length]; lia).
  destruct (1 + len data =? 1) eqn:E; [|reflexivity].
  apply Z.eqb_eq in E. destruct data; [contradiction|].
  unfold len in E. cbn [length] in E. lia.
Qed.

(** *** Closing a handle *)

Lemma bind_Ret_inv {A B : Type} (m : M A) (k : A -> M B) w w' (b : B) :
  bind m k w = (w', Ret b) ->
  exists w1 a, m w = (w1, Ret a) /\ k a w1 = (w', Ret b).
Proof.
  unfold bind. destruct (m w) as [w1 [a|e|pk|]]; try discriminate. eauto.
Qed.

Lemma sameChans_refl w : sameChans w w.
Proof. reflexivity. Qed.

Lemma sameChans_trans w1 w2 w3 :
  sameChans w1 w2 -> sameChans w2 w3 -> sameChans w1 w3.
Proof. unfold sameChans. congruence. Qed.

Lemma keeps_mux_chans {A : Type} (m : M A) :
  keeps (W := W) muxStep m -> keeps sameChans m.
Proof. intros H w. apply muxStep_chans, H. Qed.

Lemma assign_chans (p : ptr) (f : MuxIn -> MuxIn) :
  keeps (W := W) sameChans (assign p f).
Proof.
  intros w. unfold assign, bind, deref, modify.
  destruct (heap w !! p); reflexivity.
Qed.

(** The flush at the head of [Close] touches no channel. *)
Lemma Close_flush_chans (p : ptr) :
  keeps sameChans
    (let* muxIn := deref p in
     sendBytes (writeChan muxIn) (buf muxIn);;;
     let* muxIn := deref p in
     let* length := recvLen (writeLenChan muxIn) in
     let* muxIn := deref p in
     if negb (length =? len (buf muxIn)) then ret true
     else assign p (fun m => setBuf m [] 0);;; ret false).
Proof.
  pose proof (fun c b => keeps_mux_chans _ (sendBytes_mux c b)).
  pose proof (fun c => keeps_mux_chans _ (recvLen_mux c)).
  pose proof assign_chans.
  keeps_go (@sameChans_refl) (@sameChans_trans).
Qed.

(** C4, at the place where the code leaves the claim.  Whenever [Close]
    returns an error, the error is [io.ErrShortWrite] and every channel
    is as it was before the call: the [return] in the flush comes before
    the two [close] statements, so neither handshake channel of the
    handle is closed. *)
Theorem Close_short_write_closes_nothing w (p : ptr) w' (e : Error) :
  MuxIn_Close p w = (w', Ret (Some e)) ->
  e = ErrShortWrite /\ chans w' = chans w.
Proof.
  unfold MuxIn_Close, bufferWrites. intros H.
  apply bind_Ret_inv in H as (wa & ma & Ha & H).
  assert (wa = w) as ->
    by (unfold deref in Ha; destruct (heap w !! p); inversion Ha; auto).
  apply bind_Ret_inv in H as (wb & short & Hb & H).
  pose proof (Close_flush_chans p w) as Hch. rewrite Hb in Hch.
  destruct short.
  - injection H as <- <-. split; [reflexivity | exact Hch].
  - apply bind_Ret_inv in H as (w1 & m1 & _ & H).
    apply bind_Ret_inv in H as (w2 & [] & _ & H).
    apply bind_Ret_inv in H as (w3 & m3 & _ & H).
    apply bind_Ret_inv in H as (w4 & [] & _ & H).
    discriminate.
Qed.

End ArchiveFacts.

(** ** With a sink that records *)

Section RecorderFacts.

Context {Ext : Externals}.
Implicit Types w : World (W := Recorder).

Notation "'let*' x ':=' m 'in' k" := (bind m (fun x => k))
  (at level 10, x pattern, m at level 100, k at level 200).
Notation "m ';;;' k" := (bind m (fun _ => k))
  (at level 100, k at level 200, right associativity).

Ltac heap_lookup :=
  cbn;
  first [ eassumption
        | apply list_lookup_insert_eq; rewrite ?length_insert; assumption ].

Lemma wcWrite_took (s : Recorder) (p : bytes) :
  script s = [] -> wcWrite s p = (took s p, (len p, None)).
Proof. intros H. unfold took. cbn. rewrite H. reflexivity. Qed.

Lemma written_took (s : Recorder) (p : bytes) :
  written (took s p) = written s ++ p.
Proof.
  unfold written, took. cbn [calls].
  rewrite map_app, concat_app. cbn.
  rewrite app_nil_r. f_equal.
  apply take_ge. unfold len. lia.
Qed.

Lemma written_tookOpening (s : Recorder) (cur ns : string) (oh : bytes) :
  written (tookOpening s cur ns oh) = written s ++ openingOf cur ns oh.
Proof.
  unfold tookOpening, openingOf.
  destruct (ns =? cur)%string; [rewrite app_nil_r; reflexivity|].
  destruct (cur =? EmptyString)%string; rewrite !written_took; [reflexivity|].
  rewrite <- app_assoc. reflexivity.
Qed.

Lemma script_tookOpening (s : Recorder) (cur ns : string) (oh : bytes) :
  script s = [] -> script (tookOpening s cur ns oh) = [].
Proof.
  intros H. unfold tookOpening. destruct (ns =? cur)%string; auto.
Qed.

Lemma writeFraming_took w (p : bytes) :
  script (Out (mux w)) = [] ->
  writeFraming p w = (setMux w (setOut (mux w) (took (Out (mux w)) p)), Ret tt).
Proof.
  intros H. unfold writeFraming, bind, outWrite.
  rewrite (wcWrite_took _ _ H). rewrite Z.eqb_refl. reflexivity.
Qed.

Lemma formatBody_header_took w (in_ : MuxIn) (oh : bytes) :
  script (Out (mux w)) = [] ->
  Marshal (openHeaderOf in_) = inr oh ->
  formatBody_header in_ w
  = (setMux w
       (setCurrentNamespace
          (setOut (mux w)
             (tookOpening (Out (mux w)) (currentNamespace (mux w))
                (intents.Namespace (Intent in_)) oh))
          (intents.Namespace (Intent in_))), Ret tt).
Proof.
  intros Hs Hm. unfold formatBody_header, tookOpening.
  rewrite (run_bind _ _ _ _ _ (eq_refl : get w = (w, Ret w))).
  destruct (intents.Namespace (Intent in_) =? currentNamespace (mux w))%string;
    cbn [negb].
  - rewrite (run_bind _ _ _ _ _ (eq_refl : ret tt w = (w, Ret tt))).
    destruct w as [h c [o ? ? ? ? ?] r a hi]. reflexivity.
  - destruct (currentNamespace (mux w) =? EmptyString)%string; cbn [negb].
    + rewrite bind_assoc.
      rewrite (run_bind _ _ _ _ _ (eq_refl : ret tt w = (w, Ret tt))).
      rewrite bind_assoc. unfold marshal. rewrite Hm.
      rewrite (run_bind _ _ _ _ _ (eq_refl : ret oh w = (w, Ret oh))).
      rewrite (run_bind _ _ _ _ _ (writeFraming_took _ _ Hs)).
      reflexivity.
    + rewrite bind_assoc.
      rewrite (run_bind _ _ _ _ _ (writeFraming_took _ _ Hs)).
      rewrite bind_assoc. unfold marshal. rewrite Hm.
      erewrite run_bind by reflexivity.
      erewrite run_bind by (apply writeFraming_took; reflexivity).
      reflexivity.
Qed.


Lemma hashWrite_eq w (p : ptr) (in_ : MuxIn) (d : Z) (b : bytes) :
  heap w !! p = Some in_ -> hash in_ = Some d ->
  hashWrite p b w
  = (record
       (setHeap w (<[p := setHash in_ (Some (crc64.Write d b))]> (heap w)))
       (EvData p b), Ret tt).
Proof. intros Hp Hd. unfold hashWrite. rewrite Hp, Hd. reflexivity. Qed.

(** Body framing and the record, all taken whole. *)
Lemma data_turn_took w (i : nat) (p : ptr) (in_ : MuxIn) (d : Z) (c : chan)
    (b oh : bytes) :
  i <> 0%nat ->
  ins (mux w) !! i = Some (Some p) ->
  heap w !! p = Some in_ -> hash in_ = Some d ->
  writeLenChan in_ = Some c -> isClosed w c = false ->
  script (Out (mux w)) = [] ->
  Marshal (openHeaderOf in_) = inr oh ->
  Run_turn i (VBytes b) true w = afterData w p in_ d c b oh.
Proof.
  intros Hi Hins Hp Hd Hc Hopen Hs Hm.
  assert (Hlt : (p < length (heap w))%nat) by (eapply lookup_lt_Some; eauto).
  set (in' := setHash in_ (Some (crc64.Write d b))).
  set (wa := record (setHeap w (<[p := in']> (heap w))) (EvData p b)).
  assert (Hpa : heap wa !! p = Some in')
    by (apply list_lookup_insert_eq; assumption).
  assert (HU : uptoRecord p b w
               = (setMux wa
                    (setCurrentNamespace
                       (setOut (mux wa)
                          (tookOpening (Out (mux wa))
                             (currentNamespace (mux wa))
                             (intents.Namespace (Intent in')) oh))
                       (intents.Namespace (Intent in'))), Ret tt)).
  { unfold uptoRecord.
    rewrite (run_bind _ _ _ _ _ (hashWrite_eq _ _ _ _ b Hp Hd)).
    fold in'. fold wa.
    rewrite (run_bind _ _ _ _ _ (deref_eq _ _ _ Hpa)).
    apply formatBody_header_took; assumption. }
  rewrite (data_turn_eq w i p b Hi Hins).
  rewrite (run_bind _ _ _ _ _ HU).
  erewrite run_bind by (apply deref_eq; exact Hpa).
  erewrite formatBody_record_eq; [|exact Hc|exact Hopen].
  cbn [mux setMux Out setOut setCurrentNamespace].
  rewrite wcWrite_took by (apply script_tookOpening; exact Hs).
  reflexivity.
Qed.

Lemma headerForEOF_eq w (p : ptr) (in_ : MuxIn) (d : Z) :
  heap w !! p = Some in_ -> hash in_ = Some d ->
  headerForEOF p w
  = (record w (EvEOF p (eofHeaderOf in_ d)), Ret (eofHeaderOf in_ d)).
Proof. intros Hp Hd. unfold headerForEOF. rewrite Hp, Hd. reflexivity. Qed.

(** Eof framing, all taken whole. *)
Lemma eof_turn_took w (i : nat) (p : ptr) (in_ : MuxIn) (d : Z)
    (eh : bytes) :
  i <> 0%nat ->
  ins (mux w) !! i = Some (Some p) ->
  heap w !! p = Some in_ -> hash in_ = Some d ->
  script (Out (mux w)) = [] ->
  Marshal (eofHeaderOf in_ d) = inr eh ->
  Run_turn i VZero false w = afterEOF w i p in_ d eh.
Proof.
  intros Hi Hins Hp Hd Hs Hm.
  unfold Run_turn. apply Nat.eqb_neq in Hi. rewrite Hi. cbn [negb].
  rewrite (run_bind _ _ _ _ _ (insAt_eq _ _ _ Hins)).
  unfold formatEOF, afterEOF, tookClosing.
  rewrite (run_bind _ _ _ _ _ (eq_refl : get w = (w, Ret w))).
  destruct (currentNamespace (mux w) =? EmptyString)%string; cbn [negb].
  - erewrite run_bind by reflexivity.
    erewrite run_bind by (apply headerForEOF_eq; eassumption).
    unfold marshal. rewrite Hm.
    erewrite run_bind by reflexivity.
    erewrite run_bind by (apply writeFraming_took; exact Hs).
    erewrite writeFraming_took by reflexivity.
    reflexivity.
  - erewrite run_bind by (apply writeFraming_took; exact Hs).
    erewrite run_bind by (apply headerForEOF_eq; eassumption).
    unfold marshal. rewrite Hm.
    erewrite run_bind by reflexivity.
    erewrite run_bind by (apply writeFraming_took; reflexivity).
    erewrite writeFraming_took by reflexivity.
    reflexivity.
Qed.

(** *** A handle that is opened and closed at once *)

Lemma findCase_fresh (c : chan) (cases : list (option chan)) :
  Forall (fun x => match x with
                   | Some c' => (c' < c)%nat
                   | None => True
                   end) cases ->
  findCase c (cases ++ [Some c]) = Some (length cases).
Proof.
  induction 1 as [|x cases Hx _ IH]; cbn.
  - rewrite Nat.eqb_refl. reflexivity.
  - destruct x as [c'|].
    + destruct (Nat.eqb c c') eqn:E.
      * apply Nat.eqb_eq in E. lia.
      * rewrite IH. reflexivity.
    + rewrite IH. reflexivity.
Qed.

Lemma sendBytes_eq w (c : chan) (b : bytes) (i : nat) :
  isClosed w c = false -> selecting w = true ->
  findCase c (selectCases (mux w)) = Some i ->
  sendBytes (Some c) b w = (Run_turn i (VBytes b) true w, Ret tt).
Proof.
  intros Hc Hs Hf. unfold sendBytes. rewrite Hc, Hs, Hf. reflexivity.
Qed.

Lemma recvLen_eq w (c : chan) (n : Z) :
  ack w = Some (Some c, n) -> recvLen (Some c) w = (setAck w None, Ret n).
Proof.
  intros H. unfold recvLen. rewrite H, Nat.eqb_refl. reflexivity.
Qed.

Lemma closeChan_eq w (c : chan) :
  isClosed w c = false ->
  closeChan (Some c) w = (setChans w (<[c := true]> (chans w)), Ret tt).
Proof. intros H. unfold closeChan. rewrite H. reflexivity. Qed.

Lemma Namespace_not_empty (it : intents.Intent) :
  (intents.Namespace it =? EmptyString)%string = false.
Proof. unfold intents.Namespace. destruct (intents.DB it); reflexivity. Qed.

Lemma selecting_inv w :
  selecting w = true -> running w = Running /\ ack w = None.
Proof.
  unfold selecting. destruct (running w), (ack w); try discriminate. auto.
Qed.

Lemma isClosed_insert_ne w (c c' : chan) :
  c <> c' ->
  isClosed (setChans w (<[c := true]> (chans w))) c' = isClosed w c'.
Proof.
  intros Hne. unfold isClosed. cbn.
  rewrite list_lookup_insert_ne by assumption. reflexivity.
Qed.

(** [Close] on a registered handle, all writes taken whole: the buffer
    is flushed, the lengths agree, both channels are closed. *)
Lemma Close_took w (p : ptr) (in_ : MuxIn) (d : Z) (c l : chan) (i : nat)
    (oh : bytes) :
  heap w !! p = Some in_ ->
  writeChan in_ = Some c -> writeLenChan in_ = Some l -> c <> l ->
  hash in_ = Some d ->
  isClosed w c = false -> isClosed w l = false ->
  selecting w = true ->
  findCase c (selectCases (mux w)) = Some i -> i <> 0%nat ->
  ins (mux w) !! i = Some (Some p) ->
  script (Out (mux w)) = [] ->
  Marshal (openHeaderOf in_) = inr oh ->
  MuxIn_Close p w = (afterClose w p in_ d c l oh, Ret None).
Proof.
  intros Hp Hc Hl Hcl Hd Hoc Hol Hsel Hf Hi Hins Hs Hm.
  assert (Hlt : (p < length (heap w))%nat) by (eapply lookup_lt_Some; eauto).
  unfold MuxIn_Close, bufferWrites.
  rewrite ?bind_assoc.
  rewrite (run_bind _ _ _ _ _ (deref_eq _ _ _ Hp)).
  rewrite ?bind_assoc.
  rewrite (run_bind _ _ _ _ _ (deref_eq _ _ _ Hp)).
  rewrite ?bind_assoc. rewrite Hc.
  rewrite (run_bind _ _ _ _ _ (sendBytes_eq _ _ _ _ Hoc Hsel Hf)).
  rewrite (data_turn_took w i p in_ d l (buf in_) oh) by assumption.
  set (in' := setHash in_ (Some (crc64.Write d (buf in_)))).
  assert (Hp2 : heap (afterData w p in_ d l (buf in_) oh) !! p = Some in')
    by (apply list_lookup_insert_eq; assumption).
  rewrite ?bind_assoc.
  rewrite (run_bind _ _ _ _ _ (deref_eq _ _ _ Hp2)).
  rewrite ?bind_assoc.
  cbn [writeLenChan in' setHash]. rewrite Hl.
  erewrite run_bind by (apply recvLen_eq; reflexivity).
  rewrite ?bind_assoc.
  erewrite run_bind by (apply deref_eq; exact Hp2).
  cbn [buf in' setHash]. rewrite Z.eqb_refl. cbn [negb].
  rewrite ?bind_assoc.
  erewrite run_bind by (apply assign_eq; exact Hp2).
  erewrite run_bind by reflexivity. cbv iota.
  erewrite run_bind by (apply deref_eq; heap_lookup).
  cbn [writeChan setBuf in' setHash]. rewrite Hc.
  erewrite run_bind by (apply closeChan_eq; exact Hoc).
  erewrite run_bind by (apply deref_eq; heap_lookup).
  cbn [writeLenChan setBuf in' setHash]. rewrite Hl.
  erewrite run_bind.
  2:{ apply closeChan_eq.
      match goal with
      | |- isClosed (setChans ?x _) _ = _ =>
          rewrite (isClosed_insert_ne x c l Hcl)
      end.
      exact Hol. }
  unfold ret, afterClose. f_equal.
  unfold setChans, setHeap, setAck, afterData. cbn.
  rewrite list_insert_insert_eq. reflexivity.
Qed.

Lemma Write_New_nil : crc64.Write crc64.New [] = crc64.New.
Proof. reflexivity. Qed.

(** C1, as the code has it.  [Close] sends the buffer through the
    handshake even when it is empty, so the multiplexer takes a turn for
    a received (empty) buffer, and that turn does body framing.  A handle
    opened and closed with no write in between therefore makes the
    multiplexer emit what begins a run for its namespace (a terminator
    if another namespace was current, then the open header; nothing if
    its own namespace was current already), then a terminator, the eof
    header and a terminator; the crc field of that eof header is 0. *)
Theorem open_close_emits_open_header_too w (p : ptr) (m : MuxIn)
    (oh eh : bytes) :
  heap w !! p = Some m ->
  selecting w = true ->
  isClosed w (Control (mux w)) = false ->
  wellFormed w ->
  script (Out (mux w)) = [] ->
  Marshal (openHeaderOf m) = inr oh ->
  Marshal (eofHeaderOf m crc64.New) = inr eh ->
  written
    (Out (mux (exec [OpOpen p; OpClose p;
                     OpSelectEOF (length (selectCases (mux w)))] w)))
  = written (Out (mux w))
      ++ openingOf (currentNamespace (mux w))
           (intents.Namespace (Intent m)) oh
      ++ terminatorBytes ++ eh ++ terminatorBytes
  /\ CRC (eofHeaderOf m crc64.New) = 0.
Proof.
  intros Hp Hsel Hctl (Hwf1 & Hwf2 & Hwf3) Hs Hoh Heh.
  split; [|reflexivity].
  destruct (selecting_inv w Hsel) as [Hrun Hack].
  assert (Hlt : (p < length (heap w))%nat) by (eapply lookup_lt_Some; eauto).
  unfold exec. cbn [fold_left step].
  rewrite (MuxIn_Open_eq w p m Hp Hsel Hctl). cbn [fst].
  set (c := length (chans w)).
  set (i := length (selectCases (mux w))).
  set (w1 := opened w p (Intent m)).
  set (m1 := {| writeChan := Some c; writeLenChan := Some (S c); buf := [];
                bufCap := MaxBSONSize; hash := Some crc64.New;
                Intent := Intent m |}).
  assert (Hi : i <> 0%nat) by (unfold i; lia).
  assert (Hp1 : heap w1 !! p = Some m1)
    by (apply list_lookup_insert_eq; assumption).
  assert (Hins : ins (mux w1) !! i = Some (Some p)).
  { cbn. apply list_lookup_middle. unfold i. congruence. }
  assert (Hsc : selectCases (mux w1) !! i = Some (Some c)).
  { cbn. apply list_lookup_middle. reflexivity. }
  assert (Hoc : isClosed w1 c = false).
  { unfold isClosed. cbn. rewrite lookup_app_r by (unfold c; lia).
    unfold c. rewrite Nat.sub_diag. reflexivity. }
  assert (Hol : isClosed w1 (S c) = false).
  { unfold isClosed. cbn. rewrite lookup_app_r by (unfold c; lia).
    unfold c. replace (S (length (chans w)) - length (chans w))%nat
      with 1%nat by lia. reflexivity. }
  rewrite (Close_took w1 p m1 crc64.New c (S c) i oh); try assumption;
    try reflexivity.
  2:{ lia. }
  2:{ cbn. apply findCase_fresh. exact Hwf1. }
  cbn [fst].
  set (w2 := afterClose w1 p m1 crc64.New c (S c) oh).
  set (m3 := setBuf (setHash m1 (Some (crc64.Write crc64.New (buf m1)))) [] 0).
  assert (Hp3 : heap w2 !! p = Some m3).
  { apply list_lookup_insert_eq. cbn. rewrite length_insert. assumption. }
  assert (Hclosed : isClosed w2 c = true).
  { unfold isClosed. cbn.
    rewrite list_lookup_insert_ne by lia.
    rewrite list_lookup_insert_eq; [reflexivity|].
    rewrite length_app. unfold c. cbn. lia. }
  unfold selectEOF.
  replace (selectCases (mux w2) !! i) with (Some (Some c)) by (symmetry; exact Hsc).
  rewrite Hclosed.
  replace (selecting w2) with true
    by (unfold selecting; cbn; rewrite Hrun; reflexivity).
  cbn [andb].
  rewrite (eof_turn_took w2 i p m3 crc64.New eh); try assumption;
    try reflexivity.
  cbn [afterEOF mux Out setCases setCurrentNamespace setOut].
  unfold tookClosing.
  replace (currentNamespace (mux w2)) with (intents.Namespace (Intent m))
    by reflexivity.
  rewrite Namespace_not_empty.
  rewrite !written_took.
  replace (Out (mux w2))
    with (took (tookOpening (Out (mux w)) (currentNamespace (mux w))
                  (intents.Namespace (Intent m)) oh) [])
    by reflexivity.
  rewrite written_took, written_tookOpening.
  rewrite app_nil_r, <- !app_assoc. reflexivity.
Qed.

End RecorderFacts.

(** ** The metadata writer *)

Section MetadataFacts.

Import mongodump.
Context {BU : BsonUtil}.

Lemma appendIndexes_keeps (docs : list (list (string * bval)))
    (meta meta' : Metadata) (l : list (option JSON)) :
  appendIndexes meta docs = inl meta' ->
  Indexes meta = Slice l ->
  Options meta' = Options meta /\ exists l', Indexes meta' = Slice l'.
Proof.
  revert meta l. induction docs as [|d docs IH]; intros meta l H Hl.
  - injection H as <-. eauto.
  - cbn [appendIndexes] in H.
    destruct (ConvertBSONValueToJSON (BDoc d)) as [v [|]]; [discriminate|].
    eapply IH in H; [exact H|]. cbn. rewrite Hl. reflexivity.
Qed.

(** C10, as the code has it.  Whatever [dumpMetadata] writes is an
    object whose "indexes" field is an array, never null.  Its "options"
    field is left out only when the options value is nil at the time of
    marshalling, and [dumpMetadata] has by then set it to an empty
    document or to the converted options: it is missing only if the
    conversion of the options itself gave nil, and a collection whose
    info has no options gets the empty object, not an omission. *)
Theorem dumpMetadata_indexes_array_options_written
    (env : Env) (j : JSON) (e : option DumpError) :
  dumpMetadata env = (Some j, e) ->
  exists fields ixs,
    j = JObject fields
    /\ field "indexes" fields = Some (JArray ixs)
    /\ (field "options" fields = None ->
        exists info optsD,
          collectionInfo env = Some (Some info)
          /\ FindValueByKey "options" info = Some (BDoc optsD)
          /\ fst (ConvertBSONValueToJSON (BDoc optsD)) = None)
    /\ (forall info,
          collectionInfo env = Some (Some info) ->
          FindValueByKey "options" info = None ->
          field "options" fields = Some (JObject [])).
Proof.
  unfold dumpMetadata. intros H.
  destruct (openMetadataFails env); [discriminate|].
  destruct (getSessionFails env); [discriminate|].
  destruct (collectionInfo env) as [[info|]|]; try discriminate.
  destruct (indexDocs env) as [[docs iterFails]|] eqn:Hix.
  2:{ destruct (FindValueByKey "options" info) as [[optsD| |]|];
        try discriminate;
        destruct (ConvertBSONValueToJSON _) as [v [|]]; discriminate. }
  assert (Hfinish : forall meta : Metadata,
    Indexes meta = Slice [] ->
    match appendIndexes meta docs with
    | inr e0 => (None, Some e0)
    | inl meta0 =>
        if iterFails then (None, Some ErrIterator)
        else if writeFails env then (Some (json_Marshal meta0), Some ErrWrite)
             else if flushFails env
                  then (Some (json_Marshal meta0), Some ErrFlush)
                  else (Some (json_Marshal meta0), None)
    end = (Some j, e) ->
    exists ixs,
      j = JObject (match Options meta with
                   | None => []
                   | Some o => [("options"%string, o)]
                   end ++ [("indexes"%string, JArray ixs)])).
  { intros meta Hm Hr.
    destruct (appendIndexes meta docs) as [meta'|] eqn:Ha; [|discriminate].
    destruct iterFails; [discriminate|].
    assert (Hj : j = json_Marshal meta').
    { destruct (writeFails env); [|destruct (flushFails env)];
        injection Hr as <- _; reflexivity. }
    subst j.
    destruct (appendIndexes_keeps _ _ _ _ Ha Hm) as [Ho [l' Hl']].
    exists (map marshalValue l'). unfold json_Marshal.
    rewrite Ho, Hl'. reflexivity. }
  destruct (FindValueByKey "options" info) as [[optsD| |]|] eqn:Hf;
    try discriminate.
  - destruct (ConvertBSONValueToJSON (BDoc optsD)) as [v [|]] eqn:Hc;
      [discriminate|].
    apply Hfinish in H; [|reflexivity].
    destruct H as [ixs ->]. cbn [Options].
    destruct v as [o|]; eexists; exists ixs;
      (split; [reflexivity|]); (split; [reflexivity|]); split.
    + discriminate.
    + intros info' [= <-] Hnone. rewrite Hf in Hnone. discriminate.
    + intros _. exists info, optsD. rewrite Hc. auto.
    + intros info' [= <-] Hnone. rewrite Hf in Hnone. discriminate.
  - apply Hfinish in H; [|reflexivity].
    destruct H as [ixs ->].
    eexists; exists ixs. split; [reflexivity|]. split; [reflexivity|].
    split; [discriminate|]. intros info' [= <-] _. reflexivity.
Qed.

End MetadataFacts.

(** ** The statements at concrete inputs *)

Lemma open_close_emits_open_header_too_witness :
  written (Out (mux worldOpenClose))
  = written (Out (mux world0))
      ++ openingOf EmptyString "d.c" (headerBytes openHeader_d_c)
      ++ terminatorBytes ++ headerBytes (eofHeader_d_c 0) ++ terminatorBytes
  /\ CRC (eofHeaderOf (zeroMuxIn intent_d_c) crc64.New) = 0.
Proof.
  apply (open_close_emits_open_header_too (Ext := ext8) world0 0%nat
           (zeroMuxIn intent_d_c)
           (headerBytes openHeader_d_c) (headerBytes (eofHeader_d_c 0)));
    try reflexivity.
  repeat constructor.
Defined.

(** The claim C1 fails on an empty stream: the sink holds the open header
    and a terminator before the eof header, not the eof header and one
    terminator alone. *)
Lemma empty_stream_emits_more_than_eof :
  written (Out (mux worldOpenClose))
  = headerBytes openHeader_d_c ++ terminatorBytes
      ++ headerBytes (eofHeader_d_c 0) ++ terminatorBytes
  /\ written (Out (mux worldOpenClose))
     <> headerBytes (eofHeader_d_c 0) ++ terminatorBytes.
Proof.
  split; [vm_compute; reflexivity|].
  vm_compute. discriminate.
Qed.

Lemma control_eof_with_open_streams_witness :
  Run_turn (Ext := ext8) 0 VZero false worldOpened
  = complete (Some (ErrMuxEnding (1 + len [Some 2%nat])))
      (setMux worldOpened
         (setOut (mux worldOpened) (fst (wcClose (Out (mux worldOpened)))))).
Proof.
  apply (control_eof_with_open_streams (Ext := ext8) worldOpened VZero
           (Some 0%nat) [Some 2%nat]).
  - reflexivity.
  - discriminate.
Defined.

(** The claim C2 fails with one data channel open: the sink has been
    closed when the error is published, and the error carries 2, the
    number of select cases, not 1. *)
Lemma control_eof_closes_the_sink :
  running worldDangling = Returned (Some (ErrMuxEnding 2))
  /\ closed (Out (mux worldDangling)) = true
  /\ closed (Out (mux worldDangling)) <> false.
Proof.
  split; [reflexivity|]. split; [reflexivity|]. discriminate.
Qed.

Lemma record_count_goes_to_producer_witness :
  Run_turn (Ext := ext8) 1 (VBytes rec5) true worldShortBuffered
  = setAck
      (setMux (fst (uptoRecord (Ext := ext8) 0%nat rec5 worldShortBuffered))
         (setOut
            (mux (fst (uptoRecord (Ext := ext8) 0%nat rec5 worldShortBuffered)))
            (fst (wcWrite
                    (Out (mux (fst (uptoRecord (Ext := ext8) 0%nat rec5
                                      worldShortBuffered))))
                    rec5))))
      (Some (Some 3%nat, 4))
  /\ running (Run_turn (Ext := ext8) 1 (VBytes rec5) true worldShortBuffered)
     = running worldShortBuffered.
Proof.
  exact (record_count_goes_to_producer (Ext := ext8) worldShortBuffered
           1%nat 0%nat (setHash handleBuffered (Some (crc64.Write 0 rec5)))
           rec5 _ 3%nat
           (fun H => O_S 0%nat (eq_sym H)) eq_refl eq_refl eq_refl eq_refl
           eq_refl).
Defined.

(** The claim C3 fails when the sink takes four of the five bytes of a
    record and reports no error: the multiplexer acknowledges four and is
    still in its loop with nothing published; the short write comes out of
    the producer's [Close]. *)
Lemma short_record_write_is_not_terminal :
  snd (MuxIn_Close (Ext := ext8) 0%nat worldShortBuffered)
  = Ret (Some ErrShortWrite)
  /\ running (fst (MuxIn_Close (Ext := ext8) 0%nat worldShortBuffered))
     = Running
  /\ running (fst (MuxIn_Close (Ext := ext8) 0%nat worldShortBuffered))
     <> Returned (Some ErrShortWrite)
  /\ last (calls (Out (mux (fst (MuxIn_Close (Ext := ext8) 0%nat
                                   worldShortBuffered)))))
     = Some (rec5, (4, None)).
Proof.
  split; [reflexivity|]. split; [reflexivity|].
  split; [discriminate|]. reflexivity.
Qed.

Lemma Close_short_write_closes_nothing_witness :
  ErrShortWrite = ErrShortWrite
  /\ chans (fst (MuxIn_Close (Ext := ext8) 0%nat worldShortBuffered))
     = chans worldShortBuffered.
Proof.
  apply (Close_short_write_closes_nothing (Ext := ext8) worldShortBuffered
           0%nat).
  reflexivity.
Defined.

(** At the failing input of C4 the two channels of the handle, 2 and 3,
    are open after [Close] has returned [io.ErrShortWrite]. *)
Example Close_short_write_channels_still_open :
  snd (MuxIn_Close (Ext := ext8) 0%nat worldShortBuffered)
  = Ret (Some ErrShortWrite)
  /\ chans (fst (MuxIn_Close (Ext := ext8) 0%nat worldShortBuffered))
     = [false; false; false; false].
Proof. split; reflexivity. Qed.

Lemma Open_returns_nil_witness :
  MuxIn_Open (Ext := ext8) 0%nat world0
  = (opened (Ext := ext8) world0 0%nat (Intent (zeroMuxIn intent_d_c)),
     Ret None)
  /\ MuxIn_Open (Ext := ext8) 0%nat
       (opened (Ext := ext8) world0 0%nat (Intent (zeroMuxIn intent_d_c)))
     = (opened (Ext := ext8)
          (opened (Ext := ext8) world0 0%nat (Intent (zeroMuxIn intent_d_c)))
          0%nat (Intent (zeroMuxIn intent_d_c)), Ret None).
Proof.
  apply (Open_returns_nil (Ext := ext8) world0 0%nat (zeroMuxIn intent_d_c));
    reflexivity.
Defined.

(** The claim C5 fails: a second [Open] on the open handle returns nil,
    and the multiplexer holds the handle twice. *)
Lemma second_Open_returns_nil :
  snd (MuxIn_Open (Ext := ext8) 0%nat worldOpened) = Ret None
  /\ ins (mux (fst (MuxIn_Open (Ext := ext8) 0%nat worldOpened)))
     = [None; Some 0%nat; Some 0%nat].
Proof. split; reflexivity. Qed.

(** Two records in two payloads have the checksum of the ten bytes. *)
Example two_payloads_one_checksum :
  int64 (crc64.Checksum (rec5 ++ rec5)) = -3610612987988203810.
Proof. vm_compute. reflexivity. Qed.

Lemma Write_buffers_or_ships_witness :
  (MuxIn_Write (Ext := ext8) 0%nat rec5 worldOpened
   = (setHeap worldOpened
        (<[0%nat := append_ (Ext := ext8) handleOpened rec5]>
           (heap worldOpened)),
      Ret (len rec5, None))
   /\ buf (append_ (Ext := ext8) handleOpened rec5)
      = buf handleOpened ++ rec5)
  /\ (exists m1,
        heap (fst (handshake (Ext := ext8) 0%nat worldBuffered)) !! 0%nat
        = Some m1
        /\ MuxIn_Write (Ext := ext8) 0%nat rec5 worldBuffered
           = (setHeap (fst (handshake (Ext := ext8) 0%nat worldBuffered))
                (<[0%nat := append_ (Ext := ext8)
                              (setBuf m1 [] (bufCap m1)) rec5]>
                   (heap (fst (handshake (Ext := ext8) 0%nat worldBuffered)))),
              Ret (len rec5, None))
        /\ buf (append_ (Ext := ext8) (setBuf m1 [] (bufCap m1)) rec5) = rec5).
Proof.
  split.
  - exact (Write_buffers_or_ships (Ext := ext8) worldOpened 0%nat
             handleOpened rec5 eq_refl eq_refl).
  - exact (Write_buffers_or_ships (Ext := ext8) worldBuffered 0%nat
             handleBuffered rec5 eq_refl eq_refl).
Defined.

Lemma Write_index_out_of_range_witness :
  MuxIn_Write (Ext := ext8) 0%nat [x05; x00; x00]%byte worldOpened
  = (worldOpened, Panic IndexOutOfRange)
  /\ MuxIn_Write (Ext := ext8) 0%nat [x00; x00; x00; x00; x00]%byte worldOpened
     = (worldOpened, Panic IndexOutOfRange).
Proof.
  split; apply (Write_index_out_of_range (Ext := ext8)).
  - left. unfold len. simpl. lia.
  - right. exists x00%byte, x00%byte, x00%byte, x00%byte, [x00%byte].
    split; reflexivity.
Defined.

Lemma ack_is_count_of_record_write_witness :
  exists p in_ w1 o n,
    ins (mux worldTwo) !! 2%nat = Some (Some p)
    /\ uptoRecord (Ext := ext8) p rec5 worldTwo = (w1, Ret tt)
    /\ heap w1 !! p = Some in_
    /\ wcWrite (Out (mux w1)) rec5 = (o, (n, None))
    /\ Run_turn (Ext := ext8) 2 (VBytes rec5) true worldTwo
       = setAck (setMux w1 (setOut (mux w1) o)) (Some (writeLenChan in_, n)).
Proof.
  apply (ack_is_count_of_record_write (Ext := ext8) worldTwo 2%nat rec5).
  - discriminate.
  - reflexivity.
Defined.

(** In that turn the namespace changes from [d.c] to [e.f]: the sink gets
    a terminator and the open header before the record, and the
    acknowledgement is 5, the length of the record alone. *)
Example ack_after_namespace_change :
  ack (Run_turn (Ext := ext8) 2 (VBytes rec5) true worldTwo)
  = Some (Some 5%nat, 5)
  /\ written (Out (mux (Run_turn (Ext := ext8) 2 (VBytes rec5) true worldTwo)))
     = written (Out (mux worldTwo))
         ++ terminatorBytes ++ headerBytes openHeader_e_f ++ rec5.
Proof. split; vm_compute; reflexivity. Qed.

Lemma dumpMetadata_indexes_array_options_written_witness :
  exists fields ixs,
    mongodump.JObject
      [("options"%string, mongodump.JObject []);
       ("indexes"%string, mongodump.JArray [])]
    = mongodump.JObject fields
    /\ mongodump.field "indexes" fields = Some (mongodump.JArray ixs)
    /\ (mongodump.field "options" fields = None ->
        exists info optsD,
          mongodump.collectionInfo mongodump.plainCollection
          = Some (Some info)
          /\ mongodump.FindValueByKey (BsonUtil := mongodump.exampleBsonUtil)
               "options" info
             = Some (mongodump.BDoc optsD)
          /\ fst (mongodump.ConvertBSONValueToJSON
                    (BsonUtil := mongodump.exampleBsonUtil)
                    (mongodump.BDoc optsD)) = None)
    /\ (forall info,
          mongodump.collectionInfo mongodump.plainCollection
          = Some (Some info) ->
          mongodump.FindValueByKey (BsonUtil := mongodump.exampleBsonUtil)
            "options" info = None ->
          mongodump.field "options" fields = Some (mongodump.JObject [])).
Proof.
  apply (dumpMetadata_indexes_array_options_written
           (BU := mongodump.exampleBsonUtil) mongodump.plainCollection _ None).
  reflexivity.
Defined.

(** The claim C10 fails on its second half: for a collection with no
    options and no indexes the text written has an "options" field, the
    empty object, next to the empty array of indexes. *)
Lemma options_written_when_empty :
  mongodump.dumpMetadata (BU := mongodump.exampleBsonUtil)
    mongodump.plainCollection
  = (Some (mongodump.JObject
             [("options"%string, mongodump.JObject []);
              ("indexes"%string, mongodump.JArray [])]), None)
  /\ mongodump.field "options"
       [("options"%string, mongodump.JObject []);
        ("indexes"%string, mongodump.JArray [])]
     <> None.
Proof. split; [reflexivity | discriminate]. Qed.

(** ** More about the multiplexer *)

Section ArchiveMoreFacts.

Context {Ext : Externals} {W : Type} {WC : WriteCloser W}.
Implicit Types w : World (W := W).

Notation "'let*' x ':=' m 'in' k" := (bind m (fun x => k))
  (at level 10, x pattern, m at level 100, k at level 200).
Notation "m ';;;' k" := (bind m (fun _ => k))
  (at level 100, k at level 200, right associativity).

Ltac keeps_by rf tr :=
  repeat first
    [ solve [ auto ]
    | match goal with
      | |- keeps _ (match ?x with _ => _ end) => destruct x
      | |- keeps _ (let (_, _) := ?x in _) => destruct x
      end
    | apply (keeps_ret _ rf) | apply (keeps_throw _ rf)
    | apply (keeps_panic _ rf) | apply (keeps_get _ rf)
    | apply (keeps_deref _ rf) | apply (keeps_insAt _ rf)
    | apply (keeps_marshal _ rf) | apply (keeps_at _ rf)
    | apply (keeps_bind _ tr); [ | intros ] ].

Ltac split_cases :=
  repeat match goal with
         | |- context [match ?x with _ => _ end] => destruct x
         end.

(** *** The two slices stay in step *)

Lemma sameCases_refl w : sameCases w w.
Proof. repeat split; reflexivity. Qed.

Lemma sameCases_trans w1 w2 w3 :
  sameCases w1 w2 -> sameCases w2 w3 -> sameCases w1 w3.
Proof. intros (H1 & H2 & H3) (H4 & H5 & H6). repeat split; congruence. Qed.

Ltac cases_go := keeps_by (@sameCases_refl) (@sameCases_trans).

Lemma outWrite_cases (p : bytes) : keeps sameCases (outWrite p).
Proof. intros w. unfold outWrite. split_cases. repeat split; reflexivity. Qed.

Lemma writeFraming_cases (p : bytes) : keeps sameCases (writeFraming p).
Proof. pose proof outWrite_cases. unfold writeFraming. cases_go. Qed.

Lemma sendLen_cases (c : option chan) (n : Z) :
  keeps (W := W) sameCases (sendLen c n).
Proof. intros w. unfold sendLen. split_cases; repeat split; reflexivity. Qed.

Lemma hashWrite_cases (p : ptr) (b : bytes) :
  keeps (W := W) sameCases (hashWrite p b).
Proof. intros w. unfold hashWrite. split_cases; repeat split; reflexivity. Qed.

Lemma headerForEOF_cases (p : ptr) :
  keeps (W := W) sameCases (headerForEOF p).
Proof. intros w. unfold headerForEOF. split_cases; repeat split; reflexivity. Qed.

Lemma formatBody_cases (p : ptr) (b : bytes) :
  keeps sameCases (formatBody p b).
Proof.
  pose proof outWrite_cases. pose proof writeFraming_cases.
  pose proof sendLen_cases.
  unfold formatBody, formatBody_header, formatBody_record. cases_go.
Qed.

Lemma formatEOF_cases (i : nat) (p : ptr) : keeps sameCases (formatEOF i p).
Proof.
  pose proof writeFraming_cases. pose proof headerForEOF_cases.
  unfold formatEOF. cases_go.
Qed.

Lemma length_remove {A : Type} (i : nat) (l1 : list A) {B : Type} (l2 : list B) :
  length l1 = length l2 -> length (remove i l1) = length (remove i l2).
Proof.
  intros H. unfold remove.
  rewrite !length_app, !length_take, !length_drop. lia.
Qed.

Lemma remove_head {A : Type} (i : nat) (l : list A) :
  i <> 0%nat -> remove i l !! 0%nat = l !! 0%nat.
Proof.
  intros Hi. destruct i as [|j]; [contradiction|].
  destruct l as [|x l]; reflexivity.
Qed.

Lemma sameCases_inStep w w' : sameCases w w' -> keepsInStep w w'.
Proof.
  intros (Hi & Hs & Hc). split; [exact Hc|].
  intros (H1 & H2 & H3). unfold inStep. rewrite Hi, Hs, Hc. auto.
Qed.

Lemma keepsInStep_refl w : keepsInStep w w.
Proof. split; auto. Qed.

Lemma keepsInStep_trans w1 w2 w3 :
  keepsInStep w1 w2 -> keepsInStep w2 w3 -> keepsInStep w1 w3.
Proof. intros [H1 H2] [H3 H4]. split; [congruence | auto]. Qed.

Lemma Run_turn_inStep (index : nat) (value : Value) (notEOF : bool) w :
  keepsInStep w (Run_turn index value notEOF w).
Proof.
  unfold Run_turn, complete.
  destruct (Nat.eqb index 0) eqn:Hi.
  - destruct (negb notEOF).
    + apply sameCases_inStep. split_cases; repeat split; reflexivity.
    + destruct value; try (apply sameCases_inStep; repeat split; reflexivity).
      destruct (heap w !! p);
        [|apply sameCases_inStep; repeat split; reflexivity].
      split; [reflexivity|]. intros (H1 & H2 & H3). unfold inStep. cbn.
      rewrite !length_app, H1. split; [reflexivity|].
      split; apply lookup_app_l_Some; assumption.
  - apply Nat.eqb_neq in Hi. destruct (negb notEOF).
    + pose proof formatEOF_cases as HE.
      assert (Hm : keeps sameCases (let* p := insAt index in formatEOF index p))
        by (keeps_by (@sameCases_refl) (@sameCases_trans)).
      specialize (Hm w). unfold afterCall, complete.
      destruct ((let* p := insAt index in formatEOF index p) w)
        as [w1 [a|e|pk|]]; cbn [fst] in Hm;
        try (apply sameCases_inStep; destruct Hm as (?&?&?);
             repeat split; assumption).
      eapply keepsInStep_trans; [apply sameCases_inStep, Hm|].
      split; [reflexivity|]. intros (H1 & H2 & H3). unfold inStep. cbn.
      split; [apply length_remove; exact H1|].
      rewrite !remove_head by assumption. auto.
    + destruct value; try (apply sameCases_inStep; repeat split; reflexivity).
      pose proof formatBody_cases as HB. pose proof hashWrite_cases as HH.
      assert (Hm : keeps sameCases
                     (let* p := insAt index in
                      hashWrite p b;;; formatBody p b))
        by (keeps_by (@sameCases_refl) (@sameCases_trans)).
      specialize (Hm w). unfold afterCall, complete.
      destruct ((let* p := insAt index in hashWrite p b;;; formatBody p b) w)
        as [w1 [a|e|pk|]]; cbn [fst] in Hm;
        apply sameCases_inStep; destruct Hm as (?&?&?);
        repeat split; assumption.
Qed.

Lemma keeps_cases_inStep {A : Type} (m : M A) :
  keeps (W := W) sameCases m -> keeps keepsInStep m.
Proof. intros H w. apply sameCases_inStep, H. Qed.

Ltac step_go := keeps_by (@keepsInStep_refl) (@keepsInStep_trans).

Lemma makeChan_inStep : keeps (W := W) keepsInStep makeChan.
Proof. apply keeps_cases_inStep. intros w. repeat split; reflexivity. Qed.

Lemma closeChan_inStep (c : option chan) :
  keeps (W := W) keepsInStep (closeChan c).
Proof.
  apply keeps_cases_inStep. intros w. unfold closeChan.
  split_cases; repeat split; reflexivity.
Qed.

Lemma recvLen_inStep (c : option chan) :
  keeps (W := W) keepsInStep (recvLen c).
Proof.
  apply keeps_cases_inStep. intros w. unfold recvLen.
  split_cases; repeat split; reflexivity.
Qed.

Lemma assign_inStep (p : ptr) (f : MuxIn -> MuxIn) :
  keeps (W := W) keepsInStep (assign p f).
Proof.
  apply keeps_cases_inStep. intros w. unfold assign, bind, deref, modify.
  destruct (heap w !! p); repeat split; reflexivity.
Qed.

Lemma newHash_inStep (p : ptr) : keeps (W := W) keepsInStep (newHash p).
Proof.
  apply keeps_cases_inStep. intros w. unfold newHash, bind, deref, modify.
  destruct (heap w !! p); repeat split; reflexivity.
Qed.

Lemma sendControl_inStep (p : ptr) : keeps keepsInStep (sendControl p).
Proof.
  intros w. unfold sendControl.
  destruct (isClosed w _); [apply keepsInStep_refl|].
  destruct (selecting w); [|apply keepsInStep_refl].
  apply Run_turn_inStep.
Qed.

Lemma sendBytes_inStep (c : option chan) (b : bytes) :
  keeps keepsInStep (sendBytes c b).
Proof.
  intros w. unfold sendBytes.
  destruct c as [c'|]; [|apply keepsInStep_refl].
  destruct (isClosed w c'); [apply keepsInStep_refl|].
  destruct (selecting w); [|apply keepsInStep_refl].
  destruct (findCase c' _); [|apply keepsInStep_refl].
  apply Run_turn_inStep.
Qed.

Lemma MuxIn_Open_inStep (p : ptr) : keeps keepsInStep (MuxIn_Open p).
Proof.
  pose proof makeChan_inStep. pose proof newHash_inStep.
  pose proof sendControl_inStep. pose proof assign_inStep.
  unfold MuxIn_Open. step_go.
Qed.

Lemma MuxIn_Close_inStep (p : ptr) : keeps keepsInStep (MuxIn_Close p).
Proof.
  pose proof closeChan_inStep. pose proof recvLen_inStep.
  pose proof sendBytes_inStep. pose proof assign_inStep.
  unfold MuxIn_Close. step_go.
Qed.

Lemma MuxIn_Write_inStep (p : ptr) (b : bytes) :
  keeps keepsInStep (MuxIn_Write p b).
Proof.
  pose proof recvLen_inStep. pose proof sendBytes_inStep.
  pose proof assign_inStep.
  unfold MuxIn_Write. step_go.
Qed.

Lemma step_inStep (op : Op) w : keepsInStep w (step op w).
Proof.
  destruct op as [p|p b|p| |i]; cbn [step].
  - apply MuxIn_Open_inStep.
  - apply MuxIn_Write_inStep.
  - apply MuxIn_Close_inStep.
  - apply (closeChan_inStep (Some (Control (mux w)))).
  - unfold selectEOF.
    destruct (selectCases (mux w) !! i) as [[c|]|];
      try apply keepsInStep_refl.
    destruct (isClosed w c && selecting w); [|apply keepsInStep_refl].
    apply Run_turn_inStep.
Qed.

Lemma exec_inStep (ops : list Op) w : keepsInStep w (exec ops w).
Proof.
  revert w. induction ops as [|op ops IH]; intros w; cbn.
  - apply keepsInStep_refl.
  - eapply keepsInStep_trans; [apply step_inStep | apply IH].
Qed.

(** X1.  In every execution from a new multiplexer the two slices of the
    multiplexer stay such as [Run] relies on: [ins] and [selectCases]
    have the same length, the first entry of [ins] is the nil handle and
    the first select case is the control channel, whatever the producers
    and the owner do and whatever the sink answers. *)
Theorem slices_stay_in_step (out : W) (its : list intents.Intent)
    (ops : list Op) :
  let w := exec ops (NewWorld out its) in
  length (ins (mux w)) = length (selectCases (mux w))
  /\ ins (mux w) !! 0%nat = Some None
  /\ selectCases (mux w) !! 0%nat = Some (Some (Control (mux w))).
Proof.
  cbv zeta.
  destruct (exec_inStep ops (NewWorld out its)) as [_ H].
  apply H. repeat split.
Qed.

(** *** Once [Run] has ended *)

Lemma inert_refl w : inert w w.
Proof. intros _. auto. Qed.

Lemma inert_trans w1 w2 w3 : inert w1 w2 -> inert w2 w3 -> inert w1 w3.
Proof.
  intros H1 H2 Hr. destruct (H1 Hr) as [Hm1 Hr1].
  destruct H2 as [Hm2 Hr2]; [congruence|]. split; congruence.
Qed.

Ltac inert_go := keeps_by (@inert_refl) (@inert_trans).

Ltac inert_prim := intros w _; split_cases; split; reflexivity.

Lemma makeChan_inert : keeps (W := W) inert makeChan.
Proof. intros w _. split; reflexivity. Qed.

Lemma closeChan_inert (c : option chan) : keeps (W := W) inert (closeChan c).
Proof. unfold closeChan. inert_prim. Qed.

Lemma recvLen_inert (c : option chan) : keeps (W := W) inert (recvLen c).
Proof. unfold recvLen. inert_prim. Qed.

Lemma assign_inert (p : ptr) (f : MuxIn -> MuxIn) :
  keeps (W := W) inert (assign p f).
Proof.
  intros w _. unfold assign, bind, deref, modify.
  destruct (heap w !! p); split; reflexivity.
Qed.

Lemma newHash_inert (p : ptr) : keeps (W := W) inert (newHash p).
Proof.
  intros w _. unfold newHash, bind, deref, modify.
  destruct (heap w !! p); split; reflexivity.
Qed.

Lemma selecting_Running w : selecting w = true -> running w = Running.
Proof. unfold selecting. destruct (running w); try discriminate. auto. Qed.

Lemma sendControl_inert (p : ptr) : keeps inert (sendControl p).
Proof.
  intros w Hr. unfold sendControl.
  destruct (isClosed w _); [auto|].
  destruct (selecting w) eqn:Hs; [|auto].
  apply selecting_Running in Hs. contradiction.
Qed.

Lemma sendBytes_inert (c : option chan) (b : bytes) :
  keeps inert (sendBytes c b).
Proof.
  intros w Hr. unfold sendBytes.
  destruct c as [c'|]; [|auto].
  destruct (isClosed w c'); [auto|].
  destruct (selecting w) eqn:Hs; [|auto].
  apply selecting_Running in Hs. contradiction.
Qed.

Lemma MuxIn_Open_inert (p : ptr) : keeps inert (MuxIn_Open p).
Proof.
  pose proof makeChan_inert. pose proof newHash_inert.
  pose proof sendControl_inert. pose proof assign_inert.
  unfold MuxIn_Open. inert_go.
Qed.

Lemma MuxIn_Close_inert (p : ptr) : keeps inert (MuxIn_Close p).
Proof.
  pose proof closeChan_inert. pose proof recvLen_inert.
  pose proof sendBytes_inert. pose proof assign_inert.
  unfold MuxIn_Close. inert_go.
Qed.

Lemma MuxIn_Write_inert (p : ptr) (b : bytes) : keeps inert (MuxIn_Write p b).
Proof.
  pose proof recvLen_inert. pose proof sendBytes_inert.
  pose proof assign_inert.
  unfold MuxIn_Write. inert_go.
Qed.

Lemma step_inert (op : Op) w : inert w (step op w).
Proof.
  destruct op as [p|p b|p| |i]; cbn [step].
  - apply MuxIn_Open_inert.
  - apply MuxIn_Write_inert.
  - apply MuxIn_Close_inert.
  - apply (closeChan_inert (Some (Control (mux w)))).
  - intros Hr. unfold selectEOF.
    destruct (selectCases (mux w) !! i) as [[c|]|]; auto.
    destruct (selecting w) eqn:Hs;
      [apply selecting_Running in Hs; contradiction|].
    rewrite andb_false_r. auto.
Qed.

(** X2.  Once [Run] has ended, by returning or by a panic, nothing the
    producers or the owner do reaches the multiplexer any more: after any
    sequence of [Open], [Write], [Close], closing of the control channel
    and closed channels being found, its fields are what they were, and
    so is the sink: not one more byte is written to it. *)
Theorem nothing_reaches_the_sink_after_Run_ended w (ops : list Op) :
  running w <> Running ->
  mux (exec ops w) = mux w /\ running (exec ops w) = running w.
Proof.
  revert w. induction ops as [|op ops IH]; intros w Hr; cbn.
  - auto.
  - destruct (step_inert op w Hr) as [Hm Hr1].
    destruct (IH (step op w)) as [Hm2 Hr2]; [congruence|].
    unfold exec in *. split; congruence.
Qed.

Lemma neverReturns_bind_l {A B : Type} (m : M A) (k : A -> M B) :
  neverReturns (W := W) m -> neverReturns (bind m k).
Proof.
  intros Hm w Hr r. unfold bind. specialize (Hm w Hr).
  destruct (m w) as [w1 [a|e|pk|]]; cbn in *; try discriminate.
  exfalso. apply (Hm a). reflexivity.
Qed.

Lemma neverReturns_bind_r {A B : Type} (m : M A) (k : A -> M B) :
  keeps (W := W) sameRunning m -> (forall a, neverReturns (k a)) ->
  neverReturns (bind m k).
Proof.
  intros Hm Hk w Hr r. unfold bind. specialize (Hm w).
  destruct (m w) as [w1 [a|e|pk|]]; cbn in *; try discriminate.
  apply Hk. unfold sameRunning in Hm. congruence.
Qed.

Lemma sendControl_neverReturns (p : ptr) : neverReturns (sendControl p).
Proof.
  intros w Hr r. unfold sendControl.
  destruct (isClosed w _); [discriminate|].
  destruct (selecting w) eqn:Hs; [|discriminate].
  apply selecting_Running in Hs. contradiction.
Qed.

Lemma sendBytes_neverReturns (c : option chan) (b : bytes) :
  neverReturns (sendBytes c b).
Proof.
  intros w Hr r. unfold sendBytes.
  destruct c as [c'|]; [|discriminate].
  destruct (isClosed w c'); [discriminate|].
  destruct (selecting w) eqn:Hs; [|discriminate].
  apply selecting_Running in Hs. contradiction.
Qed.

Ltac same_go := keeps_by (@sameRunning_refl W) (@sameRunning_trans W).

Lemma makeChan_running : keeps (W := W) sameRunning makeChan.
Proof. intros w. reflexivity. Qed.

Lemma assign_running (p : ptr) (f : MuxIn -> MuxIn) :
  keeps (W := W) sameRunning (assign p f).
Proof.
  intros w. unfold assign, bind, deref, modify.
  destruct (heap w !! p); reflexivity.
Qed.

Lemma newHash_running (p : ptr) : keeps (W := W) sameRunning (newHash p).
Proof.
  intros w. unfold newHash, bind, deref, modify.
  destruct (heap w !! p); reflexivity.
Qed.

(** X3.  Once [Run] has ended no producer gets through any more:
    [Open] never returns, [Close] never returns, and neither does a
    [Write] that has to ship the buffer; each stays blocked on its send,
    or panics if its channel has been closed. *)
Theorem producers_hang_after_Run_ended w (p : ptr) :
  running w <> Running ->
  (forall r, snd (MuxIn_Open p w) <> Ret r)
  /\ (forall r, snd (MuxIn_Close p w) <> Ret r)
  /\ (forall m b,
        heap w !! p = Some m -> framed b = true ->
        len (buf m) + len b > bufCap m ->
        forall r, snd (MuxIn_Write p b w) <> Ret r).
Proof.
  intros Hr.
  pose proof makeChan_running. pose proof assign_running.
  pose proof newHash_running.
  split; [|split].
  - revert w Hr. change (neverReturns (MuxIn_Open p)).
    unfold MuxIn_Open.
    do 7 (apply neverReturns_bind_r; [same_go|intros]).
    apply neverReturns_bind_l, sendControl_neverReturns.
  - revert w Hr. change (neverReturns (MuxIn_Close p)).
    unfold MuxIn_Close, bufferWrites.
    apply neverReturns_bind_r; [same_go|intros].
    apply neverReturns_bind_l.
    apply neverReturns_bind_r; [same_go|intros].
    apply neverReturns_bind_l, sendBytes_neverReturns.
  - intros m b Hp Hb Hover. rewrite (Write_framed w p m b Hp Hb).
    apply Z.gtb_gt in Hover. rewrite Hover.
    clear Hp. revert w Hr.
    match goal with
    | |- forall w, _ -> forall r, snd (?c w) <> _ => change (neverReturns c)
    end.
    do 2 apply neverReturns_bind_l. apply sendBytes_neverReturns.
Qed.

(** *** A turn that ends [Run] leaves the producer waiting *)

Lemma sameAck_refl w : sameAck w w.
Proof. reflexivity. Qed.

Lemma sameAck_trans w1 w2 w3 : sameAck w1 w2 -> sameAck w2 w3 -> sameAck w1 w3.
Proof. unfold sameAck. congruence. Qed.

Ltac ack_go := keeps_by (@sameAck_refl) (@sameAck_trans).

Lemma outWrite_ack (p : bytes) : keeps sameAck (outWrite p).
Proof. intros w. unfold outWrite. split_cases. reflexivity. Qed.

Lemma writeFraming_ack (p : bytes) : keeps sameAck (writeFraming p).
Proof. pose proof outWrite_ack. unfold writeFraming. ack_go. Qed.

Lemma hashWrite_ack (p : ptr) (b : bytes) :
  keeps (W := W) sameAck (hashWrite p b).
Proof. intros w. unfold hashWrite. split_cases; reflexivity. Qed.

Lemma formatBody_header_ack (in_ : MuxIn) :
  keeps sameAck (formatBody_header in_).
Proof.
  pose proof writeFraming_ack.
  unfold formatBody_header. ack_go.
Qed.

Lemma ackOnlyOnRet_bind {A B : Type} (m : M A) (k : A -> M B) :
  keeps (W := W) sameAck m -> (forall a, ackOnlyOnRet (k a)) ->
  ackOnlyOnRet (bind m k).
Proof.
  intros Hm Hk w. unfold bind. specialize (Hm w).
  destruct (m w) as [w1 [a|e|pk|]]; cbn in *; try exact Hm.
  specialize (Hk a w1). destruct (k a w1) as [w2 [b|e|pk|]]; cbn in *;
    unfold sameAck in Hm; congruence.
Qed.

Lemma formatBody_record_ackOnlyOnRet (in_ : MuxIn) (b : bytes) :
  ackOnlyOnRet (formatBody_record in_ b).
Proof.
  unfold formatBody_record. apply ackOnlyOnRet_bind; [apply outWrite_ack|].
  intros [n [e|]] w; [reflexivity|].
  unfold sendLen.
  destruct (writeLenChan in_) as [c'|]; [|exact I].
  destruct (isClosed w c'); [reflexivity|exact I].
Qed.

Lemma data_turn_ackOnlyOnRet (i : nat) (b : bytes) :
  ackOnlyOnRet (let* p := insAt i in hashWrite p b;;; formatBody p b).
Proof.
  apply ackOnlyOnRet_bind; [apply (keeps_insAt _ sameAck_refl)|]. intros p.
  apply ackOnlyOnRet_bind; [apply hashWrite_ack|]. intros _.
  unfold formatBody.
  apply ackOnlyOnRet_bind; [apply (keeps_deref _ sameAck_refl)|]. intros in_.
  apply ackOnlyOnRet_bind; [apply formatBody_header_ack|]. intros _.
  apply formatBody_record_ackOnlyOnRet.
Qed.

Lemma sendLen_running (c : option chan) (n : Z) :
  keeps (W := W) sameRunning (sendLen c n).
Proof. intros w. unfold sendLen. split_cases; reflexivity. Qed.

Lemma data_turn_running (i : nat) (b : bytes) :
  keeps sameRunning (let* p := insAt i in hashWrite p b;;; formatBody p b).
Proof.
  pose proof (hashWrite_running (W := W)).
  pose proof formatBody_header_running.
  pose proof outWrite_running. pose proof sendLen_running.
  unfold formatBody, formatBody_record. same_go.
Qed.

(** A turn for a received buffer that ends [Run] sends no
    acknowledgement. *)
Lemma Run_turn_data_ack (i : nat) (b : bytes) w :
  running (Run_turn i (VBytes b) true w) <> running w ->
  ack (Run_turn i (VBytes b) true w) = ack w.
Proof.
  unfold Run_turn. cbn [negb].
  destruct (Nat.eqb i 0); [reflexivity|].
  pose proof (data_turn_running i b w) as Hr.
  pose proof (data_turn_ackOnlyOnRet i b w) as Ha.
  destruct ((let* p := insAt i in hashWrite p b;;; formatBody p b) w)
    as [w1 [a|e|pk|]]; cbn in *; auto.
  intros H. contradiction.
Qed.

Lemma recvLen_blocked w (l : chan) :
  ack w = None -> isClosed w l = false -> recvLen (Some l) w = (w, Blocked).
Proof. intros Ha Hl. unfold recvLen. rewrite Ha, Hl. reflexivity. Qed.

Lemma sendBytes_run w (c : chan) (b : bytes) (i : nat) :
  isClosed w c = false -> selecting w = true ->
  findCase c (selectCases (mux w)) = Some i ->
  sendBytes (Some c) b w = (Run_turn i (VBytes b) true w, Ret tt).
Proof.
  intros Hc Hs Hf. unfold sendBytes. rewrite Hc, Hs, Hf. reflexivity.
Qed.

(** What the producer finds after a turn that ended [Run]. *)
Lemma ended_turn_facts w (p : ptr) (in_ : MuxIn) (l : chan) (i : nat)
    (b : bytes) :
  heap w !! p = Some in_ ->
  isClosed w l = false ->
  selecting w = true ->
  running (Run_turn i (VBytes b) true w) <> Running ->
  (exists h, heap (Run_turn i (VBytes b) true w) !! p = Some (setHash in_ h))
  /\ chans (Run_turn i (VBytes b) true w) = chans w
  /\ recvLen (Some l) (Run_turn i (VBytes b) true w)
     = (Run_turn i (VBytes b) true w, Blocked).
Proof.
  intros Hp Hol Hsel Hend.
  pose proof (Run_turn_mux i (VBytes b) true w) as Hmux.
  pose proof (muxStep_chans _ _ Hmux) as Hch.
  split; [apply (muxStep_heap _ _ Hmux _ _ Hp)|].
  split; [exact Hch|].
  apply recvLen_blocked.
  - rewrite Run_turn_data_ack.
    + unfold selecting in Hsel.
      destruct (running w), (ack w); try discriminate. reflexivity.
    + rewrite (selecting_Running w Hsel). exact Hend.
  - unfold isClosed in *. rewrite Hch. exact Hol.
Qed.

(** X4.  When the turn that takes a producer's buffer ends [Run] (the
    sink or the codec returned an error, a framing write was short, or
    the turn panicked), the multiplexer sends no length back: the
    producer's [Close], and a [Write] that has to ship the buffer, stay
    blocked for ever on the receive, in the world that turn has left,
    with every channel as it was and the buffer of the handle
    untouched. *)
Theorem flush_hangs_when_turn_ends_Run w (p : ptr) (in_ : MuxIn)
    (c l : chan) (i : nat) :
  heap w !! p = Some in_ ->
  writeChan in_ = Some c -> writeLenChan in_ = Some l ->
  isClosed w c = false -> isClosed w l = false ->
  selecting w = true ->
  findCase c (selectCases (mux w)) = Some i ->
  running (Run_turn i (VBytes (buf in_)) true w) <> Running ->
  MuxIn_Close p w = (Run_turn i (VBytes (buf in_)) true w, Blocked)
  /\ (forall b,
        framed b = true -> len (buf in_) + len b > bufCap in_ ->
        MuxIn_Write p b w = (Run_turn i (VBytes (buf in_)) true w, Blocked))
  /\ chans (Run_turn i (VBytes (buf in_)) true w) = chans w
  /\ exists h,
       heap (Run_turn i (VBytes (buf in_)) true w) !! p
       = Some (setHash in_ h).
Proof.
  intros Hp Hc Hl Hoc Hol Hsel Hf Hend.
  destruct (ended_turn_facts w p in_ l i (buf in_) Hp Hol Hsel Hend)
    as ([h Hp1] & Hch & Hblock).
  split; [|split; [|split]].
  - unfold MuxIn_Close, bufferWrites.
    rewrite (run_bind _ _ _ _ _ (deref_eq _ _ _ Hp)).
    rewrite ?bind_assoc.
    rewrite (run_bind _ _ _ _ _ (deref_eq _ _ _ Hp)).
    rewrite ?bind_assoc. rewrite Hc.
    rewrite (run_bind _ _ _ _ _ (sendBytes_run _ _ _ _ Hoc Hsel Hf)).
    rewrite ?bind_assoc.
    rewrite (run_bind _ _ _ _ _ (deref_eq _ _ _ Hp1)).
    rewrite ?bind_assoc.
    cbn [writeLenChan setHash]. rewrite Hl.
    apply run_bind_blocked. exact Hblock.
  - intros b Hb Hover. rewrite (Write_framed w p in_ b Hp Hb).
    apply Z.gtb_gt in Hover. rewrite Hover.
    rewrite ?bind_assoc. rewrite Hc.
    rewrite (run_bind _ _ _ _ _ (sendBytes_run _ _ _ _ Hoc Hsel Hf)).
    rewrite ?bind_assoc.
    rewrite (run_bind _ _ _ _ _ (deref_eq _ _ _ Hp1)).
    rewrite ?bind_assoc.
    cbn [writeLenChan setHash]. rewrite Hl.
    apply run_bind_blocked. exact Hblock.
  - exact Hch.
  - exists h. exact Hp1.
Qed.

End ArchiveMoreFacts.

(** ** A handle before [Open] and after [Close] *)

Section HandleFacts.

Context {Ext : Externals} {W : Type} {WC : WriteCloser W}.
Implicit Types w : World (W := W).

Notation "'let*' x ':=' m 'in' k" := (bind m (fun x => k))
  (at level 10, x pattern, m at level 100, k at level 200).
Notation "m ';;;' k" := (bind m (fun _ => k))
  (at level 100, k at level 200, right associativity).

Lemma deref_Ret_inv w w1 (p : ptr) (m : MuxIn) :
  deref p w = (w1, Ret m) -> w1 = w /\ heap w !! p = Some m.
Proof.
  unfold deref. destruct (heap w !! p); intros H; inversion H; auto.
Qed.

Lemma closeChan_Ret_inv w w1 (c : option chan) (u : unit) :
  closeChan c w = (w1, Ret u) ->
  exists c', c = Some c' /\ isClosed w c' = false
             /\ w1 = setChans w (<[c' := true]> (chans w)).
Proof.
  unfold closeChan. destruct c as [c'|]; [|discriminate].
  destruct (isClosed w c') eqn:E; [discriminate|].
  intros H. injection H as <-. eauto.
Qed.

Lemma sendBytes_closed w (c : chan) (b : bytes) :
  isClosed w c = true -> sendBytes (Some c) b w = (w, Panic ClosedChannel).
Proof. intros H. unfold sendBytes. rewrite H. reflexivity. Qed.

Lemma framed_len (b : bytes) : framed b = true -> 0 < len b.
Proof.
  intros H.
  destruct (framed_inv b H) as (b0 & b1 & b2 & b3 & rest & x & _ & Hs & _).
  lia.
Qed.

(** The flush at the head of [Close], when the lengths agree: the handle
    keeps its channels, its buffer is nil, no channel has changed. *)
Lemma Close_flush_inv w wb (p : ptr) (m : MuxIn) :
  heap w !! p = Some m ->
  (let* muxIn := deref p in
   sendBytes (writeChan muxIn) (buf muxIn);;;
   let* muxIn := deref p in
   let* length := recvLen (writeLenChan muxIn) in
   let* muxIn := deref p in
   if negb (length =? len (buf muxIn)) then ret true
   else assign p (fun m => setBuf m [] 0);;; ret false) w = (wb, Ret false) ->
  chans wb = chans w
  /\ exists h, heap wb !! p = Some (setBuf (setHash m h) [] 0).
Proof.
  intros Hp H.
  rewrite (run_bind _ _ _ _ _ (deref_eq _ _ _ Hp)) in H.
  apply bind_Ret_inv in H as (w1 & [] & H1 & H).
  pose proof (sendBytes_mux (writeChan m) (buf m) w) as Hm1.
  rewrite H1 in Hm1. cbn [fst] in Hm1.
  destruct (muxStep_heap _ _ Hm1 _ _ Hp) as [h1 Hp1].
  rewrite (run_bind _ _ _ _ _ (deref_eq _ _ _ Hp1)) in H.
  apply bind_Ret_inv in H as (w2 & n & H2 & H).
  pose proof (recvLen_mux (writeLenChan (setHash m h1)) w1) as Hm2.
  rewrite H2 in Hm2. cbn [fst] in Hm2.
  destruct (muxStep_heap _ _ Hm2 _ _ Hp1) as [h2 Hp2].
  cbn [setHash writeChan writeLenChan buf bufCap Intent] in Hp2.
  rewrite (run_bind _ _ _ _ _ (deref_eq _ _ _ Hp2)) in H.
  destruct (negb _); [discriminate|].
  rewrite (run_bind _ _ _ _ _ (assign_eq _ _ _ _ Hp2)) in H.
  injection H as <-. cbn [chans heap setHeap].
  split.
  - rewrite (muxStep_chans _ _ Hm2). apply (muxStep_chans _ _ Hm1).
  - exists h2. apply list_lookup_insert_eq. eapply lookup_lt_Some; eauto.
Qed.

(** X7.  A handle is of no use after [Close] has returned nil: its
    write channel is closed and its buffer is nil with no capacity, so a
    second [Close], and every well-framed [Write], ends in the panic of
    a send on a closed channel. *)
Theorem use_after_Close_panics w w' (p : ptr) (m : MuxIn) (c : chan) :
  heap w !! p = Some m ->
  writeChan m = Some c -> (c < length (chans w))%nat ->
  MuxIn_Close p w = (w', Ret None) ->
  MuxIn_Close p w' = (w', Panic ClosedChannel)
  /\ forall b, framed b = true ->
               MuxIn_Write p b w' = (w', Panic ClosedChannel).
Proof.
  intros Hp Hc Hlt H.
  unfold MuxIn_Close, bufferWrites in H.
  rewrite (run_bind _ _ _ _ _ (deref_eq _ _ _ Hp)) in H.
  apply bind_Ret_inv in H as (wb & short & Hflush & H).
  destruct short; [discriminate|].
  destruct (Close_flush_inv w wb p m Hp Hflush) as (Hch & h & Hpb).
  set (mb := setBuf (setHash m h) [] 0) in *.
  rewrite (run_bind _ _ _ _ _ (deref_eq _ _ _ Hpb)) in H.
  apply bind_Ret_inv in H as (w4 & [] & H4 & H).
  apply closeChan_Ret_inv in H4 as (c1 & Hc1 & Hopen1 & ->).
  assert (c1 = c) as -> by (cbn in Hc1; congruence).
  assert (Hpb4 : heap (setChans wb (<[c:=true]> (chans wb))) !! p = Some mb)
    by exact Hpb.
  rewrite (run_bind _ _ _ _ _ (deref_eq _ _ _ Hpb4)) in H.
  apply bind_Ret_inv in H as (w5 & [] & H5 & H).
  apply closeChan_Ret_inv in H5 as (l & Hl & Hopen2 & ->).
  injection H as <-.
  match goal with
  | |- MuxIn_Close p ?x = _ /\ _ => set (wz := x)
  end.
  assert (Hpz : heap wz !! p = Some mb) by exact Hpb.
  assert (Hclosed : isClosed wz c = true).
  { unfold isClosed, wz. cbn [chans setChans].
    destruct (decide (l = c)) as [->|Hne].
    - rewrite list_lookup_insert_eq; [reflexivity|].
      rewrite length_insert, Hch. exact Hlt.
    - rewrite list_lookup_insert_ne by exact Hne.
      rewrite list_lookup_insert_eq; [reflexivity|].
      rewrite Hch. exact Hlt. }
  split.
  - unfold MuxIn_Close, bufferWrites.
    rewrite (run_bind _ _ _ _ _ (deref_eq _ _ _ Hpz)).
    apply run_bind_panic. rewrite ?bind_assoc.
    rewrite (run_bind _ _ _ _ _ (deref_eq _ _ _ Hpz)).
    apply run_bind_panic.
    cbn [mb writeChan setBuf setHash]. rewrite Hc.
    apply sendBytes_closed. exact Hclosed.
  - intros b Hb. rewrite (Write_framed wz p mb b Hpz Hb).
    pose proof (framed_len b Hb) as Hlen.
    cbn [mb buf bufCap setBuf setHash writeChan].
    replace (len (@nil Byte.byte) + len b >? 0) with true
      by (symmetry; apply Z.gtb_gt; unfold len at 1; cbn; lia).
    apply run_bind_panic. apply run_bind_panic.
    rewrite Hc. apply sendBytes_closed. exact Hclosed.
Qed.

(** X8.  A handle that has never been opened has nil channels and a nil
    buffer: [Close] on it, and every well-framed [Write], blocks for
    ever on the send to a nil channel, and nothing changes. *)
Theorem unopened_handle_blocks w (p : ptr) (it : intents.Intent) :
  heap w !! p = Some (zeroMuxIn it) ->
  MuxIn_Close p w = (w, Blocked)
  /\ forall b, framed b = true -> MuxIn_Write p b w = (w, Blocked).
Proof.
  intros Hp. split.
  - unfold MuxIn_Close, bufferWrites.
    rewrite (run_bind _ _ _ _ _ (deref_eq _ _ _ Hp)).
    apply run_bind_blocked. rewrite ?bind_assoc.
    rewrite (run_bind _ _ _ _ _ (deref_eq _ _ _ Hp)).
    reflexivity.
  - intros b Hb. rewrite (Write_framed w p _ b Hp Hb).
    pose proof (framed_len b Hb) as Hlen.
    cbn [zeroMuxIn buf bufCap writeChan].
    replace (len (@nil Byte.byte) + len b >? 0) with true
      by (symmetry; apply Z.gtb_gt; unfold len at 1; cbn; lia).
    reflexivity.
Qed.

(** *** No operation loses a handle or changes its intent *)

Lemma handlesKept_refl w : handlesKept w w.
Proof. intros q m H. eauto. Qed.

Lemma handlesKept_trans w1 w2 w3 :
  handlesKept w1 w2 -> handlesKept w2 w3 -> handlesKept w1 w3.
Proof.
  intros H1 H2 q m Hq. destruct (H1 q m Hq) as (m1 & Hq1 & E1).
  destruct (H2 q m1 Hq1) as (m2 & Hq2 & E2). exists m2.
  split; [exact Hq2 | congruence].
Qed.

Lemma mux_handlesKept {A : Type} (m : M A) :
  keeps (W := W) muxStep m -> keeps handlesKept m.
Proof.
  intros H w q y Hq. destruct (muxStep_heap _ _ (H w) q y Hq) as [h Hh].
  exists (setHash y h). split; [exact Hh | reflexivity].
Qed.

Lemma same_heap_handlesKept {A : Type} (m : M A) :
  (forall w, heap (fst (m w)) = heap w) -> keeps (W := W) handlesKept m.
Proof. intros H w q y Hq. rewrite H. eauto. Qed.

Lemma assign_handlesKept (p : ptr) (f : MuxIn -> MuxIn) :
  (forall m, Intent (f m) = Intent m) ->
  keeps (W := W) handlesKept (assign p f).
Proof.
  intros Hf w q y Hq. unfold assign, bind, deref, modify.
  destruct (heap w !! p) as [m|] eqn:Hp; cbn; [|eauto].
  destruct (decide (p = q)) as [->|Hne].
  - rewrite list_lookup_insert_eq by (eapply lookup_lt_Some; eauto).
    eexists. split; [reflexivity|]. rewrite Hf. congruence.
  - rewrite list_lookup_insert_ne by assumption. eauto.
Qed.

Lemma newHash_handlesKept (p : ptr) : keeps (W := W) handlesKept (newHash p).
Proof.
  intros w q y Hq. unfold newHash, bind, deref, modify.
  destruct (heap w !! p) as [m|] eqn:Hp; cbn; [|eauto].
  destruct (decide (p = q)) as [->|Hne].
  - rewrite list_lookup_insert_eq by (eapply lookup_lt_Some; eauto).
    eexists. split; [reflexivity|]. cbn. congruence.
  - rewrite list_lookup_insert_ne by assumption. eauto.
Qed.

Ltac kept_go :=
  repeat first
    [ solve [ auto ]
    | match goal with
      | |- keeps _ (match ?x with _ => _ end) => destruct x
      | |- keeps _ (let (_, _) := ?x in _) => destruct x
      end
    | apply (keeps_ret _ handlesKept_refl)
    | apply (keeps_throw _ handlesKept_refl)
    | apply (keeps_panic _ handlesKept_refl)
    | apply (keeps_get _ handlesKept_refl)
    | apply (keeps_deref _ handlesKept_refl)
    | apply (keeps_at _ handlesKept_refl)
    | apply (keeps_bind _ handlesKept_trans); [ | intros ] ].

Lemma step_handlesKept (op : Op) w : handlesKept w (step op w).
Proof.
  pose proof (same_heap_handlesKept makeChan (fun w => eq_refl)) as H1.
  assert (H2 : forall c, keeps (W := W) handlesKept (closeChan c)).
  { intros c. apply same_heap_handlesKept. intros w0. unfold closeChan.
    destruct c as [c'|]; [destruct (isClosed w0 c')|]; reflexivity. }
  pose proof (fun c => mux_handlesKept _ (recvLen_mux c)) as H3.
  pose proof (fun p => mux_handlesKept _ (sendControl_mux p)) as H4.
  pose proof (fun c b => mux_handlesKept _ (sendBytes_mux c b)) as H5.
  pose proof newHash_handlesKept as H6.
  destruct op as [p|p b|p| |i]; cbn [step].
  - pose proof (fun c l => assign_handlesKept p (fun m => setWriteChans m c l)
                             (fun m => eq_refl)).
    pose proof (fun b c => assign_handlesKept p (fun m => setBuf m b c)
                             (fun m => eq_refl)).
    assert (Hk : keeps handlesKept (MuxIn_Open p))
      by (unfold MuxIn_Open; kept_go).
    apply Hk.
  - pose proof (assign_handlesKept p (fun m => setBuf m [] (bufCap m))
                  (fun m => eq_refl)).
    pose proof (assign_handlesKept p (fun m => append_ m b)
                  (fun m => eq_refl)).
    assert (Hk : keeps handlesKept (MuxIn_Write p b))
      by (unfold MuxIn_Write; kept_go).
    apply Hk.
  - pose proof (fun b c => assign_handlesKept p (fun m => setBuf m b c)
                             (fun m => eq_refl)).
    assert (Hk : keeps handlesKept (MuxIn_Close p))
      by (unfold MuxIn_Close; kept_go).
    apply Hk.
  - apply (H2 (Some (Control (mux w)))).
  - unfold selectEOF.
    destruct (selectCases (mux w) !! i) as [[c|]|];
      try apply handlesKept_refl.
    destruct (isClosed w c && selecting w); [|apply handlesKept_refl].
    intros q y Hq.
    destruct (muxStep_heap _ _ (Run_turn_mux i VZero false w) q y Hq)
      as [h Hh].
    exists (setHash y h). split; [exact Hh | reflexivity].
Qed.

Lemma exec_handlesKept (ops : list Op) w : handlesKept w (exec ops w).
Proof.
  revert w. induction ops as [|op ops IH]; intros w; cbn.
  - apply handlesKept_refl.
  - eapply handlesKept_trans; [apply step_handlesKept | apply IH].
Qed.

Lemma returnsOnly_bind {A B : Type} (Q : B -> Prop) (m : M A)
    (k : A -> M B) :
  (forall a, returnsOnly (W := W) Q (k a)) -> returnsOnly Q (bind m k).
Proof.
  intros Hk w w' b H. apply bind_Ret_inv in H as (w1 & a & _ & H).
  exact (Hk a _ _ _ H).
Qed.

Lemma returnsOnly_ret {A : Type} (Q : A -> Prop) (a : A) :
  Q a -> returnsOnly (W := W) Q (ret a).
Proof. intros Ha w w' b H. injection H as _ <-. exact Ha. Qed.

Lemma returnsOnly_panic {A : Type} (Q : A -> Prop) (k : PanicKind) :
  returnsOnly (W := W) Q (panic k).
Proof. intros w w' b H. discriminate. Qed.

(** X17.  What [Write] and [Open] can return.  Every return of [Write]
    is either the length of its input with a nil error, or 0 with
    [io.ErrShortWrite]: it never reports a partial count, and it passes
    on no error of the sink.  Every return of [Open] is nil. *)
Theorem Write_returns_all_or_short w w' (p : ptr) (b : bytes) (n : Z)
    (e : option Error) :
  (MuxIn_Write p b w = (w', Ret (n, e)) ->
   (n = len b /\ e = None) \/ (n = 0 /\ e = Some ErrShortWrite))
  /\ (MuxIn_Open p w = (w', Ret e) -> e = None).
Proof.
  split.
  - revert w w'.
    set (Q := fun r : Z * option Error =>
                (fst r = len b /\ snd r = None)
                \/ (fst r = 0 /\ snd r = Some ErrShortWrite)).
    assert (H : returnsOnly Q (MuxIn_Write p b)).
    { unfold MuxIn_Write, bufferWrites.
      do 4 (apply returnsOnly_bind; intros).
      destruct (len b <? _); [apply returnsOnly_panic|].
      apply returnsOnly_bind; intros last.
      destruct (negb _); [apply returnsOnly_panic|].
      apply returnsOnly_bind; intros muxIn.
      apply returnsOnly_bind; intros [|].
      - apply returnsOnly_ret. right. split; reflexivity.
      - apply returnsOnly_bind; intros _.
        apply returnsOnly_ret. left. split; reflexivity. }
    intros w w' Hr. exact (H w w' (n, e) Hr).
  - intros Hr.
    assert (H : returnsOnly (fun r : option Error => r = None) (MuxIn_Open p)).
    { unfold MuxIn_Open.
      do 8 (apply returnsOnly_bind; intros).
      apply returnsOnly_ret. reflexivity. }
    exact (H w w' e Hr).
Qed.

End HandleFacts.

(** ** [Run] never panics *)

Section SafetyFacts.

Context {Ext : Externals} {W : Type} {WC : WriteCloser W}.
Implicit Types w : World (W := W).

Notation "'let*' x ':=' m 'in' k" := (bind m (fun x => k))
  (at level 10, x pattern, m at level 100, k at level 200).
Notation "m ';;;' k" := (bind m (fun _ => k))
  (at level 100, k at level 200, right associativity).

Lemma sameHandles_refl w : sameHandles w w.
Proof. split; intros q y H; eauto 10. Qed.

Lemma sameHandles_trans w1 w2 w3 :
  sameHandles w1 w2 -> sameHandles w2 w3 -> sameHandles w1 w3.
Proof.
  intros [F1 B1] [F2 B2]. split.
  - intros q y H. destruct (F1 q y H) as (y1 & H1 & E1 & E1' & Hh1).
    destruct (F2 q y1 H1) as (y2 & H2 & E2 & E2' & Hh2).
    exists y2. repeat split; try congruence. auto.
  - intros q y H. destruct (B2 q y H) as (y2 & H2 & E2 & E2').
    destruct (B1 q y2 H2) as (y1 & H1 & E1 & E1').
    exists y1. repeat split; congruence.
Qed.

Lemma sameHandles_same_heap w w' : heap w' = heap w -> sameHandles w w'.
Proof. intros H. split; intros q y Hq; rewrite H in *; eauto 10. Qed.

Lemma sameHandles_insert w (p : ptr) (m m' : MuxIn) :
  heap w !! p = Some m ->
  writeChan m' = writeChan m -> writeLenChan m' = writeLenChan m ->
  (hash m <> None -> hash m' <> None) ->
  sameHandles w (setHeap w (<[p := m']> (heap w))).
Proof.
  intros Hp E1 E2 Hh.
  assert (Hlt : (p < length (heap w))%nat) by (eapply lookup_lt_Some; eauto).
  split; intros q y Hq; cbn [heap setHeap] in *.
  - destruct (decide (p = q)) as [->|Hne].
    + rewrite list_lookup_insert_eq by exact Hlt.
      assert (y = m) as -> by congruence. eauto 10.
    + rewrite list_lookup_insert_ne by exact Hne. eauto 10.
  - destruct (decide (p = q)) as [->|Hne].
    + rewrite list_lookup_insert_eq in Hq by exact Hlt.
      injection Hq as <-. eauto 10.
    + rewrite list_lookup_insert_ne in Hq by exact Hne. eauto 10.
Qed.

Lemma muxStep_sameHandles w w' : muxStep w w' -> sameHandles w w'.
Proof.
  induction 1.
  - apply sameHandles_refl.
  - eapply sameHandles_trans; eassumption.
  - apply sameHandles_same_heap. reflexivity.
  - apply sameHandles_same_heap. reflexivity.
  - apply sameHandles_same_heap. reflexivity.
  - eapply sameHandles_trans;
      [apply (sameHandles_insert w p in_
                (setHash in_ (Some (crc64.Write d b))));
         [assumption | reflexivity | reflexivity | discriminate]|].
    apply sameHandles_same_heap. reflexivity.
  - apply sameHandles_same_heap. reflexivity.
Qed.

(** A world with the same select cases, the same channels and the same
    handles is as safe. *)
Lemma Safe_similar w w' :
  Safe w ->
  sameCases w w' -> chans w' = chans w -> sameHandles w w' ->
  running w' <> Crashed ->
  Safe w'.
Proof.
  intros [S1 S2 S3 S4 S5 S6 S7 S8] (Ei & Es & Ec) Ech [F B] Hr.
  constructor; rewrite ?Ei, ?Es, ?Ec, ?Ech; try assumption.
  - intros i e sc Hi He Hsc.
    destruct (S4 i e sc Hi He Hsc) as (p & c & m & -> & -> & Hp & Hh & Hc & Ho).
    destruct (F p m Hp) as (m' & Hp' & _ & _ & Hh').
    exists p, c, m'. repeat split; auto.
    intros q mq Hq Hw. destruct (B q mq Hq) as (y & Hy & E1 & _).
    apply (Ho q y Hy). congruence.
  - intros q mq c Hq Hc. destruct (B q mq Hq) as (y & Hy & E1 & E2).
    rewrite <- E2. apply (S5 q y c Hy). congruence.
  - intros q mq c Hq Hc. destruct (B q mq Hq) as (y & Hy & E1 & E2).
    unfold isClosed. rewrite Ech. apply (S6 q y c Hy). congruence.
Qed.

Lemma keepsSafe_refl w : keepsSafe w w.
Proof. intros H. exact H. Qed.

Lemma keepsSafe_trans w1 w2 w3 :
  keepsSafe w1 w2 -> keepsSafe w2 w3 -> keepsSafe w1 w3.
Proof. unfold keepsSafe. auto. Qed.

Ltac keeps_via rf tr :=
  repeat first
    [ solve [ auto ]
    | match goal with
      | |- keeps _ (match ?x with _ => _ end) => destruct x
      | |- keeps _ (let (_, _) := ?x in _) => destruct x
      end
    | apply (keeps_ret _ rf) | apply (keeps_throw _ rf)
    | apply (keeps_panic _ rf) | apply (keeps_get _ rf)
    | apply (keeps_deref _ rf) | apply (keeps_insAt _ rf)
    | apply (keeps_marshal _ rf) | apply (keeps_at _ rf)
    | apply (keeps_bind _ tr); [ | intros ] ].

Ltac safe_go := keeps_via (@keepsSafe_refl) (@keepsSafe_trans).

(** What the multiplexer does within a turn, short of changing its
    slices or its state, keeps the world safe. *)
Lemma quiet_mux_safe {A : Type} (m : M A) :
  keeps (W := W) muxStep m -> keeps sameCases m -> keeps sameRunning m ->
  keeps keepsSafe m.
Proof.
  intros Hm Hc Hr w Hs.
  apply (Safe_similar w _ Hs (Hc w) (muxStep_chans _ _ (Hm w))
           (muxStep_sameHandles _ _ (Hm w))).
  rewrite (Hr w). apply (safe_running w Hs).
Qed.

Lemma complete_safe (e : option Error) w : Safe w -> Safe (complete e w).
Proof.
  intros Hs. apply (Safe_similar w _ Hs).
  - repeat split.
  - reflexivity.
  - apply sameHandles_same_heap. reflexivity.
  - discriminate.
Qed.

(** *** No panic within a turn *)

Lemma neverPanics_bind {A B : Type} (m : M A) (k : A -> M B) :
  neverPanics (W := W) m -> (forall a, neverPanics (k a)) ->
  neverPanics (bind m k).
Proof.
  intros Hm Hk w pk. unfold bind. specialize (Hm w).
  destruct (m w) as [w1 [a|e|pk'|]]; cbn in *; try discriminate.
  - apply Hk.
  - exfalso. apply (Hm pk'). reflexivity.
Qed.

Lemma bind_noPanic_at {A B : Type} (m : M A) (k : A -> M B) w :
  (forall pk, snd (m w) <> Panic pk) ->
  (forall w1 a, m w = (w1, Ret a) -> forall pk, snd (k a w1) <> Panic pk) ->
  forall pk, snd (bind m k w) <> Panic pk.
Proof.
  intros Hm Hk pk. unfold bind.
  destruct (m w) as [w1 [a|e|pk'|]] eqn:E; cbn in *; try discriminate.
  - apply (Hk w1 a eq_refl).
  - exfalso. apply (Hm pk'). reflexivity.
Qed.

Lemma outWrite_neverPanics (p : bytes) : neverPanics (outWrite p).
Proof.
  intros w pk. unfold outWrite.
  destruct (wcWrite (Out (mux w)) p). discriminate.
Qed.

Lemma writeFraming_neverPanics (p : bytes) : neverPanics (writeFraming p).
Proof.
  unfold writeFraming. apply neverPanics_bind; [apply outWrite_neverPanics|].
  intros [l [e|]]; [|destruct (negb _)]; intros w pk; discriminate.
Qed.

Lemma marshal_neverPanics (h : NamespaceHeader) :
  neverPanics (W := W) (marshal h).
Proof. intros w pk. unfold marshal. destruct (Marshal h); discriminate. Qed.

Lemma formatBody_header_neverPanics (in_ : MuxIn) :
  neverPanics (formatBody_header in_).
Proof.
  unfold formatBody_header.
  apply neverPanics_bind; [intros w pk; discriminate|]. intros w0.
  apply neverPanics_bind; [|intros _ w pk; discriminate].
  destruct (negb _); [|intros w pk; discriminate].
  apply neverPanics_bind.
  - destruct (negb _); [apply writeFraming_neverPanics|intros w pk; discriminate].
  - intros _. apply neverPanics_bind;
      [apply marshal_neverPanics | intros; apply writeFraming_neverPanics].
Qed.

Lemma hashWrite_Ret w (p : ptr) (in_ : MuxIn) (b : bytes) :
  heap w !! p = Some in_ -> hash in_ <> None ->
  exists w1, hashWrite p b w = (w1, Ret tt).
Proof.
  intros Hp Hh. unfold hashWrite. rewrite Hp.
  destruct (hash in_); [eauto | contradiction].
Qed.

Lemma headerForEOF_Ret w (p : ptr) (in_ : MuxIn) :
  heap w !! p = Some in_ -> hash in_ <> None ->
  exists w1 h, headerForEOF p w = (w1, Ret h).
Proof.
  intros Hp Hh. unfold headerForEOF. rewrite Hp.
  destruct (hash in_); [eauto | contradiction].
Qed.

(** The turn for a received buffer does not panic when the handle is
    there with a digest and an open length channel. *)
Lemma data_turn_noPanic w (p : ptr) (in_ : MuxIn) (l : chan) (b : bytes) :
  heap w !! p = Some in_ -> hash in_ <> None ->
  writeLenChan in_ = Some l -> isClosed w l = false ->
  forall pk,
    snd ((uptoRecord p b;;; let* in_ := deref p in formatBody_record in_ b) w)
    <> Panic pk.
Proof.
  intros Hp Hh Hl Hopen.
  apply bind_noPanic_at.
  - unfold uptoRecord. apply bind_noPanic_at.
    + destruct (hashWrite_Ret w p in_ b Hp Hh) as [w1 E]. rewrite E.
      discriminate.
    + intros w1 [] E.
      pose proof (hashWrite_mux p b w) as Hm. rewrite E in Hm. cbn in Hm.
      destruct (muxStep_sameHandles _ _ Hm) as [F _].
      destruct (F p in_ Hp) as (y & Hy & _).
      rewrite (run_bind _ _ _ _ _ (deref_eq _ _ _ Hy)).
      apply formatBody_header_neverPanics.
  - intros w1 [] E.
    pose proof (uptoRecord_mux p b w) as Hm. rewrite E in Hm. cbn in Hm.
    destruct (muxStep_sameHandles _ _ Hm) as [F _].
    destruct (F p in_ Hp) as (y & Hy & _ & Hyl & _).
    rewrite (run_bind _ _ _ _ _ (deref_eq _ _ _ Hy)).
    rewrite (formatBody_record_eq w1 y b l).
    + destruct (wcWrite (Out (mux w1)) b) as [o [n [e|]]]; discriminate.
    + congruence.
    + unfold isClosed in *. rewrite (muxStep_chans _ _ Hm). exact Hopen.
Qed.

Lemma formatEOF_noPanic w (i : nat) (p : ptr) (in_ : MuxIn) :
  heap w !! p = Some in_ -> hash in_ <> None ->
  forall pk, snd (formatEOF i p w) <> Panic pk.
Proof.
  intros Hp Hh. unfold formatEOF.
  rewrite (run_bind _ _ _ _ _ (eq_refl : get w = (w, Ret w))).
  apply bind_noPanic_at.
  - destruct (negb _); [apply writeFraming_neverPanics | discriminate].
  - intros w1 [] E.
    assert (Hm : muxStep w w1).
    { destruct (negb _).
      - pose proof (writeFraming_mux terminatorBytes w) as H.
        rewrite E in H. exact H.
      - injection E as <-. apply ms_refl. }
    destruct (muxStep_sameHandles _ _ Hm) as [F _].
    destruct (F p in_ Hp) as (y & Hy & _ & _ & Hyh).
    destruct (headerForEOF_Ret w1 p y Hy (Hyh Hh)) as (w2 & h & E2).
    rewrite (run_bind _ _ _ _ _ E2).
    apply neverPanics_bind; [apply marshal_neverPanics|]. intros eh.
    apply neverPanics_bind; intros; apply writeFraming_neverPanics.
Qed.

(** *** The turns keep the world safe *)

Lemma data_turn_quiet (p : ptr) (b : bytes) :
  keeps keepsSafe
    (uptoRecord p b;;; let* in_ := deref p in formatBody_record in_ b).
Proof.
  apply quiet_mux_safe.
  - pose proof uptoRecord_mux. pose proof formatBody_record_mux.
    keeps_via (@ms_refl W) (@ms_trans W).
  - pose proof (hashWrite_cases (W := W)). pose proof writeFraming_cases.
    pose proof outWrite_cases. pose proof (sendLen_cases (W := W)).
    unfold uptoRecord, formatBody_header, formatBody_record.
    keeps_via (@sameCases_refl W) (@sameCases_trans W).
  - pose proof uptoRecord_running. pose proof outWrite_running.
    pose proof (sendLen_running (W := W)).
    unfold formatBody_record.
    keeps_via (@sameRunning_refl W) (@sameRunning_trans W).
Qed.

Lemma headerForEOF_running (p : ptr) :
  keeps (W := W) sameRunning (headerForEOF p).
Proof.
  intros w. unfold headerForEOF.
  destruct (heap w !! p) as [in_|]; [destruct (hash in_)|]; reflexivity.
Qed.

Lemma formatEOF_quiet (i : nat) (p : ptr) : keeps keepsSafe (formatEOF i p).
Proof.
  apply quiet_mux_safe.
  - apply formatEOF_mux.
  - apply formatEOF_cases.
  - pose proof writeFraming_running. pose proof headerForEOF_running.
    unfold formatEOF.
    keeps_via (@sameRunning_refl W) (@sameRunning_trans W).
Qed.

Lemma findCase_lookup (c : chan) (cases : list (option chan)) (i : nat) :
  findCase c cases = Some i -> cases !! i = Some (Some c).
Proof.
  revert i. induction cases as [|x cases IH]; intros i H; [discriminate|].
  cbn in H. destruct x as [c'|].
  - destruct (Nat.eqb c c') eqn:E.
    + apply Nat.eqb_eq in E. injection H as <-. subst. reflexivity.
    + destruct (findCase c cases); [|discriminate].
      injection H as <-. cbn. apply IH. reflexivity.
  - destruct (findCase c cases); [|discriminate].
    injection H as <-. cbn. apply IH. reflexivity.
Qed.

Lemma findCase_nonzero (c : chan) (cases : list (option chan)) (i : nat) :
  cases !! 0%nat = Some (Some 0%nat) -> c <> 0%nat ->
  findCase c cases = Some i -> i <> 0%nat.
Proof.
  intros Hh Hc Hf. destruct cases as [|x cases]; [discriminate|].
  cbn in Hh. injection Hh as ->. cbn in Hf.
  destruct (Nat.eqb c 0) eqn:E; [apply Nat.eqb_eq in E; contradiction|].
  destruct (findCase c cases); [|discriminate].
  injection Hf as <-. discriminate.
Qed.

(** The turn for a buffer sent by a handle on its write channel. *)
Lemma Run_turn_data_safe w (q : ptr) (mq : MuxIn) (c : chan) (i : nat)
    (b : bytes) :
  Safe w ->
  heap w !! q = Some mq -> writeChan mq = Some c -> isClosed w c = false ->
  findCase c (selectCases (mux w)) = Some i ->
  Safe (Run_turn i (VBytes b) true w).
Proof.
  intros Hs Hq Hc Hopen Hf.
  destruct (safe_handles w Hs q mq c Hq Hc) as (_ & Hge & _ & Hl).
  assert (Hi : i <> 0%nat)
    by (apply (findCase_nonzero c _ i (safe_head w Hs)); [lia | exact Hf]).
  pose proof (findCase_lookup c _ i Hf) as Hsc.
  assert (Hlt : (i < length (ins (mux w)))%nat)
    by (rewrite (safe_len w Hs); eapply lookup_lt_Some; eauto).
  destruct (lookup_lt_is_Some_2 _ _ Hlt) as [e He].
  destruct (safe_cases w Hs i e _ Hi He Hsc)
    as (p & c' & m & -> & [= <-] & Hp & Hh & _ & Ho).
  assert (q = p) as -> by (apply (Ho q mq Hq Hc)).
  assert (mq = m) as -> by congruence.
  assert (Hlopen : isClosed w (S c) = false).
  { destruct (isClosed w (S c)) eqn:E; [|reflexivity].
    rewrite (safe_acks w Hs p m c Hp Hc E) in Hopen. discriminate. }
  rewrite (data_turn_eq w i p b Hi He).
  pose proof (data_turn_quiet p b w Hs) as Hw.
  pose proof (data_turn_noPanic w p m (S c) b Hp Hh Hl Hlopen) as Hnp.
  destruct ((uptoRecord p b;;; let* in_ := deref p in formatBody_record in_ b) w)
    as [w1 [[]|e|pk|]]; cbn in *.
  - exact Hw.
  - apply complete_safe. exact Hw.
  - exfalso. apply (Hnp pk). reflexivity.
  - exact Hw.
Qed.

Lemma lookup_remove {A : Type} (l : list A) (i j : nat) :
  remove i l !! j = if (j <? i)%nat then l !! j else l !! S j.
Proof.
  unfold remove. revert i j. induction l as [|x l IH]; intros i j.
  - rewrite take_nil, drop_nil. cbn [app]. rewrite !lookup_nil.
    destruct (j <? i)%nat; reflexivity.
  - destruct i as [|i]; [reflexivity|].
    destruct j as [|j]; [reflexivity|].
    cbn [take drop app]. cbn [lookup list_lookup].
    change ((take i l ++ drop (S i) l) !! j
            = if (S j <? S i)%nat then l !! j else l !! S j).
    rewrite IH. reflexivity.
Qed.

(** Taking a data case out of both slices. *)
Lemma Safe_remove w (i : nat) (ns : string) :
  Safe w -> i <> 0%nat ->
  Safe (setMux w
          (setCases (setCurrentNamespace (mux w) ns)
             (remove i (ins (mux w))) (remove i (selectCases (mux w))))).
Proof.
  intros [S1 S2 S3 S4 S5 S6 S7 S8] Hi.
  constructor; cbn [mux setMux setCases setCurrentNamespace Control ins
                    selectCases heap chans running]; try assumption.
  - apply length_remove. exact S2.
  - rewrite remove_head by exact Hi. exact S3.
  - intros j e sc Hj He Hsc. rewrite lookup_remove in He, Hsc.
    destruct (j <? i)%nat; [apply (S4 j e sc) | apply (S4 (S j) e sc)];
      auto.
Qed.

(** The turn for a closed data channel. *)
Lemma Run_turn_eof_safe w (i : nat) (v : Value) :
  Safe w -> i <> 0%nat -> (i < length (selectCases (mux w)))%nat ->
  Safe (Run_turn i v false w).
Proof.
  intros Hs Hi Hlt.
  destruct (lookup_lt_is_Some_2 _ _ Hlt) as [sc Hsc].
  rewrite <- (safe_len w Hs) in Hlt.
  destruct (lookup_lt_is_Some_2 _ _ Hlt) as [e He].
  destruct (safe_cases w Hs i e sc Hi He Hsc)
    as (p & c & m & -> & -> & Hp & Hh & _ & _).
  unfold Run_turn. apply Nat.eqb_neq in Hi as Hi'. rewrite Hi'. cbn [negb].
  rewrite (run_bind _ _ _ _ _ (insAt_eq _ _ _ He)).
  pose proof (formatEOF_quiet i p w Hs) as Hw.
  pose proof (formatEOF_noPanic w i p m Hp Hh) as Hnp.
  destruct (formatEOF i p w) as [w1 [[]|e|pk|]]; cbn in *.
  - apply Safe_remove; assumption.
  - apply complete_safe. exact Hw.
  - exfalso. apply (Hnp pk). reflexivity.
  - exact Hw.
Qed.

(** The turn for the end of the control channel. *)
Lemma Run_turn_control_eof_safe w (v : Value) :
  Safe w -> Safe (Run_turn 0 v false w).
Proof.
  intros Hs. unfold Run_turn. cbn [Nat.eqb negb].
  assert (H : Safe (setMux w (setOut (mux w) (fst (wcClose (Out (mux w))))))).
  { apply (Safe_similar w _ Hs).
    - repeat split.
    - reflexivity.
    - apply sameHandles_same_heap. reflexivity.
    - apply (safe_running w Hs). }
  destruct (negb _); apply complete_safe; exact H.
Qed.

(** *** The producers keep the world safe *)

Lemma recvLen_safe (c : option chan) :
  keeps (W := W) keepsSafe (recvLen c).
Proof.
  apply quiet_mux_safe.
  - apply recvLen_mux.
  - intros w. unfold recvLen.
    destruct c as [c'|]; [|repeat split].
    destruct (ack w) as [[[c''|] n]|]; try destruct (Nat.eqb c' c'');
      try destruct (isClosed w c'); repeat split.
  - intros w. unfold recvLen.
    destruct c as [c'|]; [|reflexivity].
    destruct (ack w) as [[[c''|] n]|]; try destruct (Nat.eqb c' c'');
      try destruct (isClosed w c'); reflexivity.
Qed.

Lemma assign_safe (p : ptr) (f : MuxIn -> MuxIn) :
  (forall m, writeChan (f m) = writeChan m) ->
  (forall m, writeLenChan (f m) = writeLenChan m) ->
  (forall m, hash (f m) = hash m) ->
  keeps (W := W) keepsSafe (assign p f).
Proof.
  intros H1 H2 H3 w Hs. unfold assign, bind, deref, modify.
  destruct (heap w !! p) as [m|] eqn:Hp; cbn [fst]; [|exact Hs].
  apply (Safe_similar w _ Hs).
  - repeat split.
  - reflexivity.
  - apply (sameHandles_insert w p m (f m) Hp (H1 m) (H2 m)).
    rewrite H3. auto.
  - apply (safe_running w Hs).
Qed.

Lemma sendBytes_safe_at w (q : ptr) (mq : MuxIn) (b : bytes) :
  heap w !! q = Some mq -> keepsSafe w (fst (sendBytes (writeChan mq) b w)).
Proof.
  intros Hq Hs. unfold sendBytes.
  destruct (writeChan mq) as [c|] eqn:Hc; [|exact Hs].
  destruct (isClosed w c) eqn:Hopen; [exact Hs|].
  destruct (selecting w); [|exact Hs].
  destruct (findCase c _) as [i|] eqn:Hf; [|exact Hs].
  apply (Run_turn_data_safe w q mq c i b Hs Hq Hc Hopen Hf).
Qed.

Lemma keeps_deref_at (p : ptr) {A : Type} (k : MuxIn -> M A) :
  (forall w m, heap w !! p = Some m -> keepsSafe w (fst (k m w))) ->
  keeps keepsSafe (let* m := deref p in k m).
Proof.
  intros H w. unfold bind, deref.
  destruct (heap w !! p) as [m|] eqn:Hp; [apply H; exact Hp|].
  apply keepsSafe_refl.
Qed.

Lemma keepsSafe_bind_at {A B : Type} (m : M A) (k : A -> M B) w :
  keepsSafe w (fst (m w)) -> (forall a, keeps keepsSafe (k a)) ->
  keepsSafe w (fst (bind m k w)).
Proof.
  intros Hm Hk. unfold bind.
  destruct (m w) as [w1 [a|e|pk|]]; cbn [fst] in *; try exact Hm.
  eapply keepsSafe_trans; [exact Hm | apply Hk].
Qed.

Lemma even_succ_ne (c c' : nat) :
  Nat.even c = true -> Nat.even c' = true -> S c' <> c.
Proof.
  intros H1 H2 <-. rewrite Nat.even_succ in H1.
  rewrite <- Nat.negb_even, H2 in H1. discriminate.
Qed.

Lemma isClosed_insert_same w (k : chan) :
  (k < length (chans w))%nat ->
  isClosed (setChans w (<[k := true]> (chans w))) k = true.
Proof.
  intros H. unfold isClosed. cbn.
  rewrite list_lookup_insert_eq by exact H. reflexivity.
Qed.

Lemma isClosed_insert_other w (k x : chan) :
  k <> x ->
  isClosed (setChans w (<[k := true]> (chans w))) x = isClosed w x.
Proof.
  intros H. unfold isClosed. cbn.
  rewrite list_lookup_insert_ne by exact H. reflexivity.
Qed.

(** Closing channels keeps the world safe when it is done in the order
    of [Close]: the write channel of a handle, then its length channel;
    or when it is the control channel that is closed. *)
Lemma Safe_close w (k : chan) :
  Safe w ->
  (forall q mq c,
     heap w !! q = Some mq -> writeChan mq = Some c ->
     S c = k -> k < length (chans w) -> isClosed w c = true)%nat ->
  Safe (setChans w (<[k := true]> (chans w))).
Proof.
  intros [S1 S2 S3 S4 S5 S6 S7 S8] Hk.
  constructor; cbn [mux setChans heap chans running]; rewrite ?length_insert;
    try assumption.
  intros q mq c Hq Hc Hcl.
  destruct (S5 q mq c Hq Hc) as (_ & _ & Hlt & _).
  destruct (decide (k = c)) as [->|Hne].
  { apply isClosed_insert_same. lia. }
  rewrite isClosed_insert_other by exact Hne.
  destruct (decide (k = S c)) as [->|Hne'].
  - apply (Hk q mq c Hq Hc eq_refl Hlt).
  - rewrite isClosed_insert_other in Hcl by exact Hne'.
    apply (S6 q mq c Hq Hc Hcl).
Qed.

Lemma Close_tail_safe (p : ptr) :
  keeps (W := W) keepsSafe
    (let* muxIn := deref p in
     closeChan (writeChan muxIn);;;
     let* muxIn := deref p in
     closeChan (writeLenChan muxIn);;;
     ret (@None Error)).
Proof.
  apply keeps_deref_at. intros w m Hp Hs.
  unfold bind at 1. unfold closeChan at 1.
  destruct (writeChan m) as [c|] eqn:Hc; [|exact Hs].
  destruct (isClosed w c) eqn:Hopen; [exact Hs|].
  destruct (safe_handles w Hs p m c Hp Hc) as (Hev & Hge & Hlt & Hl).
  set (w1 := setChans w (<[c := true]> (chans w))).
  assert (Hs1 : Safe w1).
  { apply Safe_close; [exact Hs|].
    intros q mq c' Hq Hc' E _. exfalso.
    destruct (safe_handles w Hs q mq c' Hq Hc') as (Hev' & _).
    apply (even_succ_ne c c' Hev Hev' E). }
  assert (Hp1 : heap w1 !! p = Some m) by exact Hp.
  rewrite (run_bind _ _ _ _ _ (deref_eq _ _ _ Hp1)).
  unfold bind, closeChan. rewrite Hl.
  destruct (isClosed w1 (S c)) eqn:Hopen2; [exact Hs1|].
  cbn [fst ret].
  apply Safe_close; [exact Hs1|].
  intros q mq c' Hq Hc' E _. injection E as ->.
  apply isClosed_insert_same. lia.
Qed.

Lemma MuxIn_Close_safe (p : ptr) : keeps keepsSafe (MuxIn_Close p).
Proof.
  pose proof recvLen_safe as HR.
  pose proof (fun b c => assign_safe p (fun m => setBuf m b c)
                           (fun m => eq_refl) (fun m => eq_refl)
                           (fun m => eq_refl)) as HA.
  unfold MuxIn_Close. change bufferWrites with true. cbv iota.
  apply (keeps_bind _ keepsSafe_trans);
    [apply (keeps_deref _ keepsSafe_refl)|intros _].
  apply (keeps_bind _ keepsSafe_trans).
  - apply keeps_deref_at. intros w m Hp.
    apply keepsSafe_bind_at; [apply (sendBytes_safe_at w p m _ Hp)|].
    intros _. safe_go.
  - intros [|]; [apply (keeps_ret _ keepsSafe_refl) | apply Close_tail_safe].
Qed.

Lemma MuxIn_Write_safe (p : ptr) (b : bytes) :
  keeps keepsSafe (MuxIn_Write p b).
Proof.
  pose proof recvLen_safe as HR.
  pose proof (assign_safe p (fun m => setBuf m [] (bufCap m))
                (fun m => eq_refl) (fun m => eq_refl) (fun m => eq_refl))
    as HA1.
  pose proof (assign_safe p (fun m => append_ m b)
                (fun m => eq_refl) (fun m => eq_refl) (fun m => eq_refl))
    as HA2.
  unfold MuxIn_Write. change bufferWrites with true. cbv iota.
  do 4 (apply (keeps_bind _ keepsSafe_trans);
        [apply (keeps_at _ keepsSafe_refl)|intros ?]).
  destruct (len b <? _); [apply (keeps_panic _ keepsSafe_refl)|].
  apply (keeps_bind _ keepsSafe_trans);
    [apply (keeps_at _ keepsSafe_refl)|intros last].
  destruct (negb _); [apply (keeps_panic _ keepsSafe_refl)|].
  apply keeps_deref_at. intros w m Hp.
  apply keepsSafe_bind_at.
  - destruct (_ >? _); [|apply keepsSafe_refl].
    apply keepsSafe_bind_at; [apply (sendBytes_safe_at w p m _ Hp)|].
    intros _. safe_go.
  - intros [|]; safe_go.
Qed.

Ltac heap_here :=
  cbn;
  first [ eassumption
        | apply list_lookup_insert_eq; rewrite ?length_insert; assumption ].

Ltac run_step :=
  first
    [ erewrite run_bind by (apply deref_eq; heap_here)
    | erewrite run_bind by (apply assign_eq; heap_here)
    | erewrite run_bind by (apply newHash_eq; heap_here)
    | erewrite run_bind by reflexivity ];
  cbn [heap chans mux running ack history setHeap setChans setMux
       setRunning setAck record];
  rewrite ?list_insert_insert_eq.

(** [Open] up to its send on the control channel. *)
Lemma MuxIn_Open_prepared w (p : ptr) (m : MuxIn) :
  heap w !! p = Some m ->
  MuxIn_Open p w = (sendControl p;;; ret None) (prepared w p (Intent m)).
Proof.
  intros Hp.
  assert (Hlt : (p < length (heap w))%nat) by (eapply lookup_lt_Some; eauto).
  unfold MuxIn_Open, bufferWrites.
  do 7 run_step.
  f_equal. unfold prepared, setHeap, setChans, record. cbn.
  rewrite length_app, <- app_assoc. cbn. rewrite Nat.add_1_r. reflexivity.
Qed.

Lemma Safe_prepared w (p : ptr) (m : MuxIn) (it : intents.Intent) :
  Safe w -> heap w !! p = Some m -> Safe (prepared w p it).
Proof.
  intros [S1 S2 S3 S4 S5 S6 S7 S8] Hp.
  assert (Hlt : (p < length (heap w))%nat) by (eapply lookup_lt_Some; eauto).
  destruct S7 as [Hev Hge].
  assert (Hold : forall x, (x < length (chans w))%nat ->
            isClosed (prepared w p it) x = isClosed w x).
  { intros x Hx. unfold isClosed. cbn. rewrite lookup_app_l by exact Hx.
    reflexivity. }
  constructor; cbn [prepared mux heap chans running]; try assumption.
  - intros i e sc Hi He Hsc.
    destruct (S4 i e sc Hi He Hsc) as (q & c & mq & -> & -> & Hq & Hh & Hc & Ho).
    destruct (decide (q = p)) as [->|Hne].
    + eexists p, c, _. repeat split.
      * apply list_lookup_insert_eq. exact Hlt.
      * discriminate.
      * rewrite length_app. lia.
      * intros q' mq' Hq' Hw.
        destruct (decide (q' = p)) as [->|Hne']; [reflexivity|].
        rewrite list_lookup_insert_ne in Hq' by auto.
        apply (Ho q' mq' Hq' Hw).
    + exists q, c, mq. repeat split; auto.
      * rewrite list_lookup_insert_ne by auto. exact Hq.
      * rewrite length_app. lia.
      * intros q' mq' Hq' Hw.
        destruct (decide (q' = p)) as [->|Hne'].
        -- rewrite list_lookup_insert_eq in Hq' by exact Hlt.
           injection Hq' as <-. cbn in Hw. injection Hw as <-. lia.
        -- rewrite list_lookup_insert_ne in Hq' by auto.
           apply (Ho q' mq' Hq' Hw).
  - intros q mq c Hq Hc. rewrite length_app. cbn [length].
    destruct (decide (q = p)) as [->|Hne].
    + rewrite list_lookup_insert_eq in Hq by exact Hlt.
      injection Hq as <-. cbn in *. injection Hc as <-.
      repeat split; [exact Hev | exact Hge | lia].
    + rewrite list_lookup_insert_ne in Hq by auto.
      destruct (S5 q mq c Hq Hc) as (H1 & H2 & H3 & H4).
      repeat split; auto. lia.
  - intros q mq c Hq Hc Hcl.
    destruct (decide (q = p)) as [->|Hne].
    + rewrite list_lookup_insert_eq in Hq by exact Hlt.
      injection Hq as <-. cbn in Hc. injection Hc as <-.
      exfalso. unfold isClosed in Hcl. cbn in Hcl.
      rewrite lookup_app_r in Hcl by lia.
      replace (S (length (chans w)) - length (chans w))%nat with 1%nat in Hcl
        by lia.
      discriminate.
    + rewrite list_lookup_insert_ne in Hq by auto.
      destruct (S5 q mq c Hq Hc) as (_ & _ & H3 & _).
      rewrite Hold in Hcl by exact H3. rewrite Hold by lia.
      apply (S6 q mq c Hq Hc Hcl).
  - rewrite length_app. cbn [length]. split; [|lia].
    rewrite Nat.add_comm. cbn. exact Hev.
Qed.

(** The turn that takes a handle from the control channel. *)
Lemma Run_turn_open_safe w (p : ptr) (it : intents.Intent) (m : MuxIn) :
  Safe w -> heap w !! p = Some m ->
  Safe (Run_turn 0 (VMuxIn p) true (prepared w p it)).
Proof.
  intros Hs Hp.
  assert (Hlt : (p < length (heap w))%nat) by (eapply lookup_lt_Some; eauto).
  pose proof (Safe_prepared w p m it Hs Hp) as [S1 S2 S3 S4 S5 S6 S7 S8].
  unfold Run_turn. cbn [Nat.eqb negb].
  replace (heap (prepared w p it) !! p)
    with (Some {| writeChan := Some (length (chans w));
                  writeLenChan := Some (S (length (chans w)));
                  buf := []; bufCap := MaxBSONSize;
                  hash := Some crc64.New; Intent := it |})
    by (symmetry; apply list_lookup_insert_eq; exact Hlt).
  cbn [writeChan].
  constructor; cbn [mux setMux setCases Control ins selectCases heap chans
                    running]; try assumption.
  - rewrite !length_app. cbn [length]. lia.
  - apply lookup_app_l_Some. exact S3.
  - intros i e sc Hi He Hsc.
    apply lookup_app_Some in He as [He | [Hge He]].
    + apply lookup_app_Some in Hsc as [Hsc | [Hge' _]].
      * apply (S4 i e sc Hi He Hsc).
      * apply lookup_lt_Some in He. lia.
    + apply lookup_app_Some in Hsc as [Hsc | [_ Hsc]].
      { apply lookup_lt_Some in Hsc. lia. }
      rewrite S2 in He.
      destruct (i - length (selectCases (mux (prepared w p it))))%nat;
        [|destruct n; discriminate].
      injection He as <-. injection Hsc as <-.
      eexists p, _, _. repeat split.
      * apply list_lookup_insert_eq. exact Hlt.
      * discriminate.
      * cbn. rewrite length_app. cbn. lia.
      * intros q mq Hq Hw.
        destruct (decide (q = p)) as [->|Hne]; [reflexivity|].
        cbn in Hq. rewrite list_lookup_insert_ne in Hq by auto.
        destruct (safe_handles w Hs q mq _ Hq Hw) as (_ & _ & H3 & _). lia.
Qed.

Lemma MuxIn_Open_safe (p : ptr) : keeps keepsSafe (MuxIn_Open p).
Proof.
  intros w Hs.
  destruct (heap w !! p) as [m|] eqn:Hp.
  - rewrite (MuxIn_Open_prepared w p m Hp).
    pose proof (Safe_prepared w p m (Intent m) Hs Hp) as Hs1.
    unfold bind, sendControl.
    destruct (isClosed _ _); [exact Hs1|].
    destruct (selecting _); [|exact Hs1].
    cbn [fst ret]. apply (Run_turn_open_safe w p (Intent m) m Hs Hp).
  - unfold MuxIn_Open.
    erewrite run_bind_panic; [exact Hs|].
    unfold deref. rewrite Hp. reflexivity.
Qed.

Lemma step_safe (op : Op) w : Safe w -> Safe (step op w).
Proof.
  intros Hs. destruct op as [p|p b|p| |i]; cbn [step].
  - apply MuxIn_Open_safe. exact Hs.
  - apply MuxIn_Write_safe. exact Hs.
  - apply MuxIn_Close_safe. exact Hs.
  - unfold closeChan. destruct (isClosed w _); [exact Hs|]. cbn [fst].
    rewrite (safe_control w Hs). apply Safe_close; [exact Hs|].
    intros q mq c Hq Hc E _. discriminate.
  - unfold selectEOF.
    destruct (selectCases (mux w) !! i) as [[c|]|] eqn:Hsc; try exact Hs.
    destruct (isClosed w c && selecting w); [|exact Hs].
    destruct i as [|i].
    + apply Run_turn_control_eof_safe. exact Hs.
    + apply Run_turn_eof_safe; [exact Hs | discriminate |].
      eapply lookup_lt_Some; eauto.
Qed.

Lemma Safe_NewWorld (out : W) (its : list intents.Intent) :
  Safe (NewWorld out its).
Proof.
  assert (Hnone : forall q mq c,
            heap (NewWorld out its) !! q = Some mq -> writeChan mq <> Some c).
  { intros q mq c Hq. cbn in Hq. rewrite list_lookup_fmap in Hq.
    destruct (its !! q); cbn in Hq; [|discriminate].
    injection Hq as <-. discriminate. }
  constructor; try reflexivity.
  - intros i e sc Hi He _. destruct i; [contradiction|discriminate].
  - intros q mq c Hq Hc. destruct (Hnone q mq c Hq Hc).
  - intros q mq c Hq Hc. destruct (Hnone q mq c Hq Hc).
  - split; [reflexivity | cbn; lia].
  - discriminate.
Qed.

(** *** The number of select cases *)

Lemma notMore_refl w : notMore w w.
Proof. unfold notMore. lia. Qed.

Lemma notMore_trans w1 w2 w3 : notMore w1 w2 -> notMore w2 w3 -> notMore w1 w3.
Proof. unfold notMore. lia. Qed.

Lemma sameCases_notMore w w' : sameCases w w' -> notMore w w'.
Proof. intros (_ & E & _). unfold notMore. rewrite E. lia. Qed.

Lemma same_mux_notMore {A : Type} (m : M (W := W) A) :
  (forall w, mux (fst (m w)) = mux w) -> keeps notMore m.
Proof. intros H w. unfold notMore. rewrite H. lia. Qed.

Lemma length_remove_le {A : Type} (i : nat) (l : list A) :
  (length (remove i l) <= length l)%nat.
Proof.
  unfold remove. rewrite length_app, length_take, length_drop. lia.
Qed.

(** Only the turn for a handle received on the control channel adds a
    case, and it adds one. *)
Lemma Run_turn_cases (i : nat) (v : Value) (notEOF : bool) w :
  (length (selectCases (mux (Run_turn i v notEOF w)))
   <= length (selectCases (mux w))
      + match i, v, notEOF with
        | O, VMuxIn _, true => 1
        | _, _, _ => 0
        end)%nat.
Proof.
  unfold Run_turn, complete.
  destruct (Nat.eqb i 0) eqn:Hi.
  - apply Nat.eqb_eq in Hi. subst i.
    destruct notEOF; cbn [negb].
    + destruct v as [p| |]; cbn; try lia.
      destruct (heap w !! p); cbn; [rewrite length_app; cbn|]; lia.
    + destruct (negb _); cbn; destruct v; lia.
  - assert (Hz : (match i, v, notEOF with
                  | O, VMuxIn _, true => 1
                  | _, _, _ => 0
                  end = 0)%nat).
    { destruct i; [discriminate|]. reflexivity. }
    rewrite Hz, Nat.add_0_r. clear Hz.
    destruct notEOF; cbn [negb].
    + destruct v as [p|b|]; cbn; try lia.
      pose proof (hashWrite_cases (W := W)) as HC1.
      pose proof formatBody_cases as HC2.
      assert (Hsc : keeps sameCases
                      (let* p := insAt i in hashWrite p b;;; formatBody p b))
        by (keeps_via (@sameCases_refl W) (@sameCases_trans W)).
      specialize (Hsc w). unfold afterCall, complete.
      destruct ((let* p := insAt i in hashWrite p b;;; formatBody p b) w)
        as [w1 [a|e|pk|]]; cbn in *; destruct Hsc as (_ & Hsc & _);
        rewrite Hsc; lia.
    + pose proof formatEOF_cases as HE.
      assert (Hsc : keeps sameCases (let* p := insAt i in formatEOF i p))
        by (keeps_via (@sameCases_refl W) (@sameCases_trans W)).
      specialize (Hsc w). unfold afterCall, complete.
      destruct ((let* p := insAt i in formatEOF i p) w)
        as [w1 [a|e|pk|]]; cbn in *; destruct Hsc as (_ & Hsc & _);
        rewrite <- Hsc; try lia.
      apply length_remove_le.
Qed.

Lemma sendBytes_notMore (c : option chan) (b : bytes) :
  keeps notMore (sendBytes c b).
Proof.
  intros w. unfold sendBytes.
  destruct c as [c'|]; [|apply notMore_refl].
  destruct (isClosed w c'); [apply notMore_refl|].
  destruct (selecting w); [|apply notMore_refl].
  destruct (findCase c' _) as [i|]; [|apply notMore_refl].
  cbn [fst]. unfold notMore.
  pose proof (Run_turn_cases i (VBytes b) true w) as H.
  destruct i; cbv beta iota in H; lia.
Qed.

Lemma recvLen_notMore (c : option chan) : keeps (W := W) notMore (recvLen c).
Proof.
  apply same_mux_notMore. intros w. unfold recvLen.
  destruct c as [c'|]; [|reflexivity].
  destruct (ack w) as [[[c''|] n]|]; try destruct (Nat.eqb c' c'');
    try destruct (isClosed w c'); reflexivity.
Qed.

Lemma assign_notMore (p : ptr) (f : MuxIn -> MuxIn) :
  keeps (W := W) notMore (assign p f).
Proof.
  apply same_mux_notMore. intros w. unfold assign, bind, deref, modify.
  destruct (heap w !! p); reflexivity.
Qed.

Lemma closeChan_notMore (c : option chan) :
  keeps (W := W) notMore (closeChan c).
Proof.
  apply same_mux_notMore. intros w. unfold closeChan.
  destruct c as [c'|]; [|reflexivity].
  destruct (isClosed w c'); reflexivity.
Qed.

Ltac cases_go := keeps_via (@notMore_refl) (@notMore_trans).

Lemma MuxIn_Write_notMore (p : ptr) (b : bytes) :
  keeps notMore (MuxIn_Write p b).
Proof.
  pose proof recvLen_notMore. pose proof sendBytes_notMore.
  pose proof assign_notMore.
  unfold MuxIn_Write. cases_go.
Qed.

Lemma MuxIn_Close_notMore (p : ptr) : keeps notMore (MuxIn_Close p).
Proof.
  pose proof recvLen_notMore. pose proof sendBytes_notMore.
  pose proof assign_notMore. pose proof closeChan_notMore.
  unfold MuxIn_Close. cases_go.
Qed.

Lemma MuxIn_Open_cases (p : ptr) w :
  (length (selectCases (mux (fst (MuxIn_Open p w))))
   <= S (length (selectCases (mux w))))%nat.
Proof.
  destruct (heap w !! p) as [m|] eqn:Hp.
  - rewrite (MuxIn_Open_prepared w p m Hp).
    unfold bind, sendControl.
    destruct (isClosed _ _); [cbn; lia|].
    destruct (selecting _); [|cbn; lia].
    cbn [fst ret].
    pose proof (Run_turn_cases 0 (VMuxIn p) true (prepared w p (Intent m)))
      as H.
    cbv beta iota in H. change (mux (prepared w p (Intent m))) with (mux w) in H.
    lia.
  - unfold MuxIn_Open.
    erewrite run_bind_panic by (unfold deref; rewrite Hp; reflexivity).
    cbn [fst]. lia.
Qed.

Lemma step_cases (op : Op) w :
  (length (selectCases (mux (step op w)))
   <= length (selectCases (mux w)) + opens [op])%nat.
Proof.
  destruct op as [p|p b|p| |i]; cbn [step opens List.filter length].
  - pose proof (MuxIn_Open_cases p w). lia.
  - pose proof (MuxIn_Write_notMore p b w) as H. unfold notMore in H. lia.
  - pose proof (MuxIn_Close_notMore p w) as H. unfold notMore in H. lia.
  - pose proof (closeChan_notMore (Some (Control (mux w))) w) as H.
    unfold notMore in H. lia.
  - unfold selectEOF.
    destruct (selectCases (mux w) !! i) as [[c|]|]; try lia.
    destruct (isClosed w c && selecting w); [|lia].
    pose proof (Run_turn_cases i VZero false w) as H.
    destruct i; cbv beta iota in H; lia.
Qed.

Lemma opens_cons (op : Op) (ops : list Op) :
  opens (op :: ops) = (opens [op] + opens ops)%nat.
Proof. unfold opens. cbn. destruct op; reflexivity. Qed.

Lemma exec_cases (ops : list Op) w :
  (length (selectCases (mux (exec ops w)))
   <= length (selectCases (mux w)) + opens ops)%nat.
Proof.
  revert w. induction ops as [|op ops IH]; intros w.
  - cbn. lia.
  - rewrite opens_cons. cbn [exec fold_left].
    pose proof (IH (step op w)) as H1. unfold exec in H1.
    pose proof (step_cases op w) as H2. lia.
Qed.

Lemma opens_take (n : nat) (ops : list Op) :
  (opens (take n ops) <= opens ops)%nat.
Proof.
  revert n. induction ops as [|op ops IH]; intros n.
  - rewrite take_nil. lia.
  - destruct n as [|n].
    + change (take 0 (op :: ops)) with (@nil Op).
      change (opens []) with 0%nat. lia.
    + change (take (S n) (op :: ops)) with (op :: take n ops).
      rewrite (opens_cons op ops), (opens_cons op (take n ops)).
      pose proof (IH n). lia.
Qed.

(** X19.  [Run] does not panic.  Take an execution from a new
    multiplexer that is a sequence of whole calls: [Open], [Write] and
    [Close] on the handles, the closing of the control channel, and
    [Run] finding a channel closed, each call with the turn of [Run] it
    causes, as when no two calls on one handle run at the same time.  If
    it holds fewer than 65536 calls of [Open], then at each of its
    points [Run] selects over at most 65536 cases, which
    [reflect.Select] accepts, and whatever the sink and the codec
    answer, [Run] has not panicked: it has not indexed its slices out
    of range, met a nil handle or a nil digest, or sent a length on a
    closed channel. *)
Theorem Run_never_panics (out : W) (its : list intents.Intent)
    (ops : list Op) (n : nat) :
  Z.of_nat (opens ops) < maxSelectCases ->
  selectPanics (exec (take n ops) (NewWorld out its)) = false
  /\ running (exec (take n ops) (NewWorld out its)) <> Crashed.
Proof.
  intros Hopens. split.
  - unfold selectPanics. apply Z.ltb_ge. unfold len.
    pose proof (exec_cases (take n ops) (NewWorld out its)) as H.
    pose proof (opens_take n ops) as Ht.
    cbn [NewWorld mux NewMultiplexer selectCases length] in H. lia.
  - apply safe_running.
    assert (H : forall l w, Safe w -> Safe (exec l w)).
    { intros l. induction l as [|op l' IH]; intros w Hw; [exact Hw|].
      apply (IH (step op w)). apply step_safe. exact Hw. }
    apply H, Safe_NewWorld.
Qed.

(** *** A case that is never closed *)

(** Within a turn, short of a change of the slices, an orphan case
    stays. *)
Lemma Orphan_similar (c : chan) w w' :
  Orphan c w ->
  selectCases (mux w') = selectCases (mux w) -> chans w' = chans w ->
  sameHandles w w' ->
  running w' <> Returned None ->
  Orphan c w'.
Proof.
  intros (Hi & Hev & Hge & Hlt & Hopen & Hno & _) Es Ech [_ B] Hr.
  unfold Orphan, isClosed in *. rewrite Es, Ech.
  repeat split; try assumption.
  intros q mq Hq Hc. destruct (B q mq Hq) as (y & Hy & E & _).
  apply (Hno q y Hy). congruence.
Qed.

Lemma Run_turn_data_orphan (c : chan) (i : nat) (b : bytes) w :
  Orphan c w -> Orphan c (Run_turn i (VBytes b) true w).
Proof.
  intros Ho.
  pose proof (Run_turn_mux i (VBytes b) true w) as Hm.
  assert (Hr : running (Run_turn i (VBytes b) true w) <> Returned None
               /\ selectCases (mux (Run_turn i (VBytes b) true w))
                  = selectCases (mux w)).
  { destruct Ho as (_ & _ & _ & _ & _ & _ & Hrun).
    unfold Run_turn, complete. cbn [negb].
    destruct (Nat.eqb i 0); [split; [discriminate|reflexivity]|].
    pose proof (data_turn_running i b w) as Hsr.
    pose proof (hashWrite_cases (W := W)) as HC1.
    pose proof formatBody_cases as HC2.
    assert (Hsc : keeps sameCases
                    (let* p := insAt i in hashWrite p b;;; formatBody p b))
      by (keeps_via (@sameCases_refl W) (@sameCases_trans W)).
    specialize (Hsc w). unfold afterCall, complete.
    destruct ((let* p := insAt i in hashWrite p b;;; formatBody p b) w)
      as [w1 [a|e|pk|]]; cbn in *; destruct Hsc as (_ & Hsc & _);
      (split; [|exact Hsc]); try discriminate;
      unfold sameRunning in Hsr; congruence. }
  destruct Hr as [Hr Hsc].
  apply (Orphan_similar c w _ Ho Hsc (muxStep_chans _ _ Hm)
           (muxStep_sameHandles _ _ Hm) Hr).
Qed.

Lemma keepsOrphan_refl (c : chan) w : keepsOrphan c w w.
Proof. intros H. exact H. Qed.

Lemma keepsOrphan_trans (c : chan) w1 w2 w3 :
  keepsOrphan c w1 w2 -> keepsOrphan c w2 w3 -> keepsOrphan c w1 w3.
Proof. unfold keepsOrphan. auto. Qed.

Lemma quiet_orphan (c : chan) {A : Type} (m : M (W := W) A) :
  (forall w, heap (fst (m w)) = heap w /\ chans (fst (m w)) = chans w
             /\ mux (fst (m w)) = mux w /\ running (fst (m w)) = running w) ->
  keeps (keepsOrphan c) m.
Proof.
  intros H w Ho. destruct (H w) as (Eh & Ec & Em & Er).
  apply (Orphan_similar c w _ Ho).
  - rewrite Em. reflexivity.
  - exact Ec.
  - apply sameHandles_same_heap. exact Eh.
  - rewrite Er. apply Ho.
Qed.

Lemma recvLen_orphan (c : chan) (l : option chan) :
  keeps (W := W) (keepsOrphan c) (recvLen l).
Proof.
  apply quiet_orphan. intros w. unfold recvLen.
  destruct l as [c'|]; [|auto].
  destruct (ack w) as [[[c''|] n]|]; try destruct (Nat.eqb c' c'');
    try destruct (isClosed w c'); auto.
Qed.

Lemma assign_orphan (c : chan) (p : ptr) (f : MuxIn -> MuxIn) :
  (forall m, writeChan (f m) = writeChan m) ->
  (forall m, writeLenChan (f m) = writeLenChan m) ->
  (forall m, hash (f m) = hash m) ->
  keeps (W := W) (keepsOrphan c) (assign p f).
Proof.
  intros H1 H2 H3 w Ho. unfold assign, bind, deref, modify.
  destruct (heap w !! p) as [m|] eqn:Hp; cbn [fst]; [|exact Ho].
  apply (Orphan_similar c w _ Ho); try reflexivity.
  - apply (sameHandles_insert w p m (f m) Hp (H1 m) (H2 m)).
    rewrite H3. auto.
  - apply Ho.
Qed.

Lemma sendBytes_orphan (c : chan) (c' : option chan) (b : bytes) :
  keeps (keepsOrphan c) (sendBytes c' b).
Proof.
  intros w Ho. unfold sendBytes.
  destruct c' as [x|]; [|exact Ho].
  destruct (isClosed w x); [exact Ho|].
  destruct (selecting w); [|exact Ho].
  destruct (findCase x _); [|exact Ho].
  apply Run_turn_data_orphan. exact Ho.
Qed.

Ltac orphan_go c :=
  keeps_via (@keepsOrphan_refl c) (@keepsOrphan_trans c).

Lemma MuxIn_Write_orphan (c : chan) (p : ptr) (b : bytes) :
  keeps (keepsOrphan c) (MuxIn_Write p b).
Proof.
  pose proof (recvLen_orphan c) as HR.
  pose proof (sendBytes_orphan c) as HS.
  pose proof (assign_orphan c p (fun m => setBuf m [] (bufCap m))
                (fun m => eq_refl) (fun m => eq_refl) (fun m => eq_refl))
    as HA1.
  pose proof (assign_orphan c p (fun m => append_ m b)
                (fun m => eq_refl) (fun m => eq_refl) (fun m => eq_refl))
    as HA2.
  unfold MuxIn_Write. orphan_go c.
Qed.

(** The flush at the head of [Close]. *)
Lemma Close_flush_safe (p : ptr) :
  keeps keepsSafe
    (let* muxIn := deref p in
     sendBytes (writeChan muxIn) (buf muxIn);;;
     let* muxIn := deref p in
     let* length := recvLen (writeLenChan muxIn) in
     let* muxIn := deref p in
     if negb (length =? len (buf muxIn)) then ret true
     else assign p (fun m => setBuf m [] 0);;; ret false).
Proof.
  pose proof recvLen_safe as HR.
  pose proof (fun b c => assign_safe p (fun m => setBuf m b c)
                           (fun m => eq_refl) (fun m => eq_refl)
                           (fun m => eq_refl)) as HA.
  apply keeps_deref_at. intros w m Hp.
  apply keepsSafe_bind_at; [apply (sendBytes_safe_at w p m _ Hp)|].
  intros _. safe_go.
Qed.

Lemma Close_flush_orphan (c : chan) (p : ptr) :
  keeps (keepsOrphan c)
    (let* muxIn := deref p in
     sendBytes (writeChan muxIn) (buf muxIn);;;
     let* muxIn := deref p in
     let* length := recvLen (writeLenChan muxIn) in
     let* muxIn := deref p in
     if negb (length =? len (buf muxIn)) then ret true
     else assign p (fun m => setBuf m [] 0);;; ret false).
Proof.
  pose proof (recvLen_orphan c) as HR.
  pose proof (sendBytes_orphan c) as HS.
  pose proof (fun b k => assign_orphan c p (fun m => setBuf m b k)
                           (fun m => eq_refl) (fun m => eq_refl)
                           (fun m => eq_refl)) as HA.
  orphan_go c.
Qed.

(** Closing a channel other than that of the orphan case. *)
Lemma Orphan_close (c k : chan) w :
  Orphan c w -> k <> c -> Orphan c (setChans w (<[k := true]> (chans w))).
Proof.
  intros (Hi & Hev & Hge & Hlt & Hopen & Hno & Hr) Hne.
  unfold Orphan. cbn [mux setChans heap chans running].
  rewrite length_insert, isClosed_insert_other by exact Hne.
  repeat split; assumption.
Qed.

Lemma Close_tail_orphan (c : chan) (p : ptr) w :
  Safe w -> Orphan c w ->
  Orphan c
    (fst ((let* muxIn := deref p in
           closeChan (writeChan muxIn);;;
           let* muxIn := deref p in
           closeChan (writeLenChan muxIn);;;
           ret (@None Error)) w)).
Proof.
  intros Hs Ho. unfold bind at 1. unfold deref at 1.
  destruct (heap w !! p) as [m|] eqn:Hp; [|exact Ho].
  unfold bind at 1. unfold closeChan at 1.
  destruct (writeChan m) as [x|] eqn:Hx; [|exact Ho].
  destruct (isClosed w x) eqn:Hopen; [exact Ho|].
  destruct (safe_handles w Hs p m x Hp Hx) as (Hev & _ & _ & Hl).
  assert (Hne : x <> c).
  { intros ->. destruct Ho as (_ & _ & _ & _ & _ & Hno & _).
    apply (Hno p m Hp Hx). }
  set (w1 := setChans w (<[x := true]> (chans w))).
  assert (Ho1 : Orphan c w1) by (apply Orphan_close; assumption).
  assert (Hp1 : heap w1 !! p = Some m) by exact Hp.
  rewrite (run_bind _ _ _ _ _ (deref_eq _ _ _ Hp1)).
  unfold bind, closeChan. rewrite Hl.
  destruct (isClosed w1 (S x)); [exact Ho1|].
  cbn [fst ret]. apply Orphan_close; [exact Ho1|].
  destruct Ho as (_ & Hevc & _). apply (even_succ_ne c x Hevc Hev).
Qed.

Lemma MuxIn_Close_orphan (c : chan) (p : ptr) w :
  Safe w -> Orphan c w -> Orphan c (fst (MuxIn_Close p w)).
Proof.
  intros Hs Ho. unfold MuxIn_Close. change bufferWrites with true. cbv iota.
  unfold bind at 1. unfold deref at 1.
  destruct (heap w !! p) as [m|] eqn:Hp; [|exact Ho].
  unfold bind at 1.
  pose proof (Close_flush_safe p w Hs) as Hs1.
  pose proof (Close_flush_orphan c p w Ho) as Ho1.
  match goal with
  | |- context [match ?f w with _ => _ end] => destruct (f w) as [wb [[|]|e|pk|]]
  end; cbn [fst] in *; try exact Ho1.
  apply Close_tail_orphan; assumption.
Qed.

Lemma Orphan_prepared (c : chan) w (p : ptr) (m : MuxIn)
    (it : intents.Intent) :
  Orphan c w -> heap w !! p = Some m -> Orphan c (prepared w p it).
Proof.
  intros (Hi & Hev & Hge & Hlt & Hopen & Hno & Hr) Hp.
  assert (Hplt : (p < length (heap w))%nat) by (eapply lookup_lt_Some; eauto).
  unfold Orphan. cbn [prepared mux heap chans running].
  repeat split; try assumption.
  - rewrite length_app. lia.
  - unfold isClosed in *. cbn. rewrite lookup_app_l by exact Hlt. exact Hopen.
  - intros q mq Hq Hc.
    destruct (decide (q = p)) as [->|Hne].
    + rewrite list_lookup_insert_eq in Hq by exact Hplt.
      injection Hq as <-. cbn in Hc. injection Hc as <-. lia.
    + rewrite list_lookup_insert_ne in Hq by auto.
      apply (Hno q mq Hq Hc).
Qed.

Lemma MuxIn_Open_orphan (c : chan) (p : ptr) w :
  Orphan c w -> Orphan c (fst (MuxIn_Open p w)).
Proof.
  intros Ho.
  destruct (heap w !! p) as [m|] eqn:Hp.
  - rewrite (MuxIn_Open_prepared w p m Hp).
    pose proof (Orphan_prepared c w p m (Intent m) Ho Hp) as Ho1.
    unfold bind, sendControl.
    destruct (isClosed _ _); [exact Ho1|].
    destruct (selecting _); [|exact Ho1].
    cbn [fst ret]. unfold Run_turn. cbn [Nat.eqb negb].
    destruct (heap (prepared w p (Intent m)) !! p) as [m1|];
      [|destruct Ho1 as (H1 & H2 & H3 & H4 & H5 & H6 & H7);
        repeat split; try assumption; discriminate].
    destruct Ho1 as ((i & Hi & Hsc) & H2 & H3 & H4 & H5 & H6 & H7).
    repeat split; try assumption.
    exists i. split; [exact Hi|]. cbn. apply lookup_app_l_Some. exact Hsc.
  - unfold MuxIn_Open.
    erewrite run_bind_panic; [exact Ho|].
    unfold deref. rewrite Hp. reflexivity.
Qed.

(** The turn for a closed data channel takes out another case. *)
Lemma Run_turn_eof_orphan (c : chan) (j : nat) (v : Value) w :
  Orphan c w -> j <> 0%nat ->
  (forall x, selectCases (mux w) !! j = Some (Some x) -> x <> c) ->
  Orphan c (Run_turn j v false w).
Proof.
  intros Ho Hj Hne.
  unfold Run_turn. apply Nat.eqb_neq in Hj as Hj'. rewrite Hj'. cbn [negb].
  pose proof formatEOF_mux as HM. pose proof formatEOF_cases as HC.
  assert (Hm : keeps muxStep (let* p := insAt j in formatEOF j p))
    by (keeps_via (@ms_refl W) (@ms_trans W)).
  assert (Hc : keeps sameCases (let* p := insAt j in formatEOF j p))
    by (keeps_via (@sameCases_refl W) (@sameCases_trans W)).
  assert (Hr : keeps sameRunning (let* p := insAt j in formatEOF j p)).
  { pose proof writeFraming_running. pose proof headerForEOF_running.
    unfold formatEOF.
    keeps_via (@sameRunning_refl W) (@sameRunning_trans W). }
  specialize (Hm w). specialize (Hc w). specialize (Hr w).
  destruct Hc as (_ & Hc & _). unfold sameRunning in Hr.
  assert (Ho1 : forall r, r <> Returned None ->
            Orphan c (setRunning
                        (fst ((let* p := insAt j in formatEOF j p) w)) r)).
  { intros r Hr'.
    apply (Orphan_similar c w
             (setRunning (fst ((let* p := insAt j in formatEOF j p) w)) r)
             Ho Hc (muxStep_chans _ _ Hm)).
    - exact (muxStep_sameHandles _ _ Hm).
    - exact Hr'. }
  assert (Ho2 : Orphan c (fst ((let* p := insAt j in formatEOF j p) w))).
  { apply (Orphan_similar c w _ Ho Hc (muxStep_chans _ _ Hm)
             (muxStep_sameHandles _ _ Hm)).
    rewrite Hr. apply Ho. }
  unfold afterCall, complete.
  destruct ((let* p := insAt j in formatEOF j p) w) as [w1 [[]|e|pk|]];
    cbn [fst] in *.
  - destruct Ho2 as ((i & Hi & Hsc) & H2 & H3 & H4 & H5 & H6 & H7).
    unfold Orphan. cbn [mux setMux setCases setCurrentNamespace selectCases
                        heap chans running].
    repeat split; try assumption.
    assert (Hij : i <> j).
    { intros ->. rewrite Hc in Hsc. apply (Hne c Hsc). reflexivity. }
    destruct (decide (i < j)%nat) as [Hlt|Hge].
    + exists i. split; [exact Hi|]. rewrite lookup_remove.
      apply Nat.ltb_lt in Hlt. rewrite Hlt. exact Hsc.
    + exists (i - 1)%nat. split; [lia|]. rewrite lookup_remove.
      assert (Hnlt : ((i - 1 <? j) = false)%nat) by (apply Nat.ltb_ge; lia).
      rewrite Hnlt. replace (S (i - 1)) with i by lia. exact Hsc.
  - apply Ho1. discriminate.
  - apply Ho1. discriminate.
  - exact Ho2.
Qed.

Lemma step_orphan (c : chan) (op : Op) w :
  Safe w -> Orphan c w -> Orphan c (step op w).
Proof.
  intros Hs Ho. destruct op as [p|p b|p| |j]; cbn [step].
  - apply MuxIn_Open_orphan. exact Ho.
  - apply MuxIn_Write_orphan. exact Ho.
  - apply MuxIn_Close_orphan; assumption.
  - unfold closeChan. destruct (isClosed w _); [exact Ho|]. cbn [fst].
    apply Orphan_close; [exact Ho|].
    rewrite (safe_control w Hs). destruct Ho as (_ & _ & Hge & _). lia.
  - unfold selectEOF.
    destruct (selectCases (mux w) !! j) as [[x|]|] eqn:Hsc; try exact Ho.
    destruct (isClosed w x) eqn:Hx; [|exact Ho].
    destruct (selecting w); [|exact Ho]. cbn [andb].
    destruct j as [|j].
    + destruct Ho as ((i & Hi & Hi') & H2 & H3 & H4 & H5 & H6 & H7).
      unfold Run_turn, complete. cbn [Nat.eqb negb].
      assert (Hlen : negb (len (selectCases
                                  (mux (setMux w
                                          (setOut (mux w)
                                             (fst (wcClose (Out (mux w))))))))
                           =? 1) = true).
      { cbn [mux setMux setOut selectCases].
        apply lookup_lt_Some in Hi'. unfold len.
        destruct (Z.of_nat _ =? 1) eqn:E; [|reflexivity].
        apply Z.eqb_eq in E. lia. }
      rewrite Hlen.
      repeat split; try assumption; try discriminate.
      exists i. split; [exact Hi | exact Hi'].
    + apply Run_turn_eof_orphan; [exact Ho | discriminate |].
      intros y Hy ->. rewrite Hsc in Hy. injection Hy as ->.
      destruct Ho as (_ & _ & _ & _ & Hopen & _). congruence.
Qed.

(** X21.  A handle opened twice can never be let go of.  The second
    [Open] gives the handle new channels while the multiplexer still
    selects on the first write channel, which nobody holds any more and
    nobody can close.  From then on, whatever is done, [Run] never
    returns nil on [Completed]: the most it can do at the end of the
    control channel is to report that select cases are still open. *)
Theorem double_Open_forbids_a_clean_end (out : W)
    (its : list intents.Intent) (p : ptr) (it : intents.Intent)
    (ops : list Op) :
  its !! p = Some it ->
  running (exec (OpOpen p :: OpOpen p :: ops) (NewWorld out its))
  <> Returned None.
Proof.
  intros Hit.
  set (w2 := exec [OpOpen p; OpOpen p] (NewWorld out its)).
  assert (Hs2 : Safe w2).
  { unfold w2, exec. cbn [fold_left].
    do 2 apply step_safe. apply Safe_NewWorld. }
  assert (Ho2 : Orphan 2 w2).
  { set (w0 := NewWorld out its).
    assert (Hp : heap w0 !! p = Some (zeroMuxIn it))
      by (cbn; rewrite list_lookup_fmap, Hit; reflexivity).
    assert (Hlt : (p < length (heap w0))%nat)
      by (eapply lookup_lt_Some; eauto).
    unfold w2, exec. cbn [fold_left step].
    rewrite (MuxIn_Open_eq w0 p _ Hp eq_refl eq_refl). cbn [fst].
    erewrite MuxIn_Open_eq; [|apply list_lookup_insert_eq; exact Hlt
                             |reflexivity|reflexivity].
    cbn [fst]. unfold Orphan.
    repeat split; try reflexivity; try (cbn; lia); try discriminate.
    - exists 1%nat. split; [discriminate | reflexivity].
    - intros q mq Hq Hc. cbn in Hq.
      rewrite list_insert_insert_eq in Hq.
      destruct (decide (q = p)) as [->|Hne].
      + rewrite list_lookup_insert_eq in Hq by exact Hlt.
        injection Hq as <-. discriminate.
      + rewrite list_lookup_insert_ne in Hq by auto.
        rewrite list_lookup_fmap in Hq.
        destruct (its !! q); cbn in Hq; [|discriminate].
        injection Hq as <-. discriminate. }
  change (exec (OpOpen p :: OpOpen p :: ops) (NewWorld out its))
    with (exec ops w2).
  assert (H : forall w, Safe w -> Orphan 2 w -> Orphan 2 (exec ops w)).
  { clear. induction ops as [|op ops' IH]; intros w Hs Ho; [exact Ho|].
    apply (IH (step op w)); [apply step_safe | apply step_orphan];
      assumption. }
  apply (H w2 Hs2 Ho2).
Qed.

End SafetyFacts.

(** ** The archive as the layout of the turns taken *)

Section ArchiveLogFacts.

Context {Ext : Externals}.
Variable its : list intents.Intent.
Variable out : Recorder.
Implicit Types w : World (W := Recorder).

Notation "'let*' x ':=' m 'in' k" := (bind m (fun x => k))
  (at level 10, x pattern, m at level 100, k at level 200).
Notation "m ';;;' k" := (bind m (fun _ => k))
  (at level 100, k at level 200, right associativity).

Lemma seen_fold (hist : list Event) (l : Layout) :
  seen (fold_left (layoutStep its) hist l) = seen l ++ hist.
Proof.
  revert l. induction hist as [|e hist IH]; intros l; cbn [fold_left].
  - rewrite app_nil_r. reflexivity.
  - rewrite IH.
    destruct e as [p|p b|p h]; cbn [layoutStep];
      try destruct (its !! p); cbn [seen];
      rewrite <- app_assoc; reflexivity.
Qed.

Lemma seen_layoutOf (hist : list Event) : seen (layoutOf its hist) = hist.
Proof. unfold layoutOf. rewrite seen_fold. reflexivity. Qed.

Lemma layoutOf_snoc (hist : list Event) (e : Event) :
  layoutOf its (hist ++ [e]) = layoutStep its (layoutOf its hist) e.
Proof. unfold layoutOf. rewrite fold_left_app. reflexivity. Qed.

Lemma passed_wcWrite (s : Recorder) (x : bytes) :
  passed (fst (wcWrite s x)) = passed s ++ [x].
Proof. unfold passed. cbn. rewrite map_app. reflexivity. Qed.

Lemma adds_refl w : adds [] w w.
Proof. unfold adds. rewrite app_nil_r. auto. Qed.

Lemma adds_trans (X Y : list bytes) w1 w2 w3 :
  adds X w1 w2 -> adds Y w2 w3 -> adds (X ++ Y) w1 w3.
Proof.
  intros (A1 & A2 & A3 & A4 & A5) (B1 & B2 & B3 & B4 & B5).
  unfold adds. rewrite B1, A1, B2, B3, B4, B5, <- app_assoc. auto.
Qed.

(** *** What a call that returns has done *)

Lemma outWrite_Ret (x : bytes) w w' (r : Z * option Error) :
  outWrite x w = (w', Ret r) -> adds [x] w w'.
Proof.
  unfold outWrite. pose proof (passed_wcWrite (Out (mux w)) x) as Hp.
  destruct (wcWrite (Out (mux w)) x) as [o r'].
  intros [= <- _]. unfold adds. cbn [mux setMux Out setOut currentNamespace
                                      history running heap fst] in *.
  auto.
Qed.

Lemma writeFraming_Ret (x : bytes) w w' (u : unit) :
  writeFraming x w = (w', Ret u) -> adds [x] w w'.
Proof.
  unfold writeFraming. intros H.
  apply bind_Ret_inv in H as (w1 & [l err] & H1 & H2).
  apply outWrite_Ret in H1.
  destruct err as [e|]; [discriminate|].
  destruct (negb (l =? len x)); [discriminate|].
  injection H2 as <- _. exact H1.
Qed.

Lemma closing_Ret w w' (u : unit) :
  (if negb (currentNamespace (mux w) =? EmptyString)%string
   then writeFraming terminatorBytes
   else ret tt) w = (w', Ret u) ->
  adds (closingCalls (currentNamespace (mux w))) w w'.
Proof.
  unfold closingCalls.
  destruct (currentNamespace (mux w) =? EmptyString)%string; cbn [negb].
  - intros [= <- _]. apply adds_refl.
  - apply writeFraming_Ret.
Qed.

Lemma formatBody_header_Ret (in_ : MuxIn) w w' (u : unit) :
  formatBody_header in_ w = (w', Ret u) ->
  passed (Out (mux w'))
  = passed (Out (mux w))
      ++ openingCalls (currentNamespace (mux w)) (Intent in_)
  /\ currentNamespace (mux w') = intents.Namespace (Intent in_)
  /\ history w' = history w /\ running w' = running w
  /\ heap w' = heap w.
Proof.
  unfold formatBody_header. intros H.
  apply bind_Ret_inv in H as (w1 & w0 & H1 & H).
  injection H1 as <- <-.
  apply bind_Ret_inv in H as (w2 & [] & H2 & H).
  injection H as <- _.
  assert (Ha : adds (openingCalls (currentNamespace (mux w)) (Intent in_))
                 w w2).
  { unfold openingCalls.
    destruct (intents.Namespace (Intent in_) =? currentNamespace (mux w))%string;
      cbn [negb] in H2.
    - injection H2 as <-. apply adds_refl.
    - apply bind_Ret_inv in H2 as (w3 & [] & H3 & H2).
      apply closing_Ret in H3.
      apply bind_Ret_inv in H2 as (w4 & oh & H4 & H2).
      unfold marshal in H4.
      change (openHeaderOf (zeroMuxIn (Intent in_))) with (openHeaderOf in_).
      destruct (Marshal (openHeaderOf in_)) as [e|oh']; [discriminate|].
      injection H4 as <- <-.
      apply writeFraming_Ret in H2.
      apply (adds_trans _ _ _ _ _ H3 H2). }
  destruct Ha as (A1 & A2 & A3 & A4 & A5).
  cbn [mux setMux Out setCurrentNamespace currentNamespace history running
       heap].
  auto.
Qed.

Lemma formatBody_record_Ret (in_ : MuxIn) (b : bytes) w w' (u : unit) :
  formatBody_record in_ b w = (w', Ret u) -> adds [b] w w'.
Proof.
  unfold formatBody_record. intros H.
  apply bind_Ret_inv in H as (w1 & [l err] & H1 & H2).
  apply outWrite_Ret in H1.
  destruct err as [e|]; [discriminate|].
  unfold sendLen in H2.
  destruct (writeLenChan in_) as [c|];
    [destruct (isClosed w1 c); [discriminate|]|];
    injection H2 as <-; exact H1.
Qed.

Lemma hashWrite_Ret_inv (p : ptr) (b : bytes) w w' (u : unit) :
  hashWrite p b w = (w', Ret u) ->
  exists in_ d,
    heap w !! p = Some in_ /\ hash in_ = Some d
    /\ w' = record
              (setHeap w
                 (<[p := setHash in_ (Some (crc64.Write d b))]> (heap w)))
              (EvData p b).
Proof.
  unfold hashWrite.
  destruct (heap w !! p) as [in_|]; [|discriminate].
  destruct (hash in_) as [d|] eqn:Hd; [|discriminate].
  intros [= <-]. eauto.
Qed.

Lemma headerForEOF_Ret_inv (p : ptr) w w' (hdr : NamespaceHeader) :
  headerForEOF p w = (w', Ret hdr) ->
  exists in_ d,
    heap w !! p = Some in_ /\ hash in_ = Some d
    /\ hdr = eofHeaderOf in_ d
    /\ w' = record w (EvEOF p (eofHeaderOf in_ d)).
Proof.
  unfold headerForEOF.
  destruct (heap w !! p) as [in_|]; [|discriminate].
  destruct (hash in_) as [d|] eqn:Hd; [|discriminate].
  intros [= <- <-]. eauto 6.
Qed.

(** The turn for a received buffer, when it goes through. *)
Lemma data_turn_Ret (i : nat) (b : bytes) w w' (u : unit) :
  (let* p := insAt i in hashWrite p b;;; formatBody p b) w = (w', Ret u) ->
  exists p in_ d,
    heap w !! p = Some in_ /\ hash in_ = Some d
    /\ history w' = history w ++ [EvData p b]
    /\ passed (Out (mux w'))
       = passed (Out (mux w))
           ++ openingCalls (currentNamespace (mux w)) (Intent in_) ++ [b]
    /\ currentNamespace (mux w') = intents.Namespace (Intent in_)
    /\ running w' = running w.
Proof.
  intros H.
  apply bind_Ret_inv in H as (w1 & p & H1 & H).
  unfold insAt in H1.
  destruct (ins (mux w) !! i) as [[q|]|]; try discriminate.
  injection H1 as <- <-.
  apply bind_Ret_inv in H as (w2 & [] & H2 & H).
  apply hashWrite_Ret_inv in H2 as (in_ & d & Hp & Hd & ->).
  assert (Hlt : (q < length (heap w))%nat) by (eapply lookup_lt_Some; eauto).
  unfold formatBody in H.
  apply bind_Ret_inv in H as (w3 & in' & H3 & H).
  unfold deref in H3. cbn [heap record setHeap] in H3.
  rewrite list_lookup_insert_eq in H3 by exact Hlt.
  injection H3 as <- <-.
  apply bind_Ret_inv in H as (w4 & [] & H4 & H).
  apply formatBody_header_Ret in H4 as (A1 & A2 & A3 & A4 & _).
  apply formatBody_record_Ret in H as (B1 & B2 & B3 & B4 & _).
  exists q, in_, d. split; [exact Hp|]. split; [exact Hd|].
  rewrite B1, B2, B3, B4, A1, A2, A3, A4, <- app_assoc.
  cbn [mux record setHeap history running Intent setHash].
  auto.
Qed.

(** The turn for a closed channel, when it goes through. *)
Lemma eof_turn_Ret (i : nat) w w' (u : unit) :
  (let* p := insAt i in formatEOF i p) w = (w', Ret u) ->
  exists p in_ d,
    heap w !! p = Some in_ /\ hash in_ = Some d
    /\ history w' = history w ++ [EvEOF p (eofHeaderOf in_ d)]
    /\ passed (Out (mux w'))
       = passed (Out (mux w))
           ++ closingCalls (currentNamespace (mux w))
           ++ [bytesOf (Marshal (eofHeaderOf in_ d)); terminatorBytes]
    /\ running w' = running w.
Proof.
  intros H.
  apply bind_Ret_inv in H as (w1 & p & H1 & H).
  unfold insAt in H1.
  destruct (ins (mux w) !! i) as [[q|]|]; try discriminate.
  injection H1 as <- <-.
  unfold formatEOF in H.
  apply bind_Ret_inv in H as (w1 & w0 & H1 & H).
  injection H1 as <- <-.
  apply bind_Ret_inv in H as (w2 & [] & H2 & H).
  apply closing_Ret in H2 as (A1 & A2 & A3 & A4 & A5).
  apply bind_Ret_inv in H as (w3 & hdr & H3 & H).
  apply headerForEOF_Ret_inv in H3 as (in_ & d & Hp & Hd & -> & ->).
  apply bind_Ret_inv in H as (w4 & eh & H4 & H).
  unfold marshal in H4.
  destruct (Marshal (eofHeaderOf in_ d)) as [e|eh'] eqn:Hm; [discriminate|].
  injection H4 as <- <-.
  apply bind_Ret_inv in H as (w5 & [] & H5 & H).
  apply writeFraming_Ret in H5 as (B1 & B2 & B3 & B4 & B5).
  apply writeFraming_Ret in H as (C1 & C2 & C3 & C4 & C5).
  rewrite A5 in Hp.
  exists q, in_, d. split; [exact Hp|]. split; [exact Hd|].
  rewrite C1, C3, C4, B1, B3, B4.
  cbn [mux record history running].
  rewrite A1, A3, A4, Hm, <- !app_assoc. cbn [app bytesOf].
  auto.
Qed.

(** *** A turn does not leave [Run] waiting *)

Lemma insAt_neverBlocks (i : nat) :
  neverBlocks (W := Recorder) (insAt i).
Proof.
  intros w. unfold insAt.
  destruct (ins (mux w) !! i) as [[q|]|]; discriminate.
Qed.

Lemma formatBody_record_neverBlocks (in_ : MuxIn) (b : bytes) :
  neverBlocks (W := Recorder) (formatBody_record in_ b).
Proof.
  unfold formatBody_record. apply neverBlocks_bind.
  - apply outWrite_neverBlocks.
  - intros [l [e|]] w; [discriminate|]. unfold sendLen.
    destruct (writeLenChan in_) as [c|];
      [destruct (isClosed w c)|]; discriminate.
Qed.

Lemma data_turn_neverBlocks (i : nat) (b : bytes) :
  neverBlocks (W := Recorder)
    (let* p := insAt i in hashWrite p b;;; formatBody p b).
Proof.
  apply neverBlocks_bind; [apply insAt_neverBlocks|]. intros p.
  apply neverBlocks_bind; [apply hashWrite_neverBlocks|]. intros _.
  unfold formatBody.
  apply neverBlocks_bind; [apply deref_neverBlocks|]. intros in_.
  apply neverBlocks_bind; [apply formatBody_header_neverBlocks|]. intros _.
  apply formatBody_record_neverBlocks.
Qed.

Lemma eof_turn_neverBlocks (i : nat) :
  neverBlocks (W := Recorder) (let* p := insAt i in formatEOF i p).
Proof.
  apply neverBlocks_bind; [apply insAt_neverBlocks|]. intros p.
  unfold formatEOF.
  apply neverBlocks_bind; [intros w; discriminate|]. intros w0.
  apply neverBlocks_bind.
  { destruct (negb _); [apply writeFraming_neverBlocks|].
    intros w; discriminate. }
  intros _. apply neverBlocks_bind.
  { intros w. unfold headerForEOF.
    destruct (heap w !! p) as [in_|]; [|discriminate].
    destruct (hash in_); discriminate. }
  intros hdr. apply neverBlocks_bind; [apply marshal_neverBlocks|].
  intros eh. apply neverBlocks_bind; [apply writeFraming_neverBlocks|].
  intros _. apply writeFraming_neverBlocks.
Qed.

(** *** Every step keeps the log *)

Lemma muxStep_intents w w' :
  muxStep w w' ->
  forall p m', heap w' !! p = Some m' ->
               exists m, heap w !! p = Some m /\ Intent m = Intent m'.
Proof.
  induction 1 as [w|w1 w2 w3 _ IH1 _ IH2|w m|w a|w r|w q in_ d b Hq Hd
                 |w q in_ d Hq Hd]; intros p m' Hp; cbn in Hp; eauto.
  - destruct (IH2 p m' Hp) as (m2 & H2 & E2).
    destruct (IH1 p m2 H2) as (m1 & H1 & E1).
    exists m1. split; [exact H1 | congruence].
  - destruct (lookup_insert_heap _ _ _ _ _ _ Hq Hp) as [[-> ->]|[_ Hp']];
      eauto.
Qed.

Lemma keepsLogged_refl w : keepsLogged its out w w.
Proof. intros H. exact H. Qed.

Lemma keepsLogged_trans w1 w2 w3 :
  keepsLogged its out w1 w2 -> keepsLogged its out w2 w3 ->
  keepsLogged its out w1 w3.
Proof. unfold keepsLogged. auto. Qed.

(** A step of a producer that is no turn: the multiplexer and [running]
    stay, the history gains at most the opening of a handle, and every
    handle keeps its intent. *)
Lemma Logged_quiet {A : Type} (m : M (W := Recorder) A) :
  keeps sysStep m ->
  (forall w,
     mux (fst (m w)) = mux w /\ running (fst (m w)) = running w
     /\ (history (fst (m w)) = history w
         \/ exists p, history (fst (m w)) = history w ++ [EvOpen p])
     /\ (forall p m', heap (fst (m w)) !! p = Some m' ->
                      exists m0, heap w !! p = Some m0
                                 /\ Intent m0 = Intent m')) ->
  keeps (keepsLogged its out) m.
Proof.
  intros Hsys H w (HI & Hint & HP).
  destruct (H w) as (Em & Er & Eh & Ei).
  split; [eapply sysStep_Inv; [apply Hsys | exact HI]|]. split.
  - intros p m' Hp. destruct (Ei p m' Hp) as (m0 & H0 & E).
    rewrite <- E. auto.
  - unfold unfailed. rewrite Er, Em. intros Hc.
    destruct (HP Hc) as [P1 P2].
    destruct Eh as [->|[q ->]]; [auto|].
    rewrite layoutOf_snoc. cbn [layoutStep handed current]. auto.
Qed.

Ltac quiet_go :=
  split; [reflexivity|]; split; [reflexivity|];
  split; [left; reflexivity | intros ? ? ?; eauto].

Lemma makeChan_logged : keeps (keepsLogged its out) makeChan.
Proof.
  apply Logged_quiet; [apply makeChan_sys|].
  intros w. cbn [makeChan fst]. quiet_go.
Qed.

Lemma closeChan_logged (c : option chan) :
  keeps (keepsLogged its out) (closeChan c).
Proof.
  apply Logged_quiet; [apply closeChan_sys|].
  intros w. unfold closeChan.
  destruct c as [c'|]; [destruct (isClosed w c')|]; cbn [fst]; quiet_go.
Qed.

Lemma recvLen_logged (c : option chan) :
  keeps (keepsLogged its out) (recvLen c).
Proof.
  apply Logged_quiet; [apply recvLen_sys|].
  intros w. unfold recvLen.
  destruct c as [c'|]; [|cbn [fst]; quiet_go].
  destruct (ack w) as [[[c''|] n]|]; try destruct (Nat.eqb c' c'');
    try destruct (isClosed w c'); cbn [fst]; quiet_go.
Qed.

Lemma assign_logged (p : ptr) (f : MuxIn -> MuxIn) :
  (forall m, hash (f m) = hash m) -> (forall m, Intent (f m) = Intent m) ->
  keeps (keepsLogged its out) (assign p f).
Proof.
  intros Hh Hi. apply Logged_quiet; [apply assign_sys; exact Hh|].
  intros w. unfold assign, bind, deref, modify.
  destruct (heap w !! p) as [m|] eqn:Hp; cbn [fst]; [|quiet_go].
  split; [reflexivity|]. split; [reflexivity|].
  split; [left; reflexivity|].
  intros q m' Hq. cbn [heap setHeap] in Hq.
  destruct (lookup_insert_heap _ _ _ _ _ _ Hp Hq) as [[-> ->]|[_ Hq']]; eauto.
Qed.

Lemma newHash_logged (p : ptr) : keeps (keepsLogged its out) (newHash p).
Proof.
  apply Logged_quiet; [apply newHash_sys|].
  intros w. unfold newHash, bind, deref, modify.
  destruct (heap w !! p) as [m|] eqn:Hp; cbn [fst]; [|quiet_go].
  split; [reflexivity|]. split; [reflexivity|].
  split; [right; exists p; reflexivity|].
  intros q m' Hq. cbn [heap setHeap record] in Hq.
  destruct (lookup_insert_heap _ _ _ _ _ _ Hp Hq) as [[-> ->]|[_ Hq']]; eauto.
Qed.

(** A turn of [Run] keeps the log: if it goes through, what it hands to
    the sink is what the layout holds for it. *)
Lemma Run_turn_logged (i : nat) (v : Value) (notEOF : bool) w :
  selecting w = true ->
  Logged its out w -> Logged its out (Run_turn i v notEOF w).
Proof.
  intros Hsel (HI & Hint & HP).
  destruct (selecting_inv w Hsel) as [Hrun _].
  destruct (HP (or_introl Hrun)) as [Hpass Hcur].
  pose proof (Run_turn_mux i v notEOF w) as Hmux.
  split; [exact (muxStep_Inv _ _ Hmux HI)|]. split.
  { intros p m' Hp.
    destruct (muxStep_intents _ _ Hmux p m' Hp) as (m0 & H0 & E).
    rewrite <- E. auto. }
  unfold unfailed, Run_turn, complete.
  destruct (Nat.eqb i 0).
  - destruct notEOF; cbn [negb].
    + destruct v as [p| |]; [destruct (heap w !! p)|..]; cbn; auto.
    + destruct (negb _); cbn; auto.
  - destruct notEOF; cbn [negb].
    + destruct v as [p|b|];
        try (cbn; intros [Hc|Hc]; discriminate).
      pose proof (data_turn_neverBlocks i b w) as Hnb.
      pose proof (data_turn_Ret i b w) as HR.
      unfold afterCall, complete.
      destruct ((let* p := insAt i in hashWrite p b;;; formatBody p b) w)
        as [w1 [[]|e|pk|]]; cbn [fst snd] in *;
        try (cbn; intros [Hc|Hc]; discriminate);
        [|contradiction].
      intros _.
      destruct (HR w1 tt eq_refl) as (p & in_ & d & Hp & Hd & Eh & Ep & En & _).
      rewrite Eh, layoutOf_snoc. cbn [layoutStep].
      rewrite (Hint p in_ Hp). cbn [handed current].
      rewrite Ep, En, Hpass, Hcur, <- app_assoc. auto.
    + pose proof (eof_turn_neverBlocks i w) as Hnb.
      pose proof (eof_turn_Ret i w) as HR.
      unfold afterCall, complete.
      destruct ((let* p := insAt i in formatEOF i p) w)
        as [w1 [[]|e|pk|]]; cbn [fst snd] in *;
        try (cbn; intros [Hc|Hc]; discriminate);
        [|contradiction].
      intros _.
      destruct (HR w1 tt eq_refl) as (p & in_ & d & Hp & Hd & Eh & Ep & _).
      cbn [mux setMux Out setCases setCurrentNamespace currentNamespace
           history].
      rewrite Eh, layoutOf_snoc. cbn [layoutStep].
      rewrite (Hint p in_ Hp). cbn [handed current].
      rewrite seen_layoutOf, Ep, Hpass, Hcur, <- app_assoc.
      destruct HI as [Hdig _].
      rewrite (Hdig p in_ d Hp Hd).
      split; reflexivity.
Qed.

Lemma sendBytes_logged (c : option chan) (b : bytes) :
  keeps (keepsLogged its out) (sendBytes c b).
Proof.
  intros w HL. unfold sendBytes.
  destruct c as [c'|]; [|exact HL].
  destruct (isClosed w c'); [exact HL|].
  destruct (selecting w) eqn:Hs; [|exact HL].
  destruct (findCase c' _); [|exact HL].
  apply Run_turn_logged; assumption.
Qed.

Lemma sendControl_logged (p : ptr) :
  keeps (keepsLogged its out) (sendControl p).
Proof.
  intros w HL. unfold sendControl.
  destruct (isClosed w _); [exact HL|].
  destruct (selecting w) eqn:Hs; [|exact HL].
  apply Run_turn_logged; assumption.
Qed.

Ltac log_go :=
  repeat first
    [ solve [ auto ]
    | match goal with
      | |- keeps _ (match ?x with _ => _ end) => destruct x
      | |- keeps _ (let (_, _) := ?x in _) => destruct x
      end
    | apply (keeps_ret _ keepsLogged_refl)
    | apply (keeps_throw _ keepsLogged_refl)
    | apply (keeps_panic _ keepsLogged_refl)
    | apply (keeps_get _ keepsLogged_refl)
    | apply (keeps_deref _ keepsLogged_refl)
    | apply (keeps_insAt _ keepsLogged_refl)
    | apply (keeps_marshal _ keepsLogged_refl)
    | apply (keeps_at _ keepsLogged_refl)
    | apply (keeps_bind _ keepsLogged_trans); [ | intros ] ].

Lemma MuxIn_Open_logged (p : ptr) : keeps (keepsLogged its out) (MuxIn_Open p).
Proof.
  pose proof makeChan_logged. pose proof newHash_logged.
  pose proof sendControl_logged.
  pose proof (fun c l => assign_logged p (fun m => setWriteChans m c l)
                           (fun m => eq_refl) (fun m => eq_refl)).
  pose proof (fun b c => assign_logged p (fun m => setBuf m b c)
                           (fun m => eq_refl) (fun m => eq_refl)).
  unfold MuxIn_Open. log_go.
Qed.

Lemma MuxIn_Close_logged (p : ptr) :
  keeps (keepsLogged its out) (MuxIn_Close p).
Proof.
  pose proof closeChan_logged. pose proof recvLen_logged.
  pose proof sendBytes_logged.
  pose proof (fun b c => assign_logged p (fun m => setBuf m b c)
                           (fun m => eq_refl) (fun m => eq_refl)).
  unfold MuxIn_Close. log_go.
Qed.

Lemma MuxIn_Write_logged (p : ptr) (b : bytes) :
  keeps (keepsLogged its out) (MuxIn_Write p b).
Proof.
  pose proof recvLen_logged. pose proof sendBytes_logged.
  pose proof (assign_logged p (fun m => setBuf m [] (bufCap m))
                (fun m => eq_refl) (fun m => eq_refl)).
  pose proof (assign_logged p (fun m => append_ m b)
                (fun m => eq_refl) (fun m => eq_refl)).
  unfold MuxIn_Write. log_go.
Qed.

Lemma step_logged (op : Op) w : Logged its out w -> Logged its out (step op w).
Proof.
  intros HL. destruct op as [p|p b|p| |i]; cbn [step].
  - apply MuxIn_Open_logged. exact HL.
  - apply MuxIn_Write_logged. exact HL.
  - apply MuxIn_Close_logged. exact HL.
  - apply closeChan_logged. exact HL.
  - unfold selectEOF.
    destruct (selectCases (mux w) !! i) as [[c|]|]; try exact HL.
    destruct (isClosed w c); cbn [andb]; [|exact HL].
    destruct (selecting w) eqn:Hs; [|exact HL].
    apply Run_turn_logged; assumption.
Qed.

Lemma Logged_NewWorld : Logged its out (NewWorld out its).
Proof.
  split; [apply Inv_NewWorld|]. split.
  - intros p m Hp. cbn in Hp. rewrite list_lookup_fmap in Hp.
    destruct (its !! p) as [it|]; cbn in Hp; [|discriminate].
    injection Hp as <-. reflexivity.
  - intros _. cbn. rewrite app_nil_r. auto.
Qed.

Lemma exec_logged (ops : list Op) w :
  Logged its out w -> Logged its out (exec ops w).
Proof.
  revert w. induction ops as [|op ops IH]; intros w HL; [exact HL|].
  apply (IH (step op w)). apply step_logged. exact HL.
Qed.

(** C6, as the code has it.  Take any execution from a new multiplexer
    on a sink that keeps what it is handed, whatever it answers, in
    which no turn of [Run] has failed.  The byte strings handed to the
    sink are then the layout of the turns taken, in their order: each
    buffer received from a handle, after the opening of its namespace
    if need be; and for each channel found closed a terminator if a
    namespace is current, the eof header of the intent of its handle,
    and a terminator.  The crc of that eof header is the CRC-64/ECMA
    checksum of the concatenation of the buffers received from the
    handle since it was last opened, in the order received, however the
    bytes were cut into buffers; what the handle had delivered before
    that [Open] is not in it. *)
Theorem eof_crc_is_checksum_since_last_Open (ops : list Op) :
  unfailed (exec ops (NewWorld out its)) ->
  passed (Out (mux (exec ops (NewWorld out its))))
  = passed out
      ++ handed (layoutOf its (history (exec ops (NewWorld out its)))).
Proof.
  intros Hc.
  destruct (exec_logged ops _ Logged_NewWorld) as (_ & _ & HP).
  apply HP. exact Hc.
Qed.

End ArchiveLogFacts.

(** ** One stream from end to end *)

Section StreamFacts.

Context {Ext : Externals}.
Implicit Types w : World (W := Recorder).

Notation "'let*' x ':=' m 'in' k" := (bind m (fun x => k))
  (at level 10, x pattern, m at level 100, k at level 200).
Notation "m ';;;' k" := (bind m (fun _ => k))
  (at level 100, k at level 200, right associativity).

Ltac heap_at :=
  cbn;
  first [ eassumption
        | apply list_lookup_insert_eq; rewrite ?length_insert; assumption ].

Lemma openingOf_same (ns : string) (oh : bytes) : openingOf ns ns oh = [].
Proof. unfold openingOf. rewrite String.eqb_refl. reflexivity. Qed.

Lemma Open_streaming w (p : ptr) (m : MuxIn) (oh : bytes) :
  heap w !! p = Some m ->
  selecting w = true ->
  wellFormed w ->
  script (Out (mux w)) = [] ->
  streaming w p m oh [] (opened w p (Intent m)).
Proof.
  intros Hp Hsel (Hwf1 & Hwf2 & Hwf3) Hs.
  assert (Hlt : (p < length (heap w))%nat) by (eapply lookup_lt_Some; eauto).
  eexists _, [].
  split; [apply list_lookup_insert_eq; exact Hlt|]. cbn.
  repeat split; try reflexivity.
  - exact Hsel.
  - apply findCase_fresh. exact Hwf1.
  - exact Hs.
  - rewrite app_nil_r. reflexivity.
Qed.

Lemma close_last_two (l : list bool) :
  <[S (length l) := true]> (<[length l := true]> (l ++ [false; false]))
  = l ++ [true; true].
Proof. induction l as [|x l IH]; cbn; [reflexivity | f_equal; exact IH]. Qed.

Lemma closed_tookOpening (s : Recorder) (cur ns : string) (oh : bytes) :
  closed (tookOpening s cur ns oh) = closed s.
Proof.
  unfold tookOpening. destruct (ns =? cur)%string; [reflexivity|].
  destruct (cur =? EmptyString)%string; reflexivity.
Qed.

Lemma isClosed_last_two w (l : list bool) :
  chans w = l ++ [false; false] ->
  isClosed w (length l) = false /\ isClosed w (S (length l)) = false.
Proof.
  intros H. unfold isClosed. rewrite H. split.
  - rewrite lookup_app_r by lia. rewrite Nat.sub_diag. reflexivity.
  - rewrite lookup_app_r by lia.
    replace (S (length l) - length l)%nat with 1%nat by lia. reflexivity.
Qed.

Lemma openHeaderOf_Intent (m m' : MuxIn) :
  Intent m' = Intent m -> openHeaderOf m' = openHeaderOf m.
Proof. intros H. unfold openHeaderOf. rewrite H. reflexivity. Qed.

Lemma eofHeaderOf_Intent (m m' : MuxIn) (d : Z) :
  Intent m' = Intent m -> eofHeaderOf m' d = eofHeaderOf m d.
Proof. intros H. unfold eofHeaderOf. rewrite H. reflexivity. Qed.

(** A well-framed [Write] on a stream in progress returns the length of
    its input and leaves a stream in progress. *)
Lemma Write_streaming (w0 w : World (W := Recorder)) (p : ptr) (m : MuxIn)
    (oh sent b : bytes) :
  Marshal (openHeaderOf m) = inr oh ->
  (0 < length (selectCases (mux w0)))%nat ->
  length (ins (mux w0)) = length (selectCases (mux w0)) ->
  streaming w0 p m oh sent w -> framed b = true ->
  snd (MuxIn_Write p b w) = Ret (len b, None)
  /\ streaming w0 p m oh (sent ++ b) (fst (MuxIn_Write p b w)).
Proof.
  intros Hoh Hpos Hlen
    (m' & flushed & Hp & Hc & Hl & Hit & Hd & Hsent & Hch & Hctl & Hsel
     & Hf & Hins & Hsc & Hs & Hcl & Hw) Hb.
  destruct (isClosed_last_two w _ Hch) as [Hoc Hol].
  assert (Hlt : (p < length (heap w))%nat) by (eapply lookup_lt_Some; eauto).
  rewrite (Write_framed w p m' b Hp Hb).
  destruct (len (buf m') + len b >? bufCap m') eqn:Hover.
  - rewrite ?bind_assoc. rewrite Hc.
    rewrite (run_bind _ _ _ _ _ (sendBytes_eq _ _ _ _ Hoc Hsel Hf)).
    rewrite (data_turn_took w (length (selectCases (mux w0))) p m'
               (crc64.Checksum flushed) (S (length (chans w0))) (buf m') oh);
      try assumption.
    2:{ lia. }
    2:{ rewrite Hins, <- Hlen. apply list_lookup_middle. reflexivity. }
    2:{ rewrite (openHeaderOf_Intent m m' Hit). exact Hoh. }
    set (in' := setHash m' (Some (crc64.Write (crc64.Checksum flushed) (buf m')))).
    match goal with
    | |- context [afterData ?a ?b ?c ?d ?e ?f ?g] =>
        set (wd := afterData a b c d e f g)
    end.
    assert (Hp2 : heap wd !! p = Some in')
      by (apply list_lookup_insert_eq; assumption).
    rewrite ?bind_assoc.
    rewrite (run_bind _ _ _ _ _ (deref_eq _ _ _ Hp2)).
    rewrite ?bind_assoc.
    cbn [writeLenChan in' setHash]. rewrite Hl.
    erewrite run_bind by (apply recvLen_eq; reflexivity).
    rewrite ?bind_assoc.
    erewrite run_bind by (apply deref_eq; exact Hp2).
    cbn [buf in' setHash]. rewrite Z.eqb_refl. cbn [negb].
    rewrite ?bind_assoc.
    erewrite run_bind by (apply assign_eq; exact Hp2).
    erewrite run_bind by reflexivity. cbv iota.
    erewrite run_bind by (apply assign_eq; heap_at).
    split; [reflexivity|].
    exists (append_ (setBuf in' [] (bufCap in')) b), (flushed ++ buf m').
    unfold selecting in *.
    cbn [fst ret mux heap chans running ack setHeap setAck wd afterData Out
         currentNamespace setCurrentNamespace setOut ins selectCases
         writeChan writeLenChan Intent hash buf append_ setBuf in' setHash
         script took Control].
    rewrite Write_Checksum, Hit.
    split.
    { rewrite !list_insert_insert_eq.
      apply list_lookup_insert_eq. exact Hlt. }
    repeat split; try assumption.
    + rewrite Hsent. reflexivity.
    + destruct (running w); try discriminate. reflexivity.
    + cbn. rewrite closed_tookOpening. exact Hcl.
    + rewrite openingOf_same, app_nil_r.
      rewrite written_took, written_tookOpening.
      rewrite <- app_assoc, app_assoc, Hw, <- !app_assoc. reflexivity.
  - erewrite run_bind by reflexivity. cbv iota.
    erewrite run_bind by (apply assign_eq; exact Hp).
    split; [reflexivity|].
    exists (append_ m' b), flushed. cbn [fst ret].
    split; [apply list_lookup_insert_eq; exact Hlt|].
    cbn.
    repeat split; try assumption.
    rewrite app_assoc, Hsent. reflexivity.
Qed.

(** X9.  What one turn for a received buffer sends to a sink that takes
    every write whole.  If the namespace of the handle is not the
    current one, a terminator (when some namespace was current) and the
    open header of the handle come first; then the buffer, as it is.
    The namespace of the handle becomes the current one, the digest of
    the handle has taken the buffer in, the length of the buffer alone
    waits on the length channel, the slices are as they were and [Run]
    goes on. *)
Theorem data_turn_layout w (i : nat) (p : ptr) (in_ : MuxIn) (d : Z)
    (c : chan) (b oh : bytes) :
  i <> 0%nat ->
  ins (mux w) !! i = Some (Some p) ->
  heap w !! p = Some in_ -> hash in_ = Some d ->
  writeLenChan in_ = Some c -> isClosed w c = false ->
  script (Out (mux w)) = [] ->
  Marshal (openHeaderOf in_) = inr oh ->
  let ns := intents.Namespace (Intent in_) in
  let cur := currentNamespace (mux w) in
  let w' := Run_turn i (VBytes b) true w in
  written (Out (mux w'))
  = written (Out (mux w))
      ++ (if (ns =? cur)%string then []
          else (if (cur =? EmptyString)%string then [] else terminatorBytes)
               ++ oh)
      ++ b
  /\ currentNamespace (mux w') = ns
  /\ heap w' !! p = Some (setHash in_ (Some (crc64.Write d b)))
  /\ ack w' = Some (Some c, len b)
  /\ ins (mux w') = ins (mux w)
  /\ selectCases (mux w') = selectCases (mux w)
  /\ running w' = running w.
Proof.
  intros Hi Hins Hp Hd Hc Hopen Hs Hm. cbv zeta.
  rewrite (data_turn_took w i p in_ d c b oh Hi Hins Hp Hd Hc Hopen Hs Hm).
  cbn [afterData mux Out setCurrentNamespace setOut currentNamespace heap ack
       ins selectCases running].
  rewrite written_took, written_tookOpening, <- app_assoc.
  repeat split.
  apply list_lookup_insert_eq. eapply lookup_lt_Some; eauto.
Qed.

(** X10.  What the turn for a closed data channel sends to a sink that
    takes every write whole: a terminator if some namespace is current
    (whichever handle it belongs to), the eof header of the handle with
    the sum of its digest as crc, and a terminator.  No namespace is
    current afterwards, the entry of the handle is gone from both
    slices, the handles are untouched and [Run] goes on. *)
Theorem eof_turn_layout w (i : nat) (p : ptr) (in_ : MuxIn) (d : Z)
    (eh : bytes) :
  i <> 0%nat ->
  ins (mux w) !! i = Some (Some p) ->
  heap w !! p = Some in_ -> hash in_ = Some d ->
  script (Out (mux w)) = [] ->
  Marshal (eofHeaderOf in_ d) = inr eh ->
  let w' := Run_turn i VZero false w in
  written (Out (mux w'))
  = written (Out (mux w))
      ++ (if (currentNamespace (mux w) =? EmptyString)%string then []
          else terminatorBytes)
      ++ eh ++ terminatorBytes
  /\ CRC (eofHeaderOf in_ d) = int64 d
  /\ currentNamespace (mux w') = EmptyString
  /\ ins (mux w') = take i (ins (mux w)) ++ drop (S i) (ins (mux w))
  /\ selectCases (mux w')
     = take i (selectCases (mux w)) ++ drop (S i) (selectCases (mux w))
  /\ heap w' = heap w
  /\ running w' = running w.
Proof.
  intros Hi Hins Hp Hd Hs Hm. cbv zeta.
  rewrite (eof_turn_took w i p in_ d eh Hi Hins Hp Hd Hs Hm).
  cbn [afterEOF mux Out setCases setCurrentNamespace setOut currentNamespace
       heap ins selectCases running].
  unfold tookClosing.
  destruct (currentNamespace (mux w) =? EmptyString)%string;
    rewrite !written_took, <- ?app_assoc; repeat split.
Qed.

Lemma exec_cons (op : Op) (ops : list Op) w :
  exec ops (step op w) = exec (op :: ops) w.
Proof. reflexivity. Qed.

Lemma exec_app (ops1 ops2 : list Op) w :
  exec (ops1 ++ ops2) w = exec ops2 (exec ops1 w).
Proof. unfold exec. apply fold_left_app. Qed.

Lemma Writes_streaming (w0 : World (W := Recorder)) (p : ptr) (m : MuxIn)
    (oh : bytes) (bs : list bytes) :
  Marshal (openHeaderOf m) = inr oh ->
  (0 < length (selectCases (mux w0)))%nat ->
  length (ins (mux w0)) = length (selectCases (mux w0)) ->
  Forall (fun b => framed b = true) bs ->
  forall sent w,
    streaming w0 p m oh sent w ->
    streaming w0 p m oh (sent ++ concat bs) (exec (map (OpWrite p) bs) w).
Proof.
  intros Hoh Hpos Hlen. induction 1 as [|b bs Hb _ IH]; intros sent w Hst.
  - cbn. rewrite app_nil_r. exact Hst.
  - cbn [map concat]. rewrite <- exec_cons, app_assoc.
    apply IH. cbn [step].
    apply (Write_streaming w0 w p m oh sent b); assumption.
Qed.

Lemma remove_last {A : Type} (l : list A) (x : A) :
  remove (length l) (l ++ [x]) = l.
Proof.
  unfold remove. rewrite take_app_length.
  rewrite drop_ge by (rewrite length_app; cbn; lia).
  apply app_nil_r.
Qed.

(** [Close] on a stream in progress, and the turn in which the
    multiplexer finds the channel closed. *)
Lemma Close_EOF_streaming (w0 w : World (W := Recorder)) (p : ptr)
    (m : MuxIn) (oh eh sent : bytes) :
  Marshal (openHeaderOf m) = inr oh ->
  Marshal (eofHeaderOf m (crc64.Checksum sent)) = inr eh ->
  (0 < length (selectCases (mux w0)))%nat ->
  length (ins (mux w0)) = length (selectCases (mux w0)) ->
  streaming w0 p m oh sent w ->
  let w' := exec [OpClose p; OpSelectEOF (length (selectCases (mux w0)))] w in
  written (Out (mux w'))
  = written (Out (mux w0))
      ++ openingOf (currentNamespace (mux w0))
           (intents.Namespace (Intent m)) oh
      ++ sent ++ terminatorBytes ++ eh ++ terminatorBytes
  /\ currentNamespace (mux w') = EmptyString
  /\ ins (mux w') = ins (mux w0)
  /\ selectCases (mux w') = selectCases (mux w0)
  /\ selecting w' = true
  /\ chans w' = chans w0 ++ [true; true]
  /\ Control (mux w') = Control (mux w0)
  /\ script (Out (mux w')) = []
  /\ closed (Out (mux w')) = closed (Out (mux w0)).
Proof.
  intros Hoh Heh Hpos Hlen
    (m' & flushed & Hp & Hc & Hl & Hit & Hd & Hsent & Hch & Hctl & Hsel
     & Hf & Hins & Hsc & Hs & Hcl & Hw).
  destruct (isClosed_last_two w _ Hch) as [Hoc Hol].
  assert (Hlt : (p < length (heap w))%nat) by (eapply lookup_lt_Some; eauto).
  set (c := length (chans w0)) in *.
  set (i := length (selectCases (mux w0))) in *.
  assert (Hi : i <> 0%nat) by lia.
  assert (Hinsi : ins (mux w) !! i = Some (Some p)).
  { rewrite Hins, <- Hlen. apply list_lookup_middle. reflexivity. }
  assert (Hoh' : Marshal (openHeaderOf m') = inr oh)
    by (rewrite (openHeaderOf_Intent m m' Hit); exact Hoh).
  cbv zeta. unfold exec. cbn [fold_left step].
  rewrite (Close_took w p m' (crc64.Checksum flushed) c (S c) i oh);
    try assumption.
  2:{ lia. }
  cbn [fst].
  set (w2 := afterClose w p m' (crc64.Checksum flushed) c (S c) oh).
  set (m3 := setBuf (setHash m' (Some (crc64.Write (crc64.Checksum flushed)
                                         (buf m')))) [] 0).
  assert (Hp3 : heap w2 !! p = Some m3)
    by (apply list_lookup_insert_eq; exact Hlt).
  assert (Hch2 : chans w2 = chans w0 ++ [true; true]).
  { cbn [w2 afterClose chans]. rewrite Hch. apply close_last_two. }
  assert (Hclosed : isClosed w2 c = true).
  { unfold isClosed. rewrite Hch2. rewrite lookup_app_r by (unfold c; lia).
    unfold c. rewrite Nat.sub_diag. reflexivity. }
  assert (Hsel2 : selecting w2 = true).
  { unfold selecting in *. cbn. destruct (running w); try discriminate.
    reflexivity. }
  unfold selectEOF.
  replace (selectCases (mux w2) !! i) with (Some (Some c)).
  2:{ symmetry. change (selectCases (mux w2)) with (selectCases (mux w)).
      rewrite Hsc. apply list_lookup_middle. reflexivity. }
  rewrite Hclosed, Hsel2. cbn [andb].
  assert (Hd3 : crc64.Write (crc64.Checksum flushed) (buf m')
                = crc64.Checksum sent)
    by (rewrite Write_Checksum, Hsent; reflexivity).
  rewrite (eof_turn_took w2 i p m3 (crc64.Checksum sent) eh);
    try assumption.
  2:{ cbn. rewrite Hd3. reflexivity. }
  2:{ reflexivity. }
  2:{ rewrite <- Heh. f_equal. apply eofHeaderOf_Intent. exact Hit. }
  cbn [afterEOF mux Out setCases setCurrentNamespace setOut ins selectCases
       currentNamespace].
  change (ins (mux w2)) with (ins (mux w)).
  change (selectCases (mux w2)) with (selectCases (mux w)).
  rewrite Hins, Hsc.
  assert (Hr1 : remove i (ins (mux w0) ++ [Some p]) = ins (mux w0))
    by (rewrite <- Hlen; apply remove_last).
  assert (Hr2 : remove i (selectCases (mux w0) ++ [Some c])
                = selectCases (mux w0))
    by (apply remove_last).
  rewrite Hr1, Hr2.
  repeat split.
  - unfold tookClosing.
    replace (currentNamespace (mux w2))
      with (intents.Namespace (Intent m')) by reflexivity.
    rewrite Namespace_not_empty. rewrite !written_took.
    replace (Out (mux w2))
      with (took (tookOpening (Out (mux w)) (currentNamespace (mux w))
                    (intents.Namespace (Intent m')) oh) (buf m'))
      by reflexivity.
    rewrite written_took, written_tookOpening, Hit.
    rewrite Hw, <- Hsent, <- !app_assoc. reflexivity.
  - exact Hsel2.
  - exact Hch2.
  - exact Hctl.
  - unfold tookClosing.
    replace (Out (mux w2))
      with (took (tookOpening (Out (mux w)) (currentNamespace (mux w))
                    (intents.Namespace (Intent m')) oh) (buf m'))
      by reflexivity.
    destruct (currentNamespace (mux w2) =? EmptyString)%string; cbn;
      rewrite closed_tookOpening; exact Hcl.
Qed.

(** X5.  The layout of one stream.  On a multiplexer that is selecting,
    whose sink takes every write whole, a producer that opens its
    handle, writes the well-framed records [bs] one by one and closes
    it makes the sink receive, once the multiplexer has found the
    channel closed: the opening of the namespace (a terminator if
    another namespace was current, and the open header), the records in
    order with nothing between them, however the buffer cut them into
    shipments, a terminator, the eof header carrying the CRC-64 of all
    the records, and a terminator.  The multiplexer is then selecting
    again with the slices it had before and no current namespace. *)
Theorem one_stream_layout w (p : ptr) (m : MuxIn) (oh eh : bytes)
    (bs : list bytes) :
  heap w !! p = Some m ->
  selecting w = true ->
  isClosed w (Control (mux w)) = false ->
  wellFormed w ->
  script (Out (mux w)) = [] ->
  Forall (fun b => framed b = true) bs ->
  Marshal (openHeaderOf m) = inr oh ->
  Marshal (eofHeaderOf m (crc64.Checksum (concat bs))) = inr eh ->
  let w' :=
    exec (OpOpen p :: map (OpWrite p) bs
          ++ [OpClose p; OpSelectEOF (length (selectCases (mux w)))]) w in
  written (Out (mux w'))
  = written (Out (mux w))
      ++ openingOf (currentNamespace (mux w))
           (intents.Namespace (Intent m)) oh
      ++ concat bs ++ terminatorBytes ++ eh ++ terminatorBytes
  /\ currentNamespace (mux w') = EmptyString
  /\ ins (mux w') = ins (mux w)
  /\ selectCases (mux w') = selectCases (mux w)
  /\ selecting w' = true.
Proof.
  intros Hp Hsel Hctl Hwf Hs Hbs Hoh Heh. cbv zeta.
  pose proof Hwf as (Hwf1 & Hwf2 & Hwf3).
  rewrite <- exec_cons. cbn [step].
  rewrite (MuxIn_Open_eq w p m Hp Hsel Hctl). cbn [fst].
  rewrite exec_app.
  destruct (Close_EOF_streaming w
              (exec (map (OpWrite p) bs) (opened w p (Intent m)))
              p m oh eh (concat bs) Hoh Heh Hwf3 Hwf2)
    as (H1 & H2 & H3 & H4 & H5 & _); [|auto].
  apply (Writes_streaming w p m oh bs Hoh Hwf3 Hwf2 Hbs []).
  apply Open_streaming; assumption.
Qed.

Lemma Close_streaming_Ret (w0 w : World (W := Recorder)) (p : ptr)
    (m : MuxIn) (oh sent : bytes) :
  Marshal (openHeaderOf m) = inr oh ->
  (0 < length (selectCases (mux w0)))%nat ->
  length (ins (mux w0)) = length (selectCases (mux w0)) ->
  streaming w0 p m oh sent w ->
  snd (MuxIn_Close p w) = Ret None.
Proof.
  intros Hoh Hpos Hlen
    (m' & flushed & Hp & Hc & Hl & Hit & Hd & Hsent & Hch & Hctl & Hsel
     & Hf & Hins & Hsc & Hs & Hcl & Hw).
  destruct (isClosed_last_two w _ Hch) as [Hoc Hol].
  rewrite (Close_took w p m' (crc64.Checksum flushed) (length (chans w0))
             (S (length (chans w0))) (length (selectCases (mux w0))) oh);
    try assumption; try reflexivity; try lia.
  - rewrite Hins, <- Hlen. apply list_lookup_middle. reflexivity.
  - rewrite (openHeaderOf_Intent m m' Hit). exact Hoh.
Qed.

(** X20.  A producer that keeps to the protocol is never refused and
    never left waiting.  On a multiplexer that is selecting, whose sink
    takes every write whole: [Open] returns nil, each [Write] of a
    well-framed record returns the length of the record and nil, and
    [Close] returns nil, however many shipments the buffer needed. *)
Theorem protocol_calls_succeed w (p : ptr) (m : MuxIn) (oh : bytes)
    (bs : list bytes) :
  heap w !! p = Some m ->
  selecting w = true ->
  isClosed w (Control (mux w)) = false ->
  wellFormed w ->
  script (Out (mux w)) = [] ->
  Forall (fun b => framed b = true) bs ->
  Marshal (openHeaderOf m) = inr oh ->
  snd (MuxIn_Open p w) = Ret None
  /\ (forall pre b post,
        bs = pre ++ b :: post ->
        snd (MuxIn_Write p b (exec (OpOpen p :: map (OpWrite p) pre) w))
        = Ret (len b, None))
  /\ snd (MuxIn_Close p (exec (OpOpen p :: map (OpWrite p) bs) w)) = Ret None.
Proof.
  intros Hp Hsel Hctl Hwf Hs Hbs Hoh.
  pose proof Hwf as (Hwf1 & Hwf2 & Hwf3).
  pose proof (Open_streaming w p m oh Hp Hsel Hwf Hs) as Hst.
  assert (Hexec : forall l,
            exec (OpOpen p :: map (OpWrite p) l) w
            = exec (map (OpWrite p) l) (opened w p (Intent m))).
  { intros l. rewrite <- exec_cons. cbn [step].
    rewrite (MuxIn_Open_eq w p m Hp Hsel Hctl). reflexivity. }
  split; [|split].
  - rewrite (MuxIn_Open_eq w p m Hp Hsel Hctl). reflexivity.
  - intros pre b post ->. rewrite Hexec.
    apply Forall_app in Hbs as [Hpre Hb].
    apply Forall_cons in Hb as [Hb _].
    apply (Write_streaming w _ p m oh ([] ++ concat pre) b Hoh Hwf3 Hwf2);
      [|exact Hb].
    apply (Writes_streaming w p m oh pre Hoh Hwf3 Hwf2 Hpre [] _ Hst).
  - rewrite Hexec.
    apply (Close_streaming_Ret w _ p m oh ([] ++ concat bs) Hoh Hwf3 Hwf2).
    apply (Writes_streaming w p m oh bs Hoh Hwf3 Hwf2 Hbs [] _ Hst).
Qed.

(** The control channel is closed while no stream is open, and the
    multiplexer finds it closed. *)
Lemma clean_shutdown w (ctl : chan) :
  selecting w = true ->
  Control (mux w) = ctl ->
  selectCases (mux w) = [Some ctl] ->
  chans w !! ctl = Some false ->
  running (exec [OpCloseControl; OpSelectEOF 0] w) = Returned None
  /\ Out (mux (exec [OpCloseControl; OpSelectEOF 0] w))
     = fst (wcClose (Out (mux w))).
Proof.
  intros Hsel Hctl Hsc Hch.
  assert (Hlt : (ctl < length (chans w))%nat)
    by (eapply lookup_lt_Some; eauto).
  assert (E : exec [OpCloseControl; OpSelectEOF 0] w
              = complete None
                  (setMux (setChans w (<[ctl := true]> (chans w)))
                     (setOut (mux w) (fst (wcClose (Out (mux w))))))).
  { unfold exec. cbn [fold_left step]. rewrite Hctl.
    rewrite closeChan_eq by (unfold isClosed; rewrite Hch; reflexivity).
    cbn [fst]. unfold selectEOF. cbn [mux setChans]. rewrite Hsc.
    change ([Some ctl] !! 0%nat) with (Some (Some ctl)). cbv iota.
    replace (isClosed (setChans w (<[ctl:=true]> (chans w))) ctl) with true.
    2:{ unfold isClosed. cbn [chans setChans].
        rewrite list_lookup_insert_eq by exact Hlt. reflexivity. }
    replace (selecting (setChans w (<[ctl:=true]> (chans w)))) with true
      by (symmetry; exact Hsel).
    cbn [andb]. unfold Run_turn.
    cbn [Nat.eqb negb mux setMux setChans selectCases setOut].
    rewrite Hsc. reflexivity. }
  rewrite E. split; reflexivity.
Qed.

Lemma openingOf_first (it : intents.Intent) (oh : bytes) :
  openingOf EmptyString (intents.Namespace it) oh = oh.
Proof. unfold openingOf. rewrite Namespace_not_empty. reflexivity. Qed.

Lemma NewWorld_idle (out : Recorder) (its : list intents.Intent) :
  script out = [] -> idle its (NewWorld out its).
Proof.
  intros Hs. repeat split; try reflexivity; try exact Hs.
  intros p it Hp. exists (zeroMuxIn it).
  split; [|reflexivity]. cbn. rewrite list_lookup_fmap, Hp. reflexivity.
Qed.

Lemma marshals_inr (h : NamespaceHeader) :
  marshals h = true -> Marshal h = inr (bytesOf (Marshal h)).
Proof. unfold marshals. destruct (Marshal h); [discriminate|reflexivity]. Qed.

(** One stream on an idle multiplexer leaves it idle, with the bytes of
    the stream added to the sink. *)
Lemma stream_idle (its : list intents.Intent) w (s : ptr * list bytes) :
  idle its w -> streamable its s = true ->
  idle its (exec (streamOps 1 s) w)
  /\ written (Out (mux (exec (streamOps 1 s) w)))
     = written (Out (mux w)) ++ streamBytes its s.
Proof.
  intros (Hsel & Hctl & Hsc & Hins & Hch & Hs & Hcur & Hheap) Hok.
  destruct s as [p bs]. unfold streamable, streamBytes in *. cbn [fst snd] in *.
  destruct (its !! p) as [it|] eqn:Hit; [|discriminate].
  apply andb_prop in Hok as [Hok Heh]. apply andb_prop in Hok as [Hbs Hoh].
  apply marshals_inr in Hoh, Heh.
  assert (Hbs' : Forall (fun b => framed b = true) bs)
    by (apply List.Forall_forall; exact (proj1 (forallb_forall _ _) Hbs)).
  clear Hbs. rename Hbs' into Hbs.
  destruct (Hheap p it Hit) as (m & Hp & Hm).
  set (oh := bytesOf (Marshal (openHeaderOf (zeroMuxIn it)))) in *.
  set (eh := bytesOf (Marshal (eofHeaderOf (zeroMuxIn it)
                                 (crc64.Checksum (concat bs))))) in *.
  assert (Hoh' : Marshal (openHeaderOf m) = inr oh)
    by (rewrite (openHeaderOf_Intent (zeroMuxIn it) m Hm); exact Hoh).
  assert (Heh' : Marshal (eofHeaderOf m (crc64.Checksum (concat bs))) = inr eh)
    by (rewrite (eofHeaderOf_Intent (zeroMuxIn it) m _ Hm); exact Heh).
  assert (Hlt : (0 < length (chans w))%nat) by (eapply lookup_lt_Some; eauto).
  assert (Hpos : (0 < length (selectCases (mux w)))%nat)
    by (rewrite Hsc; cbn; lia).
  assert (Hlen : length (ins (mux w)) = length (selectCases (mux w)))
    by (rewrite Hins, Hsc; reflexivity).
  assert (Hwf : wellFormed w).
  { split; [|split; assumption]. rewrite Hsc. repeat constructor. exact Hlt. }
  assert (Hopen : isClosed w (Control (mux w)) = false)
    by (unfold isClosed; rewrite Hctl, Hch; reflexivity).
  pose proof (exec_handlesKept (streamOps 1 (p, bs)) w) as Hkept.
  assert (E : streamOps 1 (p, bs)
              = OpOpen p :: map (OpWrite p) bs
                ++ [OpClose p; OpSelectEOF (length (selectCases (mux w)))])
    by (rewrite Hsc; reflexivity).
  rewrite E in *. clear E.
  rewrite <- exec_cons, exec_app in *. cbn [step] in *.
  rewrite (MuxIn_Open_eq w p m Hp Hsel Hopen) in *. cbn [fst] in *.
  destruct (Close_EOF_streaming w
              (exec (map (OpWrite p) bs) (opened w p (Intent m)))
              p m oh eh (concat bs) Hoh' Heh' Hpos Hlen
              (Writes_streaming w p m oh bs Hoh' Hpos Hlen Hbs [] _
                 (Open_streaming w p m oh Hp Hsel Hwf Hs)))
    as (Hw & Hcur2 & Hins2 & Hsc2 & Hsel2 & Hch2 & Hctl2 & Hs2 & _).
  split.
  - repeat split; try assumption; try congruence.
    + rewrite Hch2. apply lookup_app_l_Some. exact Hch.
    + intros q it' Hq. destruct (Hheap q it' Hq) as (mq & Hmq & Eq).
      destruct (Hkept q mq Hmq) as (mq' & Hmq' & Eq').
      exists mq'. split; [exact Hmq' | congruence].
  - rewrite Hw, Hcur, Hm, openingOf_first. reflexivity.
Qed.

Lemma streams_idle (its : list intents.Intent)
    (streams : list (ptr * list bytes)) :
  forall w,
    idle its w -> forallb (streamable its) streams = true ->
    idle its (exec (flat_map (streamOps 1) streams) w)
    /\ written (Out (mux (exec (flat_map (streamOps 1) streams) w)))
       = written (Out (mux w)) ++ flat_map (streamBytes its) streams.
Proof.
  induction streams as [|s streams IH]; intros w Hw Hok.
  - cbn. rewrite app_nil_r. auto.
  - cbn [forallb flat_map] in *. apply andb_prop in Hok as [Hs Hok].
    rewrite exec_app.
    destruct (stream_idle its w s Hw Hs) as [Hw1 E1].
    destruct (IH _ Hw1 Hok) as [Hw2 E2].
    split; [exact Hw2|]. rewrite E2, E1, <- app_assoc. reflexivity.
Qed.

(** X6.  A whole archive, one collection after the other.  From a new
    multiplexer on a sink that takes every write whole: for each stream
    in turn a producer opens its handle, writes its well-framed records
    and closes it, and the multiplexer finds the channel closed; then
    the owner closes the control channel and the multiplexer finds that
    closed too.  [Run] has then returned with nil on [Completed], the
    sink has been closed, and what it has received is, stream after
    stream: the open header, the records in order, a terminator, the
    eof header with the CRC-64 of the records and a terminator. *)
Theorem archive_of_collections (out : Recorder) (its : list intents.Intent)
    (streams : list (ptr * list bytes)) :
  script out = [] ->
  forallb (streamable its) streams = true ->
  let w' :=
    exec (flat_map (streamOps 1) streams ++ [OpCloseControl; OpSelectEOF 0])
      (NewWorld out its) in
  running w' = Returned None
  /\ closed (Out (mux w')) = true
  /\ written (Out (mux w'))
     = written out ++ flat_map (streamBytes its) streams.
Proof.
  intros Hs Hok. cbv zeta. rewrite exec_app.
  destruct (streams_idle its streams (NewWorld out its)
              (NewWorld_idle out its Hs) Hok)
    as ((Hsel & Hctl & Hsc & _ & Hch & _) & Hw).
  destruct (clean_shutdown _ 0%nat Hsel Hctl Hsc Hch) as [Hrun Hout].
  split; [exact Hrun|]. rewrite Hout.
  split; [reflexivity|]. exact Hw.
Qed.

(** *** The sink is closed once, at the end *)

Lemma sameClosed_refl w : sameClosed w w.
Proof. reflexivity. Qed.

Lemma sameClosed_trans w1 w2 w3 :
  sameClosed w1 w2 -> sameClosed w2 w3 -> sameClosed w1 w3.
Proof. unfold sameClosed. congruence. Qed.

Ltac keeps_with rf tr :=
  repeat first
    [ solve [ auto ]
    | match goal with
      | |- keeps _ (match ?x with _ => _ end) => destruct x
      | |- keeps _ (let (_, _) := ?x in _) => destruct x
      end
    | apply (keeps_ret _ rf) | apply (keeps_throw _ rf)
    | apply (keeps_panic _ rf) | apply (keeps_get _ rf)
    | apply (keeps_deref _ rf) | apply (keeps_insAt _ rf)
    | apply (keeps_marshal _ rf) | apply (keeps_at _ rf)
    | apply (keeps_bind _ tr); [ | intros ] ].

Ltac closed_go := keeps_with (@sameClosed_refl) (@sameClosed_trans).

Lemma outWrite_closed (p : bytes) : keeps sameClosed (outWrite p).
Proof. intros w. reflexivity. Qed.

Lemma writeFraming_closed (p : bytes) : keeps sameClosed (writeFraming p).
Proof. pose proof outWrite_closed. unfold writeFraming. closed_go. Qed.

Lemma sendLen_closed (c : option chan) (n : Z) :
  keeps sameClosed (sendLen c n).
Proof.
  intros w. unfold sendLen.
  destruct c as [c'|]; [destruct (isClosed w c')|]; reflexivity.
Qed.

Lemma hashWrite_closed (p : ptr) (b : bytes) :
  keeps sameClosed (hashWrite p b).
Proof.
  intros w. unfold hashWrite.
  destruct (heap w !! p) as [in_|]; [destruct (hash in_)|]; reflexivity.
Qed.

Lemma headerForEOF_closed (p : ptr) : keeps sameClosed (headerForEOF p).
Proof.
  intros w. unfold headerForEOF.
  destruct (heap w !! p) as [in_|]; [destruct (hash in_)|]; reflexivity.
Qed.

Lemma formatBody_closed (p : ptr) (b : bytes) :
  keeps sameClosed (formatBody p b).
Proof.
  pose proof outWrite_closed. pose proof writeFraming_closed.
  pose proof sendLen_closed.
  unfold formatBody, formatBody_header, formatBody_record. closed_go.
Qed.

Lemma formatEOF_closed (i : nat) (p : ptr) : keeps sameClosed (formatEOF i p).
Proof.
  pose proof writeFraming_closed. pose proof headerForEOF_closed.
  unfold formatEOF. closed_go.
Qed.

(** A turn on an open sink leaves it open, or is the one that closes it
    and ends [Run]. *)
Lemma Run_turn_sinkInOrder (i : nat) (v : Value) (ne : bool) w :
  closed (Out (mux w)) = false -> sinkInOrder (Run_turn i v ne w).
Proof.
  intros Hc. unfold Run_turn, complete.
  destruct (Nat.eqb i 0).
  - destruct (negb ne).
    + right. destruct (negb _); (split; [reflexivity|]); cbn; eauto.
    + left. destruct v; try exact Hc.
      destruct (heap w !! p); exact Hc.
  - left. destruct (negb ne).
    + pose proof formatEOF_closed.
      assert (Hm : keeps sameClosed (let* p := insAt i in formatEOF i p))
        by closed_go.
      specialize (Hm w). unfold afterCall, complete.
      destruct ((let* p := insAt i in formatEOF i p) w) as [w1 [a|e|pk|]];
        cbn in *; congruence.
    + destruct v; try exact Hc.
      pose proof formatBody_closed. pose proof hashWrite_closed.
      assert (Hm : keeps sameClosed
                     (let* p := insAt i in hashWrite p b;;; formatBody p b))
        by closed_go.
      specialize (Hm w). unfold afterCall, complete.
      destruct ((let* p := insAt i in hashWrite p b;;; formatBody p b) w)
        as [w1 [a|e|pk|]]; cbn in *; congruence.
Qed.

Lemma selecting_sinkInOrder w :
  sinkInOrder w -> selecting w = true -> closed (Out (mux w)) = false.
Proof.
  intros [H|(_ & [H|[n H]])] Hs; [exact H| |];
    unfold selecting in Hs; rewrite H in Hs; discriminate.
Qed.

Lemma ksio_refl w : keepsSinkInOrder w w.
Proof. intros H. exact H. Qed.

Lemma ksio_trans w1 w2 w3 :
  keepsSinkInOrder w1 w2 -> keepsSinkInOrder w2 w3 -> keepsSinkInOrder w1 w3.
Proof. unfold keepsSinkInOrder. auto. Qed.

Ltac sink_go := keeps_with (@ksio_refl) (@ksio_trans).

Lemma quiet_sinkInOrder {A : Type} (m : M A) :
  (forall w, mux (fst (m w)) = mux w /\ running (fst (m w)) = running w) ->
  keeps keepsSinkInOrder m.
Proof.
  intros H w. destruct (H w) as [Hm Hr].
  unfold keepsSinkInOrder, sinkInOrder. rewrite Hm, Hr. auto.
Qed.

Lemma makeChan_sink : keeps keepsSinkInOrder makeChan.
Proof. apply quiet_sinkInOrder. intros w. split; reflexivity. Qed.

Lemma closeChan_sink (c : option chan) : keeps keepsSinkInOrder (closeChan c).
Proof.
  apply quiet_sinkInOrder. intros w. unfold closeChan.
  destruct c as [c'|]; [destruct (isClosed w c')|]; split; reflexivity.
Qed.

Lemma recvLen_sink (c : option chan) : keeps keepsSinkInOrder (recvLen c).
Proof.
  apply quiet_sinkInOrder. intros w. unfold recvLen.
  destruct c as [c'|]; [|split; reflexivity].
  destruct (ack w) as [[[c''|] n]|]; try destruct (Nat.eqb c' c'');
    try destruct (isClosed w c'); split; reflexivity.
Qed.

Lemma assign_sink (p : ptr) (f : MuxIn -> MuxIn) :
  keeps keepsSinkInOrder (assign p f).
Proof.
  apply quiet_sinkInOrder. intros w. unfold assign, bind, deref, modify.
  destruct (heap w !! p); split; reflexivity.
Qed.

Lemma newHash_sink (p : ptr) : keeps keepsSinkInOrder (newHash p).
Proof.
  apply quiet_sinkInOrder. intros w. unfold newHash, bind, deref, modify.
  destruct (heap w !! p); split; reflexivity.
Qed.

Lemma sendControl_sink (p : ptr) : keeps keepsSinkInOrder (sendControl p).
Proof.
  intros w H. unfold sendControl.
  destruct (isClosed w _); [exact H|].
  destruct (selecting w) eqn:Hs; [|exact H].
  apply Run_turn_sinkInOrder, selecting_sinkInOrder; assumption.
Qed.

Lemma sendBytes_sink (c : option chan) (b : bytes) :
  keeps keepsSinkInOrder (sendBytes c b).
Proof.
  intros w H. unfold sendBytes.
  destruct c as [c'|]; [|exact H].
  destruct (isClosed w c'); [exact H|].
  destruct (selecting w) eqn:Hs; [|exact H].
  destruct (findCase c' _); [|exact H].
  apply Run_turn_sinkInOrder, selecting_sinkInOrder; assumption.
Qed.

Lemma step_sink (op : Op) w : keepsSinkInOrder w (step op w).
Proof.
  pose proof makeChan_sink. pose proof closeChan_sink.
  pose proof recvLen_sink. pose proof assign_sink. pose proof newHash_sink.
  pose proof sendControl_sink. pose proof sendBytes_sink.
  destruct op as [p|p b|p| |i]; cbn [step].
  - assert (Hk : keeps keepsSinkInOrder (MuxIn_Open p))
      by (unfold MuxIn_Open; sink_go).
    apply Hk.
  - assert (Hk : keeps keepsSinkInOrder (MuxIn_Write p b))
      by (unfold MuxIn_Write; sink_go).
    apply Hk.
  - assert (Hk : keeps keepsSinkInOrder (MuxIn_Close p))
      by (unfold MuxIn_Close; sink_go).
    apply Hk.
  - apply (closeChan_sink (Some (Control (mux w)))).
  - intros Hs. unfold selectEOF.
    destruct (selectCases (mux w) !! i) as [[c|]|]; try exact Hs.
    destruct (isClosed w c); [|exact Hs].
    destruct (selecting w) eqn:Hsel; [|exact Hs].
    apply Run_turn_sinkInOrder, selecting_sinkInOrder; assumption.
Qed.

(** X18.  In every execution from a new multiplexer on an open sink,
    the sink is closed by nobody but [Run], and only as its last act:
    whenever the sink is closed, [Run] has returned, with nil or with
    the error that data channels were still open.  The multiplexer
    never writes to a sink it has closed, and never closes it after an
    error of its own. *)
Theorem sink_closed_only_at_the_end (out : Recorder)
    (its : list intents.Intent) (ops : list Op) :
  closed out = false ->
  closed (Out (mux (exec ops (NewWorld out its)))) = true ->
  running (exec ops (NewWorld out its)) = Returned None
  \/ exists n,
       running (exec ops (NewWorld out its)) = Returned (Some (ErrMuxEnding n)).
Proof.
  intros Hout Hclosed.
  assert (H : forall w, sinkInOrder w -> sinkInOrder (exec ops w)).
  { clear Hclosed.
    induction ops as [|op ops' IH]; intros w Hw; [exact Hw|].
    apply (IH (step op w)). apply step_sink. exact Hw. }
  destruct (H (NewWorld out its)) as [Hf|[_ Hr]].
  - left. exact Hout.
  - rewrite Hf in Hclosed. discriminate.
  - exact Hr.
Qed.

End StreamFacts.

(** ** The intents of a dump *)

Section PrepareFacts.

Import prepare.
Context {O : Outside}.
Variable dump : MongoDump.

Lemma rangeReturns_true {A : Type} (f : A -> bool) (l : list A) :
  rangeReturns f l = true <-> exists x, In x l /\ f x = true.
Proof.
  induction l as [|x l IH]; cbn.
  - split; [discriminate | intros (x & [] & _)].
  - destruct (f x) eqn:E.
    + split; [|reflexivity]. intros _. exists x. auto.
    + rewrite IH. split.
      * intros (y & Hy & Hf). exists y. auto.
      * intros (y & [<-|Hy] & Hf); [congruence|]. exists y. auto.
Qed.

Lemma shouldSkipCollection_true (colName : string) :
  shouldSkipCollection dump colName = true
  <-> In colName (ExcludedCollections (outputOptions dump))
      \/ exists pre,
           In pre (ExcludedCollectionPrefixes (outputOptions dump))
           /\ String.prefix pre colName = true.
Proof.
  unfold shouldSkipCollection.
  destruct (rangeReturns _ (ExcludedCollections _)) eqn:E1.
  - apply rangeReturns_true in E1 as (x & Hx & Heq).
    apply String.eqb_eq in Heq. subst x. tauto.
  - destruct (rangeReturns _ (ExcludedCollectionPrefixes _)) eqn:E2.
    + apply rangeReturns_true in E2. tauto.
    + split; [discriminate|]. intros [Hin | Hpre].
      * assert (rangeReturns (fun e => (colName =? e)%string)
                  (ExcludedCollections (outputOptions dump)) = true)
          by (apply rangeReturns_true; exists colName;
              split; [exact Hin | apply String.eqb_refl]).
        congruence.
      * assert (rangeReturns (fun e => HasPrefix colName e)
                  (ExcludedCollectionPrefixes (outputOptions dump)) = true)
          by (apply rangeReturns_true; exact Hpre).
        congruence.
Qed.

(** The five ways through [CreateIntentForCollection]. *)
Lemma CreateIntentForCollection_eq (dbName colName : string)
    (tr : list Call) :
  let outDir := Join [Out (outputOptions dump); dbName] in
  let tr1 := tr ++ [DidMkdirAll outDir None] in
  let tr2 := tr1 ++ [DidGetSession None] in
  CreateIntentForCollection dump dbName colName tr
  = if shouldSkipCollection dump colName then (tr, None)
    else
      match MkdirAll tr outDir with
      | Some e => (tr ++ [DidMkdirAll outDir (Some e)], Some e)
      | None =>
          match GetSession tr1 with
          | Some e => (tr1 ++ [DidGetSession (Some e)], Some e)
          | None =>
              match Count tr2 dbName colName with
              | inl e =>
                  (tr ++ [DidMkdirAll outDir None; DidGetSession None;
                          DidCount dbName colName (inl e); DidSessionClose],
                   Some (ErrCounting
                           (Namespace (intentFor dump dbName colName)) e))
              | inr n =>
                  (tr ++ [DidMkdirAll outDir None; DidGetSession None;
                          DidCount dbName colName (inr n);
                          DidPut (setSize (intentFor dump dbName colName) n);
                          DidSessionClose],
                   None)
              end
          end
      end.
Proof.
  cbv zeta. unfold CreateIntentForCollection.
  destruct (shouldSkipCollection dump colName); [reflexivity|].
  unfold bind, os_MkdirAll, sessionProvider_GetSession, session_Count,
    manager_Put, session_Close, ret.
  destruct (MkdirAll tr _) as [e|]; [reflexivity|].
  destruct (GetSession _) as [e|]; [reflexivity|].
  destruct (Count _ dbName colName) as [e|n];
    rewrite <- ?app_assoc; reflexivity.
Qed.

Lemma intentFor_fields (dbName colName : string) (n : Z) :
  let it := setSize (intentFor dump dbName colName) n in
  DB it = dbName /\ C it = colName
  /\ BSONPath it
     = Join [Out (outputOptions dump); dbName; (colName ++ ".bson")%string]
  /\ BSONFile it = Some (if useStdout dump then stdoutFile else bsonFileFile).
Proof.
  cbv zeta. unfold intentFor.
  destruct (negb (IsSystemIndexes _)), (useStdout dump); cbn; auto.
Qed.

(** *** What every stretch of calls made here satisfies *)

Lemma openSessions_app (a b : list Call) :
  openSessions (a ++ b) = openSessions a + openSessions b.
Proof.
  unfold openSessions. induction a as [|c a IH]; cbn; [reflexivity|].
  rewrite IH. lia.
Qed.

Lemma tidy_nil : tidy dump [].
Proof.
  split; [intros it []|]. split; [reflexivity|].
  intros k it H. destruct k; discriminate.
Qed.

Lemma tidy_app (a b : list Call) :
  tidy dump a -> tidy dump b -> tidy dump (a ++ b).
Proof.
  intros (Ha1 & Ha2 & Ha3) (Hb1 & Hb2 & Hb3). split; [|split].
  - intros it Hin. apply in_app_or in Hin as [H|H]; auto.
  - rewrite openSessions_app. lia.
  - intros k it Hk. apply lookup_app_Some in Hk as [Hk | [Hge Hk]].
    + destruct (Ha3 k it Hk) as (j & Hj & Hl). exists j.
      split; [exact Hj|]. apply lookup_app_l_Some. exact Hl.
    + destruct (Hb3 _ it Hk) as (j & Hj & Hl).
      exists (length a + j)%nat. split; [lia|].
      rewrite lookup_app_r by lia.
      replace (length a + j - length a)%nat with j by lia. exact Hl.
Qed.

Lemma tidy_quiet (delta : list Call) :
  Forall (fun c => sessionWeight c = 0
                   /\ match c with DidPut _ => False | _ => True end) delta ->
  tidy dump delta.
Proof.
  induction 1 as [|c delta [Hw Hc] _ IH]; [apply tidy_nil|].
  change (c :: delta) with ([c] ++ delta). apply tidy_app; [|exact IH].
  split; [|split].
  - intros it [->|[]]. contradiction.
  - cbn. lia.
  - intros [|k] it Hk; [|destruct k; discriminate].
    injection Hk as ->. contradiction.
Qed.

Lemma CreateIntentForCollection_tidy (dbName colName : string)
    (tr : list Call) :
  dbName <> "local"%string ->
  exists delta,
    fst (CreateIntentForCollection dump dbName colName tr) = tr ++ delta
    /\ tidy dump delta.
Proof.
  intros Hdb. rewrite CreateIntentForCollection_eq.
  destruct (shouldSkipCollection dump colName) eqn:Hskip.
  { exists []. rewrite app_nil_r. split; [reflexivity | apply tidy_nil]. }
  destruct (MkdirAll tr _) as [e|].
  { eexists. split; [reflexivity|]. apply tidy_quiet. repeat constructor. }
  destruct (GetSession _) as [e|].
  { eexists. rewrite <- app_assoc. split; [reflexivity|].
    apply tidy_quiet. repeat constructor. }
  destruct (Count _ dbName colName) as [e|n].
  - eexists. split; [reflexivity|]. split; [|split].
    + intros it Hin. cbn in Hin. intuition discriminate.
    + reflexivity.
    + intros k it Hk. do 4 (destruct k as [|k]; [discriminate|]).
      discriminate.
  - destruct (intentFor_fields dbName colName n) as (H1 & H2 & H3 & H4).
    eexists. split; [reflexivity|]. split; [|split].
    + intros it Hin. cbn in Hin.
      destruct Hin as [H|[H|[H|[H|[H|[]]]]]]; try discriminate.
      injection H as <-. unfold kept. rewrite H1, H2. auto.
    + reflexivity.
    + intros k it Hk. do 3 (destruct k as [|k]; [discriminate|]).
      destruct k as [|k]; [|destruct k; discriminate].
      injection Hk as <-. exists 0%nat. split; [lia|].
      rewrite H1. reflexivity.
Qed.

Lemma rangeErr_tidy {A : Type} (body : A -> D (option Err)) (l : list A) :
  (forall x, In x l ->
     forall tr, exists delta, fst (body x tr) = tr ++ delta /\ tidy dump delta) ->
  forall tr,
    exists delta, fst (rangeErr body l tr) = tr ++ delta /\ tidy dump delta.
Proof.
  induction l as [|x l IH]; intros Hbody tr.
  - exists []. rewrite app_nil_r. split; [reflexivity | apply tidy_nil].
  - cbn [rangeErr]. unfold bind.
    destruct (Hbody x (or_introl eq_refl) tr) as (d1 & E1 & T1).
    destruct (body x tr) as [tr1 [e|]]; cbn [fst] in E1.
    + exists d1. auto.
    + destruct (IH (fun y Hy => Hbody y (or_intror Hy)) tr1) as (d2 & E2 & T2).
      exists (d1 ++ d2). rewrite E2, E1, app_assoc.
      split; [reflexivity | apply tidy_app; assumption].
Qed.

Lemma CreateIntentsForDatabase_tidy (dbName : string) (tr : list Call) :
  dbName <> "local"%string ->
  exists delta,
    fst (CreateIntentsForDatabase dump dbName tr) = tr ++ delta
    /\ tidy dump delta.
Proof.
  intros Hdb. unfold CreateIntentsForDatabase, bind, os_MkdirAll,
    sessionProvider_CollectionNames, ret.
  destruct (MkdirAll tr _) as [e|].
  { eexists. split; [reflexivity|]. apply tidy_quiet. repeat constructor. }
  destruct (CollectionNames _ dbName) as [e|cols].
  { eexists. rewrite <- app_assoc. split; [reflexivity|].
    apply tidy_quiet. repeat constructor. }
  destruct (rangeErr_tidy
              (fun colName => CreateIntentForCollection dump dbName colName)
              cols
              (fun c _ tr0 => CreateIntentForCollection_tidy dbName c tr0 Hdb)
              ((tr ++ [DidMkdirAll (Join [Out (outputOptions dump); dbName])
                         None])
               ++ [DidCollectionNames dbName (inr cols)]))
    as (d & E & T).
  eexists. rewrite E, <- !app_assoc. split; [reflexivity|].
  apply (tidy_app [_; _]); [|exact T].
  apply tidy_quiet. repeat constructor.
Qed.

Lemma CreateAllIntents_tidy (tr : list Call) :
  exists delta,
    fst (CreateAllIntents dump tr) = tr ++ delta /\ tidy dump delta.
Proof.
  unfold CreateAllIntents, bind, sessionProvider_DatabaseNames, ret.
  destruct (DatabaseNames tr) as [e|dbs].
  { eexists. split; [reflexivity|]. apply tidy_quiet. repeat constructor. }
  match goal with
  | |- context [rangeErr ?body dbs ?t] =>
      destruct (rangeErr_tidy body dbs) with (tr := t) as (d & E & T)
  end.
  { intros dbName _ tr0. cbv beta.
    destruct (dbName =? "local")%string eqn:El.
    - exists []. rewrite app_nil_r. split; [reflexivity | apply tidy_nil].
    - apply CreateIntentsForDatabase_tidy.
      intros ->. discriminate. }
  eexists. rewrite E, <- app_assoc. split; [reflexivity|].
  apply (tidy_app [_]); [|exact T].
  apply tidy_quiet. repeat constructor.
Qed.

(** X11.  [CreateIntentForCollection] does nothing at all, not even
    making the directory, exactly when the collection is excluded: when
    its name is one of the excluded collections or begins with one of
    the excluded prefixes.  It then returns nil. *)
Theorem excluded_collection_is_left_alone (dbName colName : string)
    (tr : list Call) :
  (fst (CreateIntentForCollection dump dbName colName tr) = tr
   <-> In colName (ExcludedCollections (outputOptions dump))
       \/ exists pre,
            In pre (ExcludedCollectionPrefixes (outputOptions dump))
            /\ String.prefix pre colName = true)
  /\ (fst (CreateIntentForCollection dump dbName colName tr) = tr ->
      snd (CreateIntentForCollection dump dbName colName tr) = None).
Proof.
  rewrite <- shouldSkipCollection_true.
  rewrite CreateIntentForCollection_eq.
  destruct (shouldSkipCollection dump colName).
  { split; [tauto | reflexivity]. }
  assert (Hgrow : forall (c : Call) (rest : list Call),
            tr ++ c :: rest <> tr).
  { intros c rest H. apply (f_equal length) in H.
    rewrite length_app in H. cbn in H. lia. }
  destruct (MkdirAll tr _) as [e|]; cbn [fst snd].
  { split; [split; [intros H; destruct (Hgrow _ _ H) | discriminate]|].
    intros H. destruct (Hgrow _ _ H). }
  destruct (GetSession _) as [e|]; cbn [fst snd]; rewrite <- ?app_assoc.
  { split; [split; [intros H; destruct (Hgrow _ _ H) | discriminate]|].
    intros H. destruct (Hgrow _ _ H). }
  destruct (Count _ dbName colName) as [e|n]; cbn [fst snd];
    (split; [split; [intros H; destruct (Hgrow _ _ H) | discriminate]|]);
    intros H; destruct (Hgrow _ _ H).
Qed.

(** X12.  Whatever the server and the file system answer,
    [CreateAllIntents] only enqueues intents of collections that are
    not excluded, in databases other than [local]; each has its BSON
    path at [Out/db/collection.bson] and a BSON file to open, the
    standard output when [useStdout] is set. *)
Theorem CreateAllIntents_enqueues_only_kept (tr : list Call) :
  exists delta,
    fst (CreateAllIntents dump tr) = tr ++ delta
    /\ forall it,
         In (DidPut it) delta ->
         DB it <> "local"%string
         /\ shouldSkipCollection dump (C it) = false
         /\ BSONPath it
            = Join [Out (outputOptions dump); DB it; (C it ++ ".bson")%string]
         /\ BSONFile it
            = Some (if useStdout dump then stdoutFile else bsonFileFile).
Proof.
  destruct (CreateAllIntents_tidy tr) as (delta & E & T & _).
  exists delta. split; [exact E|]. intros it Hin. apply (T it Hin).
Qed.

(** X13.  [CreateAllIntents] leaves no session open: on every path,
    error or not, each session it got from the provider has been
    closed when it returns. *)
Theorem CreateAllIntents_closes_its_sessions (tr : list Call) :
  openSessions (fst (CreateAllIntents dump tr)) = openSessions tr.
Proof.
  destruct (CreateAllIntents_tidy tr) as (delta & E & _ & T & _).
  rewrite E, openSessions_app. lia.
Qed.

(** X14.  Among the calls [CreateAllIntents] makes, every [Put] of an
    intent comes after a successful [os.MkdirAll] of the directory of
    its database, [Out/db]. *)
Theorem CreateAllIntents_makes_directory_first (tr : list Call) :
  exists delta,
    fst (CreateAllIntents dump tr) = tr ++ delta
    /\ forall k it,
         delta !! k = Some (DidPut it) ->
         exists j, (j < k)%nat
                   /\ delta !! j
                      = Some (DidMkdirAll
                                (Join [Out (outputOptions dump); DB it]) None).
Proof.
  destruct (CreateAllIntents_tidy tr) as (delta & E & _ & _ & T).
  exists delta. split; [exact E | exact T].
Qed.





End PrepareFacts.

(** ** The whole of a metadata file *)

Section MetadataMoreFacts.

Import mongodump.
Context {BU : BsonUtil}.



End MetadataMoreFacts.

(** ** The further statements at concrete inputs *)

Lemma eof_crc_is_checksum_since_last_Open_witness :
  passed
    (Out (mux (exec (Ext := ext8)
                 [OpOpen 0%nat; OpWrite 0%nat rec5; OpWrite 0%nat rec5;
                  OpClose 0%nat; OpSelectEOF 1%nat]
                 (NewWorld emptyRecorder [intent_d_c; intent_e_f]))))
  = passed emptyRecorder
      ++ handed
           (layoutOf (Ext := ext8) [intent_d_c; intent_e_f]
              (history
                 (exec (Ext := ext8)
                    [OpOpen 0%nat; OpWrite 0%nat rec5; OpWrite 0%nat rec5;
                     OpClose 0%nat; OpSelectEOF 1%nat]
                    (NewWorld emptyRecorder [intent_d_c; intent_e_f])))).
Proof.
  apply (eof_crc_is_checksum_since_last_Open (Ext := ext8)
           [intent_d_c; intent_e_f] emptyRecorder
           [OpOpen 0%nat; OpWrite 0%nat rec5; OpWrite 0%nat rec5;
            OpClose 0%nat; OpSelectEOF 1%nat]).
  left. reflexivity.
Defined.

(** In that run the sink is handed the open header, the two records in
    two buffers, a terminator, the eof header with the checksum of the
    ten bytes, and a terminator. *)
Example streamed_layout :
  running worldStreamed = Running
  /\ handed (layoutOf (Ext := ext8) [intent_d_c; intent_e_f]
               (history worldStreamed))
     = [headerBytes openHeader_d_c; rec5; rec5; terminatorBytes;
        headerBytes (eofHeader_d_c (int64 (crc64.Checksum (rec5 ++ rec5))));
        terminatorBytes].
Proof. split; vm_compute; reflexivity. Qed.

(** The claim C6 fails for a handle that is opened again.  The handle
    has delivered one record, which is in the sink under its namespace;
    the second [Open] gives it a new digest, and the only eof header
    written for it carries the crc 0 of nothing, not the checksum of
    the record. *)
Lemma reopened_handle_crc_misses_what_was_delivered :
  running worldReopened = Running
  /\ passed (Out (mux worldReopened))
     = [headerBytes openHeader_d_c; rec5; []; terminatorBytes;
        headerBytes (eofHeader_d_c 0); terminatorBytes]
  /\ concat (payloadsOf 0%nat (history worldReopened)) = rec5
  /\ int64 (crc64.Checksum rec5) <> 0.
Proof.
  split; [reflexivity|]. split; [vm_compute; reflexivity|].
  split; [vm_compute; reflexivity|]. vm_compute. discriminate.
Qed.

Lemma nothing_reaches_the_sink_after_Run_ended_witness :
  mux (exec (Ext := ext8)
         [OpWrite 0%nat rec5; OpClose 0%nat; OpOpen 1%nat; OpSelectEOF 1%nat]
         worldDangling)
  = mux worldDangling
  /\ running (exec (Ext := ext8)
                [OpWrite 0%nat rec5; OpClose 0%nat; OpOpen 1%nat;
                 OpSelectEOF 1%nat]
                worldDangling)
     = running worldDangling.
Proof.
  apply (nothing_reaches_the_sink_after_Run_ended (Ext := ext8) worldDangling).
  vm_compute. discriminate.
Defined.

Lemma producers_hang_after_Run_ended_witness :
  (forall r, snd (MuxIn_Open (Ext := ext8) 0%nat worldDangling) <> Ret r)
  /\ (forall r, snd (MuxIn_Close (Ext := ext8) 0%nat worldDangling) <> Ret r)
  /\ (forall m b,
        heap worldDangling !! 0%nat = Some m -> framed b = true ->
        len (buf m) + len b > bufCap m ->
        forall r, snd (MuxIn_Write (Ext := ext8) 0%nat b worldDangling)
                  <> Ret r).
Proof.
  apply (producers_hang_after_Run_ended (Ext := ext8) worldDangling 0%nat).
  vm_compute. discriminate.
Defined.

Lemma flush_hangs_when_turn_ends_Run_witness :
  MuxIn_Close (Ext := ext8) 0%nat worldFailing
  = (Run_turn (Ext := ext8) 1 (VBytes (buf handleBuffered)) true worldFailing,
     Blocked)
  /\ (forall b,
        framed b = true ->
        len (buf handleBuffered) + len b > bufCap handleBuffered ->
        MuxIn_Write (Ext := ext8) 0%nat b worldFailing
        = (Run_turn (Ext := ext8) 1 (VBytes (buf handleBuffered)) true
             worldFailing, Blocked))
  /\ chans (Run_turn (Ext := ext8) 1 (VBytes (buf handleBuffered)) true
              worldFailing)
     = chans worldFailing
  /\ exists h,
       heap (Run_turn (Ext := ext8) 1 (VBytes (buf handleBuffered)) true
               worldFailing) !! 0%nat
       = Some (setHash handleBuffered h).
Proof.
  apply (flush_hangs_when_turn_ends_Run (Ext := ext8) worldFailing 0%nat
           handleBuffered 2%nat 3%nat 1%nat); try reflexivity.
  vm_compute. discriminate.
Defined.

(** On that sink the multiplexer has published the error of the sink
    and returned, while [Close] waits. *)
Example sink_error_is_published_not_returned :
  running (fst (MuxIn_Close (Ext := ext8) 0%nat worldFailing))
  = Returned (Some (ErrExternal "disk full"))
  /\ snd (MuxIn_Close (Ext := ext8) 0%nat worldFailing) = Blocked.
Proof. split; vm_compute; reflexivity. Qed.

Lemma use_after_Close_panics_witness :
  MuxIn_Close (Ext := ext8) 0%nat worldClosed
  = (worldClosed, Panic ClosedChannel)
  /\ forall b, framed b = true ->
               MuxIn_Write (Ext := ext8) 0%nat b worldClosed
               = (worldClosed, Panic ClosedChannel).
Proof.
  apply (use_after_Close_panics (Ext := ext8) worldOpened worldClosed 0%nat
           handleOpened 2%nat).
  - reflexivity.
  - reflexivity.
  - simpl. lia.
  - vm_compute. reflexivity.
Defined.

Lemma unopened_handle_blocks_witness :
  MuxIn_Close (Ext := ext8) 0%nat world0 = (world0, Blocked)
  /\ forall b, framed b = true ->
               MuxIn_Write (Ext := ext8) 0%nat b world0 = (world0, Blocked).
Proof.
  apply (unopened_handle_blocks (Ext := ext8) world0 0%nat intent_d_c).
  reflexivity.
Defined.

Lemma data_turn_layout_witness :
  let w' := Run_turn (Ext := ext8) 2 (VBytes rec5) true worldTwo in
  written (Out (mux w'))
  = written (Out (mux worldTwo))
      ++ (if ("e.f" =? "d.c")%string then []
          else (if ("d.c" =? EmptyString)%string then [] else terminatorBytes)
               ++ headerBytes openHeader_e_f)
      ++ rec5
  /\ currentNamespace (mux w') = "e.f"%string
  /\ heap w' !! 1%nat
     = Some (setHash handleSecond (Some (crc64.Write 0 rec5)))
  /\ ack w' = Some (Some 5%nat, len rec5)
  /\ ins (mux w') = ins (mux worldTwo)
  /\ selectCases (mux w') = selectCases (mux worldTwo)
  /\ running w' = running worldTwo.
Proof.
  apply (data_turn_layout (Ext := ext8) worldTwo 2%nat 1%nat handleSecond 0
           5%nat rec5 (headerBytes openHeader_e_f)); try reflexivity.
  discriminate.
Defined.

Lemma eof_turn_layout_witness :
  let w' := Run_turn (Ext := ext8) 1 VZero false worldClosed in
  written (Out (mux w'))
  = written (Out (mux worldClosed))
      ++ (if ("d.c" =? EmptyString)%string then [] else terminatorBytes)
      ++ headerBytes (eofHeader_d_c 0) ++ terminatorBytes
  /\ CRC (eofHeaderOf handleClosed 0) = int64 0
  /\ currentNamespace (mux w') = EmptyString
  /\ ins (mux w')
     = take 1 (ins (mux worldClosed)) ++ drop 2 (ins (mux worldClosed))
  /\ selectCases (mux w')
     = take 1 (selectCases (mux worldClosed))
         ++ drop 2 (selectCases (mux worldClosed))
  /\ heap w' = heap worldClosed
  /\ running w' = running worldClosed.
Proof.
  apply (eof_turn_layout (Ext := ext8) worldClosed 1%nat 0%nat handleClosed 0
           (headerBytes (eofHeader_d_c 0))); try reflexivity.
  discriminate.
Defined.

Lemma one_stream_layout_witness :
  let w' :=
    exec (Ext := ext8)
      [OpOpen 0%nat; OpWrite 0%nat rec5; OpWrite 0%nat rec5;
       OpWrite 0%nat rec5; OpClose 0%nat; OpSelectEOF 1%nat] world0 in
  written (Out (mux w'))
  = written (Out (mux world0))
      ++ openingOf EmptyString "d.c" (headerBytes openHeader_d_c)
      ++ concat [rec5; rec5; rec5] ++ terminatorBytes
      ++ headerBytes
           (eofHeaderOf (zeroMuxIn intent_d_c)
              (crc64.Checksum (concat [rec5; rec5; rec5])))
      ++ terminatorBytes
  /\ currentNamespace (mux w') = EmptyString
  /\ ins (mux w') = ins (mux world0)
  /\ selectCases (mux w') = selectCases (mux world0)
  /\ selecting w' = true.
Proof.
  apply (one_stream_layout (Ext := ext8) world0 0%nat (zeroMuxIn intent_d_c)
           (headerBytes openHeader_d_c)
           (headerBytes
              (eofHeaderOf (zeroMuxIn intent_d_c)
                 (crc64.Checksum (concat [rec5; rec5; rec5]))))
           [rec5; rec5; rec5]); try reflexivity.
  - split; [|split]; simpl; [repeat constructor | reflexivity | lia].
  - repeat constructor.
Defined.

Lemma archive_of_collections_witness :
  let w' :=
    exec (Ext := ext8)
      (flat_map (streamOps 1)
         [(0%nat, [rec5; rec5]); (1%nat, []); (0%nat, [rec5])]
       ++ [OpCloseControl; OpSelectEOF 0%nat])
      (NewWorld emptyRecorder [intent_d_c; intent_e_f]) in
  running w' = Returned None
  /\ closed (Out (mux w')) = true
  /\ written (Out (mux w'))
     = written emptyRecorder
         ++ flat_map (streamBytes (Ext := ext8) [intent_d_c; intent_e_f])
              [(0%nat, [rec5; rec5]); (1%nat, []); (0%nat, [rec5])].
Proof.
  apply (archive_of_collections (Ext := ext8) emptyRecorder
           [intent_d_c; intent_e_f]
           [(0%nat, [rec5; rec5]); (1%nat, []); (0%nat, [rec5])]);
    reflexivity.
Defined.

(** The bytes of that archive: the stream of [d.c] with two records, the
    empty stream of [e.f] (its open header all the same), and [d.c] once
    more, reopened, with one record. *)
Example archive_bytes :
  flat_map (streamBytes (Ext := ext8) [intent_d_c; intent_e_f])
    [(0%nat, [rec5; rec5]); (1%nat, []); (0%nat, [rec5])]
  = headerBytes openHeader_d_c ++ rec5 ++ rec5 ++ terminatorBytes
      ++ headerBytes (eofHeader_d_c (int64 (crc64.Checksum (rec5 ++ rec5))))
      ++ terminatorBytes
      ++ headerBytes openHeader_e_f ++ terminatorBytes
      ++ headerBytes {| Database := "e"; Collection := "f"; EOF := true;
                        CRC := 0 |}
      ++ terminatorBytes
      ++ headerBytes openHeader_d_c ++ rec5 ++ terminatorBytes
      ++ headerBytes (eofHeader_d_c (int64 (crc64.Checksum rec5)))
      ++ terminatorBytes.
Proof. vm_compute. reflexivity. Qed.


(** In that run the collection with the excluded prefix is left out, and
    the intent of [system.indexes] has no metadata file. *)
Example shop_intents :
  map (fun it => (prepare.C it, prepare.BSONPath it, prepare.MetadataPath it,
                  prepare.Size it))
    (prepare.putsOf
       (fst (prepare.CreateAllIntents (O := prepare.exampleOutside)
               prepare.exampleDump [])))
  = [("orders", "dump/shop/orders.bson", "dump/shop/orders.metadata.json", 6);
     ("system.indexes", "dump/shop/system.indexes.bson", "", 14)]%string.
Proof. vm_compute. reflexivity. Qed.


Lemma sink_closed_only_at_the_end_witness :
  running (exec (Ext := ext8) [OpOpen 0%nat; OpCloseControl; OpSelectEOF 0%nat]
             (NewWorld emptyRecorder [intent_d_c; intent_e_f]))
  = Returned None
  \/ exists n,
       running (exec (Ext := ext8)
                  [OpOpen 0%nat; OpCloseControl; OpSelectEOF 0%nat]
                  (NewWorld emptyRecorder [intent_d_c; intent_e_f]))
       = Returned (Some (ErrMuxEnding n)).
Proof.
  apply (sink_closed_only_at_the_end (Ext := ext8) emptyRecorder
           [intent_d_c; intent_e_f]
           [OpOpen 0%nat; OpCloseControl; OpSelectEOF 0%nat]);
    reflexivity.
Defined.

(** A turn for a case that is not there is what would make [Run] panic:
    the index is out of range. *)
Example turn_for_a_missing_case_panics :
  running (Run_turn (Ext := ext8) 1 (VBytes rec5) true world0) = Crashed.
Proof. reflexivity. Qed.

Lemma protocol_calls_succeed_witness :
  snd (MuxIn_Open (Ext := ext8) 0%nat world0) = Ret None
  /\ (forall pre b post,
        [rec5; rec5; rec5] = pre ++ b :: post ->
        snd (MuxIn_Write (Ext := ext8) 0%nat b
               (exec (Ext := ext8) (OpOpen 0%nat :: map (OpWrite 0%nat) pre)
                  world0))
        = Ret (len b, None))
  /\ snd (MuxIn_Close (Ext := ext8) 0%nat
            (exec (Ext := ext8)
               (OpOpen 0%nat :: map (OpWrite 0%nat) [rec5; rec5; rec5])
               world0))
     = Ret None.
Proof.
  apply (protocol_calls_succeed (Ext := ext8) world0 0%nat
           (zeroMuxIn intent_d_c) (headerBytes openHeader_d_c)
           [rec5; rec5; rec5]); try reflexivity.
  - split; [|split]; simpl; [repeat constructor | reflexivity | lia].
  - repeat constructor.
Defined.

Lemma Run_never_panics_witness :
  selectPanics
    (exec (Ext := ext8)
       (take 3 [OpOpen 0%nat; OpWrite 0%nat rec5; OpOpen 0%nat;
                OpClose 0%nat; OpSelectEOF 2%nat])
       (NewWorld emptyRecorder [intent_d_c; intent_e_f])) = false
  /\ running
       (exec (Ext := ext8)
          (take 3 [OpOpen 0%nat; OpWrite 0%nat rec5; OpOpen 0%nat;
                   OpClose 0%nat; OpSelectEOF 2%nat])
          (NewWorld emptyRecorder [intent_d_c; intent_e_f])) <> Crashed.
Proof.
  apply (Run_never_panics (Ext := ext8) emptyRecorder
           [intent_d_c; intent_e_f]
           [OpOpen 0%nat; OpWrite 0%nat rec5; OpOpen 0%nat;
            OpClose 0%nat; OpSelectEOF 2%nat] 3).
  vm_compute. reflexivity.
Defined.

Lemma double_Open_forbids_a_clean_end_witness :
  running (exec (Ext := ext8)
             [OpOpen 0%nat; OpOpen 0%nat; OpClose 0%nat; OpSelectEOF 2%nat;
              OpCloseControl; OpSelectEOF 0%nat]
             (NewWorld emptyRecorder [intent_d_c; intent_e_f]))
  <> Returned None.
Proof.
  apply (double_Open_forbids_a_clean_end (Ext := ext8) emptyRecorder
           [intent_d_c; intent_e_f] 0%nat intent_d_c
           [OpClose 0%nat; OpSelectEOF 2%nat; OpCloseControl;
            OpSelectEOF 0%nat]).
  reflexivity.
Defined.
